(** * resticlib: a shallow embedding of the library facade and its C bridge

    The development follows the Go sources of the repository:
    - the C bridge (handle table, error codes, [restic_*] entry points),
    - [Backup]'s [SelectByName] and [Restore]'s [selectFilter],
    - [Snapshots] and [matchesFilter],
    - [Forget], [Prune] and [Check],
    - [Backup] and [Restore] around the archiver and the restorer,
    - the C memory that crosses the bridge ([restic_backup],
      [restic_list_snapshots], [restic_free_snapshot_arrays],
      [restic_get_error_message], [restic_free_string]) and the constructor
      and [listSnapshots] of the C++ wrapper,
    - [detectBackend] of the example command line.

    Go [int] values that count objects held in memory are integers in [Z];
    the conversions to [C.int] and [uintptr] that the bridge performs are
    written out with their wrap-around.  Functions of Go's standard library
    and of restic's internal packages are parameters of the sections that use
    them; concrete instances are given where an operation is evaluated. *)

From Stdlib Require Import ZArith List String Ascii Bool Lia Permutation Sorted.
From stdpp Require Import base gmap list.
Import ListNotations.

Local Open Scope string_scope.

(** ** Machine integers *)

(** Conversion to a signed integer of [w] bits keeps the low [w] bits. *)
Definition wrap_signed (w : Z) (x : Z) : Z :=
  ((x + 2 ^ (w - 1)) mod 2 ^ w - 2 ^ (w - 1))%Z.

(** Conversion to an unsigned integer of [w] bits. *)
Definition wrap_unsigned (w : Z) (x : Z) : Z := (x mod 2 ^ w)%Z.

(** [C.int(x)]: cgo maps C's [int] to a 32-bit signed integer. *)
Definition C_int (x : Z) : Z := wrap_signed 32 x.

(** [ResticRepo(x)]: [type ResticRepo uintptr], 64 bits wide. *)
Definition ResticRepo (x : Z) : Z := wrap_unsigned 64 x.

Definition INT_MIN : Z := (- 2 ^ 31)%Z.
Definition INT_MAX : Z := (2 ^ 31 - 1)%Z.

(** The values a [C.int] argument can take. *)
Definition is_C_int (x : Z) : Prop := (INT_MIN <= x <= INT_MAX)%Z.

(** ** Error codes of the C bridge *)

Definition RESTIC_OK : Z := 0%Z.
Definition RESTIC_ERROR_INVALID_PARAMS : Z := (-1)%Z.
Definition RESTIC_ERROR_REPO_NOT_FOUND : Z := (-2)%Z.
Definition RESTIC_ERROR_INVALID_PASSWORD : Z := (-3)%Z.
Definition RESTIC_ERROR_BACKUP_FAILED : Z := (-4)%Z.
Definition RESTIC_ERROR_RESTORE_FAILED : Z := (-5)%Z.
Definition RESTIC_ERROR_UNKNOWN : Z := (-99)%Z.

(** A Go [error] value is represented by its message. *)
Definition error : Type := string.

(** ** Option records of the library *)

Record BackupOptions := {
  bo_Paths : list string;
  bo_Tags : list string;
  bo_Excludes : list string;
  bo_Includes : list string;
  bo_ParentID : option string;
  bo_DryRun : bool
}.

Record RestoreOptions := {
  ro_TargetDir : string;
  ro_Includes : list string;
  ro_Excludes : list string;
  ro_Overwrite : bool;
  ro_Delete : bool;
  ro_DryRun : bool
}.

(** ** Path selection in [Backup] and [Restore] *)

Section PathSelection.

(** [filepath.Match pattern name], with the error result discarded as both
    callers do ([matched, _ = filepath.Match(...)]), and [filepath.Base]. *)
Variable Match : string -> string -> bool.
Variable Base : string -> string.

(** The include loop of [SelectByName]: [matched] is assigned in every
    iteration and the loop breaks on the first pattern that matches. *)
Fixpoint backupIncludeLoop (item : string) (patterns : list string)
    (matched : bool) : bool :=
  match patterns with
  | [] => matched
  | pattern :: rest =>
      let matched := Match pattern (Base item) in
      if matched then matched else backupIncludeLoop item rest matched
  end.

(** The exclude loop of [SelectByName]: [Some false] is the early
    [return false]; [None] means the loop ran to its end. *)
Fixpoint backupExcludeLoop (item : string) (patterns : list string)
    : option bool :=
  match patterns with
  | [] => None
  | pattern :: rest =>
      if Match pattern (Base item) then Some false
      else backupExcludeLoop item rest
  end.

(** [arch.SelectByName] as set up by [Backup]. *)
Definition SelectByName (opts : BackupOptions) (item : string) : bool :=
  let includesPassed :=
    if (0 <? length (bo_Includes opts))%nat then
      backupIncludeLoop item (bo_Includes opts) false
    else true in
  if negb includesPassed then false
  else
    match backupExcludeLoop item (bo_Excludes opts) with
    | Some r => r
    | None => true
    end.

(** The include loop of [selectFilter]: two assignments to [matched] per
    pattern, each followed by a conditional [break]. *)
Fixpoint restoreIncludeLoop (item : string) (patterns : list string)
    (matched : bool) : bool :=
  match patterns with
  | [] => matched
  | pattern :: rest =>
      let matched := Match pattern item in
      if matched then matched
      else
        let matched := Match pattern (Base item) in
        if matched then matched else restoreIncludeLoop item rest matched
  end.

(** The exclude loop of [selectFilter]; [Some r] is an early [return r]. *)
Fixpoint restoreExcludeLoop (item : string) (patterns : list string)
    : option (bool * bool) :=
  match patterns with
  | [] => None
  | pattern :: rest =>
      if Match pattern item then Some (false, false)
      else if Match pattern (Base item) then Some (false, false)
      else restoreExcludeLoop item rest
  end.

(** [selectFilter] of [Restore]; the result is
    [(selectedForRestore, childMayBeSelected)]. *)
Definition selectFilter (includePatterns excludePatterns : list string)
    (item : string) (isDir : bool) : bool * bool :=
  let includesPassed :=
    if (0 <? length includePatterns)%nat then
      restoreIncludeLoop item includePatterns false
    else true in
  if negb includesPassed then (false, true)
  else
    match restoreExcludeLoop item excludePatterns with
    | Some r => r
    | None => (true, true)
    end.

(** [Restore] copies the option lists and installs [selectFilter] only when
    one of them is non-empty. *)
Definition restoreSelectFilter (opts : RestoreOptions)
    : option (string -> bool -> bool * bool) :=
  let includePatterns :=
    if (0 <? length (ro_Includes opts))%nat then ro_Includes opts else [] in
  let excludePatterns :=
    if (0 <? length (ro_Excludes opts))%nat then ro_Excludes opts else [] in
  if ((0 <? length includePatterns) || (0 <? length excludePatterns))%nat
  then Some (selectFilter includePatterns excludePatterns)
  else None.

(** A pattern matches an item in [Restore] when it matches the full path or
    the final path component. *)
Definition matchesEither (item pattern : string) : bool :=
  Match pattern item || Match pattern (Base item).

(** A pattern matches an item in [Backup] when it matches the final path
    component. *)
Definition matchesBase (item pattern : string) : bool :=
  Match pattern (Base item).

(** The decision in two phases, for a notion [matches] of a pattern
    matching the item: a non-empty include list that the item misses, then
    the exclude list. *)
Definition twoPhase (matches : string -> bool)
    (includePatterns excludePatterns : list string) : bool * bool :=
  if (0 <? length includePatterns)%nat && negb (existsb matches includePatterns)
  then (false, true)
  else if existsb matches excludePatterns then (false, false)
  else (true, true).

End PathSelection.

(** ** [path/filepath] on Unix *)

(** Patterns and names are strings of bytes, as in Go; [Match] reads the
    name by runes of UTF-8 where the pattern has a [?] or a class, and by
    bytes elsewhere. *)
Definition Separator : ascii := "/"%char.

Definition RuneError : Z := 65533.

Definition byteOf (c : ascii) : Z := Z.of_nat (nat_of_ascii c).

Definition isContinuation (b : Z) : bool := ((128 <=? b) && (b <=? 191))%Z.

(** [utf8.DecodeRuneInString]: the rune at the head of [s] and its width in
    bytes; [(RuneError, 1)] where [s] does not start with the encoding of a
    rune and [(RuneError, 0)] for the empty string. *)
Definition DecodeRune (s : list ascii) : Z * nat :=
  match s with
  | [] => (RuneError, 0%nat)
  | c0 :: rest =>
      let b0 := byteOf c0 in
      if (b0 <? 128)%Z then (b0, 1%nat)
      else if ((194 <=? b0) && (b0 <=? 223))%Z then
        match rest with
        | c1 :: _ =>
            if isContinuation (byteOf c1)
            then (((b0 - 192) * 64 + (byteOf c1 - 128))%Z, 2%nat)
            else (RuneError, 1%nat)
        | [] => (RuneError, 1%nat)
        end
      else if ((224 <=? b0) && (b0 <=? 239))%Z then
        match rest with
        | c1 :: c2 :: _ =>
            let lo := if (b0 =? 224)%Z then 160%Z else 128%Z in
            let hi := if (b0 =? 237)%Z then 159%Z else 191%Z in
            if ((lo <=? byteOf c1) && (byteOf c1 <=? hi))%Z
               && isContinuation (byteOf c2)
            then ((((b0 - 224) * 64 + (byteOf c1 - 128)) * 64
                   + (byteOf c2 - 128))%Z, 3%nat)
            else (RuneError, 1%nat)
        | _ => (RuneError, 1%nat)
        end
      else if ((240 <=? b0) && (b0 <=? 244))%Z then
        match rest with
        | c1 :: c2 :: c3 :: _ =>
            let lo := if (b0 =? 240)%Z then 144%Z else 128%Z in
            let hi := if (b0 =? 244)%Z then 143%Z else 191%Z in
            if ((lo <=? byteOf c1) && (byteOf c1 <=? hi))%Z
               && isContinuation (byteOf c2) && isContinuation (byteOf c3)
            then (((((b0 - 240) * 64 + (byteOf c1 - 128)) * 64
                    + (byteOf c2 - 128)) * 64 + (byteOf c3 - 128))%Z, 4%nat)
            else (RuneError, 1%nat)
        | _ => (RuneError, 1%nat)
        end
      else (RuneError, 1%nat)
  end.

(** The scan of [scanChunk] for the end of the chunk: the first [*] that
    is neither escaped nor inside a class. *)
Fixpoint scanChunkLoop (pattern : list ascii) (inrange : bool)
    : list ascii * list ascii :=
  match pattern with
  | [] => ([], [])
  | c :: rest =>
      if Ascii.eqb c "\" then
        match rest with
        | e :: rest' =>
            let '(chunk, r) := scanChunkLoop rest' inrange in
            (c :: e :: chunk, r)
        | [] => ([c], [])
        end
      else if Ascii.eqb c "[" then
        let '(chunk, r) := scanChunkLoop rest true in (c :: chunk, r)
      else if Ascii.eqb c "]" then
        let '(chunk, r) := scanChunkLoop rest false in (c :: chunk, r)
      else if Ascii.eqb c "*" && negb inrange then ([], pattern)
      else
        let '(chunk, r) := scanChunkLoop rest inrange in (c :: chunk, r)
  end.

(** The first loop of [scanChunk], over the leading stars. *)
Fixpoint skipStars (pattern : list ascii) (star : bool) : bool * list ascii :=
  match pattern with
  | c :: rest =>
      if Ascii.eqb c "*" then skipStars rest true else (star, pattern)
  | [] => (star, [])
  end.

(** [scanChunk]: the next segment of the pattern, a string without a star
    possibly preceded by stars, and the rest of the pattern. *)
Definition scanChunk (pattern : list ascii)
    : bool * list ascii * list ascii :=
  let '(star, pattern) := skipStars pattern false in
  let '(chunk, rest) := scanChunkLoop pattern false in
  (star, chunk, rest).

(** [getEsc]: one rune of a class, possibly escaped; [None] is
    [ErrBadPattern].  It fails on an empty chunk, on a leading [-] or [\]],
    on a trailing backslash, on a byte that starts no rune, and when nothing
    follows the rune. *)
Definition getEsc (chunk : list ascii) : option (Z * list ascii) :=
  match chunk with
  | [] => None
  | c :: rest =>
      if Ascii.eqb c "-" || Ascii.eqb c "]" then None
      else
        let chunk := if Ascii.eqb c "\" then rest else chunk in
        match chunk with
        | [] => None
        | _ :: _ =>
            let '(r, n) := DecodeRune chunk in
            let nchunk := skipn n chunk in
            if (r =? RuneError)%Z && (n =? 1)%nat then None
            else
              match nchunk with
              | [] => None
              | _ :: _ => Some (r, nchunk)
              end
        end
  end.

(** The loop of [matchChunk] over the ranges of a class, for the rune [r]
    of the name: it stops at a [\]] once a range has been read. *)
Fixpoint classLoop (fuel : nat) (chunk : list ascii) (r : Z) (nrange : nat)
    (matched : bool) : option (bool * list ascii) :=
  match fuel with
  | O => None
  | S fuel' =>
      let closes :=
        match chunk with
        | c :: _ => Ascii.eqb c "]" && (0 <? nrange)%nat
        | [] => false
        end in
      if closes then Some (matched, tl chunk)
      else
        match getEsc chunk with
        | None => None
        | Some (lo, chunk) =>
            let range :=
              match chunk with
              | c :: chunk' =>
                  if Ascii.eqb c "-" then getEsc chunk' else Some (lo, chunk)
              | [] => Some (lo, chunk)
              end in
            match range with
            | None => None
            | Some (hi, chunk) =>
                let matched :=
                  if ((lo <=? r) && (r <=? hi))%Z then true else matched in
                classLoop fuel' chunk r (S nrange) matched
            end
        end
  end.

(** The three results of [matchChunk]: [ErrBadPattern], no match, or the
    rest of the name after the match. *)
Inductive chunkResult : Type :=
| ChunkError
| ChunkFailed
| ChunkMatched (rest : list ascii).

(** The loop of [matchChunk]: once the match has failed, the chunk is read
    on for its syntax and the name is read no more. *)
Fixpoint matchChunkLoop (fuel : nat) (chunk s : list ascii) (failed : bool)
    : chunkResult :=
  match chunk with
  | [] => if failed then ChunkFailed else ChunkMatched s
  | c :: chunk1 =>
      match fuel with
      | O => ChunkError
      | S fuel' =>
          let failed :=
            failed || match s with [] => true | _ :: _ => false end in
          if Ascii.eqb c "[" then
            let '(r, s) :=
              if failed then (0%Z, s)
              else let '(r, n) := DecodeRune s in (r, skipn n s) in
            let '(negated, chunk2) :=
              match chunk1 with
              | n :: rest =>
                  if Ascii.eqb n "^" then (true, rest) else (false, chunk1)
              | [] => (false, chunk1)
              end in
            match classLoop (S (length chunk2)) chunk2 r 0 false with
            | None => ChunkError
            | Some (matched, chunk3) =>
                let failed := failed || Bool.eqb matched negated in
                matchChunkLoop fuel' chunk3 s failed
            end
          else if Ascii.eqb c "?" then
            let '(failed, s) :=
              if failed then (failed, s)
              else
                (match s with
                 | c0 :: _ => Ascii.eqb c0 Separator
                 | [] => false
                 end,
                 skipn (snd (DecodeRune s)) s) in
            matchChunkLoop fuel' chunk1 s failed
          else
            let literal :=
              if Ascii.eqb c "\" then
                match chunk1 with
                | [] => None
                | e :: chunk2 => Some (e, chunk2)
                end
              else Some (c, chunk1) in
            match literal with
            | None => ChunkError
            | Some (x, chunk2) =>
                let '(failed, s) :=
                  if failed then (failed, s)
                  else
                    match s with
                    | c0 :: s' => (negb (Ascii.eqb x c0), s')
                    | [] => (failed, s)
                    end in
                matchChunkLoop fuel' chunk2 s failed
            end
      end
  end.

Definition matchChunk (chunk s : list ascii) : chunkResult :=
  matchChunkLoop (length chunk) chunk s false.

Definition isEmpty (s : list ascii) : bool :=
  match s with [] => true | _ :: _ => false end.

(** The loop [for i := 0; i < len(name) && name[i] != Separator; i++] of
    [Match], which looks for a match of the chunk after skipping [i + 1]
    bytes and takes the first one; for the last chunk, the first one that
    uses up the name. *)
Fixpoint starLoop (chunk : list ascii) (lastChunk : bool) (name : list ascii)
    : chunkResult :=
  match name with
  | [] => ChunkFailed
  | c :: rest =>
      if Ascii.eqb c Separator then ChunkFailed
      else
        match matchChunk chunk rest with
        | ChunkMatched t =>
            if lastChunk && negb (isEmpty t) then starLoop chunk lastChunk rest
            else ChunkMatched t
        | ChunkError => ChunkError
        | ChunkFailed => starLoop chunk lastChunk rest
        end
  end.

(** The loop of [Match] over the chunks of the pattern, with the error
    result dropped: [false] where [Match] returns [ErrBadPattern].  A
    trailing star matches the rest of the name unless it has a separator;
    a chunk is matched at the current position or, after a star, at the
    first position that the star can reach. *)
Fixpoint MatchLoop (fuel : nat) (pattern name : list ascii) : bool :=
  match pattern with
  | [] => isEmpty name
  | _ :: _ =>
      match fuel with
      | O => false
      | S fuel' =>
          let '(star, chunk, pattern) := scanChunk pattern in
          if star && isEmpty chunk
          then negb (existsb (Ascii.eqb Separator) name)
          else
            let searched :=
              match matchChunk chunk name with
              | ChunkMatched t =>
                  if isEmpty t || negb (isEmpty pattern) then ChunkMatched t
                  else if star then starLoop chunk (isEmpty pattern) name
                  else ChunkFailed
              | ChunkError => ChunkError
              | ChunkFailed =>
                  if star then starLoop chunk (isEmpty pattern) name
                  else ChunkFailed
              end in
            match searched with
            | ChunkMatched t => MatchLoop fuel' pattern t
            | _ => false
            end
      end
  end.

(** [filepath.Match] with its error result dropped, as its two callers
    do: a pattern that [Match] finds malformed matches nothing. *)
Definition filepath_Match (pattern name : string) : bool :=
  let p := list_ascii_of_string pattern in
  MatchLoop (length p) p (list_ascii_of_string name).

Fixpoint dropSeparators (s : list ascii) : list ascii :=
  match s with
  | c :: s' => if Ascii.eqb c Separator then dropSeparators s' else s
  | [] => []
  end.

Fixpoint takeElement (s : list ascii) : list ascii :=
  match s with
  | c :: s' => if Ascii.eqb c Separator then [] else c :: takeElement s'
  | [] => []
  end.

(** [filepath.Base]: the last element of the path, after trailing
    separators are removed; ["."] for the empty path and ["/"] for a path of
    separators only. *)
Definition filepath_Base (path : string) : string :=
  match list_ascii_of_string path with
  | [] => "."
  | p =>
      match takeElement (dropSeparators (rev p)) with
      | [] => "/"
      | last => string_of_list_ascii (rev last)
      end
  end.

(** ** Snapshots and filters *)

(** [data.Snapshot], the record the repository stores.  Its [Time] is a
    [time.Time]: the instant [sn_Time], counted in nanoseconds, which
    [Before] and [After] compare, and the zone the time is shown in,
    [sn_Zone], the offset in seconds east of UTC, which [Format] prints.
    Ids are hexadecimal strings. *)
Record data_Snapshot := {
  sn_ID : string;
  sn_Time : Z;
  sn_Zone : Z;
  sn_Tree : string;
  sn_Paths : list string;
  sn_Hostname : string;
  sn_Username : string;
  sn_Tags : list string;
  sn_Parent : option string
}.

(** [Snapshot], the record the library returns ([Summary] is never set). *)
Record Snapshot := {
  ID : string;
  Time : string;
  Tree : string;
  Paths : list string;
  Hostname : string;
  Username : string;
  Tags : list string;
  Parent : option string
}.

Record SnapshotFilter := {
  sf_Hosts : list string;
  sf_Paths : list string;
  sf_Tags : list string;
  sf_Since : option string;
  sf_Until : option string;
  sf_Limit : Z
}.

(** The zero value [SnapshotFilter{}]. *)
Definition emptyFilter : SnapshotFilter :=
  {| sf_Hosts := []; sf_Paths := []; sf_Tags := [];
     sf_Since := None; sf_Until := None; sf_Limit := 0 |}.

(** [restic.ID.Str]: the first eight hexadecimal digits of an id. *)
Definition ID_Str (id : string) : string := substring 0 8 id.

(** [strings.Contains]. *)
Definition strings_Contains (s substr : string) : bool :=
  match index 0 substr s with
  | Some _ => true
  | None => false
  end.

(** ** The repository behind the facade

    [repositoryImpl] is described by what its collaborators answer:
    - [r.repo.List(ctx, restic.SnapshotFile, fn)] calls [fn] on the ids of
      [repo_SnapshotFiles] in order and then returns [repo_ListSnapshotsErr];
      the second component of an entry is what [data.LoadSnapshot] returns
      for the id ([None] for an error);
    - [r.repo.List(ctx, restic.PackFile, fn)] likewise with [repo_PackFiles]
      and [repo_ListPacksErr];
    - [r.repo.LoadIndex] returns [repo_LoadIndexErr];
    - [checker.LoadIndex] returns [(checker_hints, checker_errs)];
    - [checker.Packs] and [checker.ReadData] send the errors of
      [checker_Packs] and [checker_ReadData] and close their channel;
    - [r.repo.RemoveUnpacked] of a snapshot file fails on the ids for which
      [repo_RemoveErr] gives an error, and deletes the file otherwise.

    Calls to [r.logf] write to the logger only and are left out. *)
Record repositoryImpl := {
  repo_SnapshotFiles : list (string * option data_Snapshot);
  repo_ListSnapshotsErr : option error;
  repo_PackFiles : list string;
  repo_ListPacksErr : option error;
  repo_LoadIndexErr : option error;
  checker_hints : list error;
  checker_errs : list error;
  checker_Packs : list error;
  checker_ReadData : list error;
  repo_RemoveErr : string -> option error
}.

(** The callback shared by [Snapshots] and [Forget]: a snapshot that fails
    to load is skipped, the others are appended to [allSnapshots]. *)
Fixpoint loadAllSnapshots (files : list (string * option data_Snapshot))
    (allSnapshots : list data_Snapshot) : list data_Snapshot :=
  match files with
  | [] => allSnapshots
  | (_, None) :: rest => loadAllSnapshots rest allSnapshots
  | (_, Some sn) :: rest => loadAllSnapshots rest (allSnapshots ++ [sn])
  end.

Section SnapshotListing.

(** [time.Parse(time.RFC3339, s)]: [None] for an error. *)
Variable time_Parse : string -> option Z.
(** [t.Format(time.RFC3339)] of the instant [t] in the zone of the given
    offset. *)
Variable time_Format : Z -> Z -> string.
(** [sort.Slice] with the [less] function given on elements. *)
Variable sort_Slice :
  (data_Snapshot -> data_Snapshot -> bool) -> list data_Snapshot ->
  list data_Snapshot.

(** The host loop of [matchesFilter]. *)
Fixpoint hostsLoop (hostname : string) (hosts : list string) (found : bool)
    : bool :=
  match hosts with
  | [] => found
  | host :: rest =>
      if String.eqb hostname host then true else hostsLoop hostname rest found
  end.

(** The inner loop over the snapshot's paths. *)
Fixpoint snPathsLoop (filterPath : string) (snPaths : list string)
    (found : bool) : bool :=
  match snPaths with
  | [] => found
  | snPath :: rest =>
      if strings_Contains snPath filterPath then true
      else snPathsLoop filterPath rest found
  end.

(** The outer loop over the filter's paths. *)
Fixpoint pathsLoop (snPaths : list string) (filterPaths : list string)
    (found : bool) : bool :=
  match filterPaths with
  | [] => found
  | filterPath :: rest =>
      let found := snPathsLoop filterPath snPaths found in
      if found then found else pathsLoop snPaths rest found
  end.

(** The inner loop over the snapshot's tags. *)
Fixpoint snTagsLoop (filterTag : string) (snTags : list string) (found : bool)
    : bool :=
  match snTags with
  | [] => found
  | snTag :: rest =>
      if String.eqb snTag filterTag then true
      else snTagsLoop filterTag rest found
  end.

(** The outer loop over the filter's tags. *)
Fixpoint tagsLoop (snTags : list string) (filterTags : list string)
    (found : bool) : bool :=
  match filterTags with
  | [] => found
  | filterTag :: rest =>
      let found := snTagsLoop filterTag snTags found in
      if found then found else tagsLoop snTags rest found
  end.

(** The [Since] block: [Some false] is its [return false]. *)
Definition sinceCheck (sn : data_Snapshot) (filter : SnapshotFilter)
    : option bool :=
  match sf_Since filter with
  | Some s =>
      match time_Parse s with
      | Some since => if (sn_Time sn <? since)%Z then Some false else None
      | None => None
      end
  | None => None
  end.

(** The [Until] block. *)
Definition untilCheck (sn : data_Snapshot) (filter : SnapshotFilter)
    : option bool :=
  match sf_Until filter with
  | Some s =>
      match time_Parse s with
      | Some until => if (sn_Time sn >? until)%Z then Some false else None
      | None => None
      end
  | None => None
  end.

Definition matchesFilter (sn : data_Snapshot) (filter : SnapshotFilter)
    : bool :=
  if (0 <? length (sf_Hosts filter))%nat
     && negb (hostsLoop (sn_Hostname sn) (sf_Hosts filter) false)
  then false
  else if (0 <? length (sf_Paths filter))%nat
     && negb (pathsLoop (sn_Paths sn) (sf_Paths filter) false)
  then false
  else if (0 <? length (sf_Tags filter))%nat
     && negb (tagsLoop (sn_Tags sn) (sf_Tags filter) false)
  then false
  else
    match sinceCheck sn filter with
    | Some r => r
    | None =>
        match untilCheck sn filter with
        | Some r => r
        | None => true
        end
    end.

Definition convertSnapshot (sn : data_Snapshot) : Snapshot :=
  {| ID := ID_Str (sn_ID sn);
     Time := time_Format (sn_Time sn) (sn_Zone sn);
     Tree := ID_Str (sn_Tree sn);
     Paths := sn_Paths sn;
     Hostname := sn_Hostname sn;
     Username := sn_Username sn;
     Tags := sn_Tags sn;
     Parent := option_map ID_Str (sn_Parent sn) |}.

(** The [less] function given to [sort.Slice]:
    [filteredSnapshots[i].Time.After(filteredSnapshots[j].Time)]. *)
Definition newerFirst (x y : data_Snapshot) : bool :=
  (sn_Time x >? sn_Time y)%Z.

(** The filter loop of [Snapshots]. *)
Fixpoint filterLoop (filter : SnapshotFilter) (allSnapshots : list data_Snapshot)
    (filteredSnapshots : list data_Snapshot) : list data_Snapshot :=
  match allSnapshots with
  | [] => filteredSnapshots
  | sn :: rest =>
      if matchesFilter sn filter
      then filterLoop filter rest (filteredSnapshots ++ [sn])
      else filterLoop filter rest filteredSnapshots
  end.

(** The limit step: [filteredSnapshots[:filter.Limit]] when
    [filter.Limit > 0 && len(filteredSnapshots) > filter.Limit]. *)
Definition applyLimit (limit : Z) (filteredSnapshots : list data_Snapshot)
    : list data_Snapshot :=
  if ((0 <? limit) && (limit <? Z.of_nat (length filteredSnapshots)))%Z
  then firstn (Z.to_nat limit) filteredSnapshots
  else filteredSnapshots.

(** The snapshots of [Snapshots] before their conversion to library
    records. *)
Definition listedSnapshots (r : repositoryImpl) (filter : SnapshotFilter)
    : list data_Snapshot :=
  let allSnapshots := loadAllSnapshots (repo_SnapshotFiles r) [] in
  let filteredSnapshots := filterLoop filter allSnapshots [] in
  let filteredSnapshots := sort_Slice newerFirst filteredSnapshots in
  applyLimit (sf_Limit filter) filteredSnapshots.

(** [Snapshots]; the result is Go's pair of a slice and an error. *)
Definition Snapshots (r : repositoryImpl) (filter : SnapshotFilter)
    : list Snapshot * option error :=
  match repo_ListSnapshotsErr r with
  | Some err => ([], Some ("failed to list snapshots: " ++ err))
  | None => (map convertSnapshot (listedSnapshots r filter), None)
  end.

End SnapshotListing.

(** ** [sort.Slice]

    The pattern-defeating quicksort of Go's [sort] package
    ([pdqsort_func] and its helpers), on a slice held as a list.  [Less] and
    [Swap] are the two operations the sort performs on the slice. *)

Section GoSort.

Context {A : Type}.
Variable less : A -> A -> bool.

Definition Less (data : list A) (i j : nat) : bool :=
  match data !! i, data !! j with
  | Some x, Some y => less x y
  | _, _ => false
  end.

Definition Swap (data : list A) (i j : nat) : list A :=
  match data !! i, data !! j with
  | Some x, Some y => <[i:=y]> (<[j:=x]> data)
  | _, _ => data
  end.

(** [for j := i; j > a && Less(j, j-1); j-- { Swap(j, j-1) }] *)
Fixpoint insertDown (a j : nat) (data : list A) : list A :=
  match j with
  | O => data
  | S j' =>
      if (a <? j)%nat && Less data j j'
      then insertDown a j' (Swap data j j')
      else data
  end.

Definition insertionSort_func (data : list A) (a b : nat) : list A :=
  fold_left (fun d i => insertDown a i d) (seq (S a) (b - S a)) data.

Fixpoint siftDown_func (fuel : nat) (data : list A) (root hi first : nat)
    : list A :=
  match fuel with
  | O => data
  | S fuel' =>
      let child := (2 * root + 1)%nat in
      if (hi <=? child)%nat then data
      else
        let child :=
          if (child + 1 <? hi)%nat
             && Less data (first + child) (first + child + 1)
          then (child + 1)%nat else child in
        if negb (Less data (first + root) (first + child)) then data
        else siftDown_func fuel' (Swap data (first + root) (first + child))
               child hi first
  end.

Definition heapSort_func (data : list A) (a b : nat) : list A :=
  let first := a in
  let lo := 0%nat in
  let hi := (b - a)%nat in
  let data :=
    fold_left (fun d i => siftDown_func hi d i hi first)
      (rev (seq 0 (S ((hi - 1) / 2)))) data in
  fold_left (fun d i => siftDown_func hi (Swap d first (first + i)) lo i first)
    (rev (seq 0 hi)) data.

(** [xorshift.Next] on a 64-bit state:
    [r ^= r << 13; r ^= r >> 7; r ^= r << 17]. *)
Definition xorshift_Next (r : Z) : Z :=
  let r := Z.lxor r (Z.shiftl r 13 mod 2 ^ 64) in
  let r := Z.lxor r (Z.shiftr r 7) in
  Z.lxor r (Z.shiftl r 17 mod 2 ^ 64).

(** [bits.Len]. *)
Definition bits_Len (x : Z) : Z :=
  if (x <=? 0)%Z then 0%Z else (Z.log2 x + 1)%Z.

Definition nextPowerOfTwo (length : Z) : Z := Z.shiftl 1 (bits_Len length).

Definition breakPatterns_func (data : list A) (a b : nat) : list A :=
  let length := (b - a)%nat in
  if (8 <=? length)%nat then
    let modulus := nextPowerOfTwo (Z.of_nat length) in
    let idx := (a + (length / 4) * 2 - 1)%nat in
    let step (st : list A * Z) (i : nat) : list A * Z :=
      let random := xorshift_Next (snd st) in
      let other := Z.to_nat (Z.land random (modulus - 1)) in
      let other := if (length <=? other)%nat then (other - length)%nat
                   else other in
      (Swap (fst st) (idx - 1 + i) (a + other), random) in
    fst (fold_left step [0; 1; 2]%nat (data, Z.of_nat length))
  else data.

(** [order2_func]: the pair in order, and the number of swaps so far. *)
Definition order2_func (data : list A) (a b swaps : nat) : nat * nat * nat :=
  if Less data b a then (b, a, S swaps) else (a, b, swaps).

Definition median_func (data : list A) (a b c swaps : nat) : nat * nat :=
  let '(a, b, swaps) := order2_func data a b swaps in
  let '(b, c, swaps) := order2_func data b c swaps in
  let '(a, b, swaps) := order2_func data a b swaps in
  (b, swaps).

Definition medianAdjacent_func (data : list A) (a swaps : nat) : nat * nat :=
  median_func data (a - 1) a (a + 1) swaps.

Inductive sortedHint : Type :=
| unknownHint
| increasingHint
| decreasingHint.

Definition choosePivot_func (data : list A) (a b : nat) : nat * sortedHint :=
  let l := (b - a)%nat in
  let i := (a + l / 4 * 1)%nat in
  let j := (a + l / 4 * 2)%nat in
  let k := (a + l / 4 * 3)%nat in
  let '(j, swaps) :=
    if (8 <=? l)%nat then
      let '(i, j, k, swaps) :=
        if (50 <=? l)%nat then
          let '(i, swaps) := medianAdjacent_func data i 0 in
          let '(j, swaps) := medianAdjacent_func data j swaps in
          let '(k, swaps) := medianAdjacent_func data k swaps in
          (i, j, k, swaps)
        else (i, j, k, 0%nat) in
      median_func data i j k swaps
    else (j, 0%nat) in
  match swaps with
  | O => (j, increasingHint)
  | _ => if (swaps =? 12)%nat then (j, decreasingHint) else (j, unknownHint)
  end.

Definition reverseRange_func (data : list A) (a b : nat) : list A :=
  fold_left (fun d i => Swap d (a + i) (b - 1 - i)) (seq 0 ((b - a) / 2)) data.

(** [for i < b && !Less(i, i-1) { i++ }] *)
Fixpoint skipOrdered (fuel : nat) (data : list A) (i b : nat) : nat :=
  match fuel with
  | O => i
  | S fuel' =>
      if (i <? b)%nat && negb (Less data i (i - 1))
      then skipOrdered fuel' data (S i) b else i
  end.

(** [for j := i - 1; j >= 1; j-- { if !Less(j, j-1) { break }; Swap(j, j-1) }] *)
Fixpoint shiftLeft (j : nat) (data : list A) : list A :=
  match j with
  | O => data
  | S j' => if negb (Less data j j') then data else shiftLeft j' (Swap data j j')
  end.

(** [for j := i + 1; j < b; j++ { if !Less(j, j-1) { break }; Swap(j, j-1) }] *)
Fixpoint shiftRight (fuel : nat) (j b : nat) (data : list A) : list A :=
  match fuel with
  | O => data
  | S fuel' =>
      if (j <? b)%nat then
        if negb (Less data j (j - 1)) then data
        else shiftRight fuel' (S j) b (Swap data j (j - 1))
      else data
  end.

(** [partialInsertionSort_func]: the slice and whether it is sorted at the
    end. *)
Fixpoint partialInsertionSteps (steps : nat) (data : list A) (a b i : nat)
    : list A * bool :=
  match steps with
  | O => (data, false)
  | S steps' =>
      let i := skipOrdered (b - i) data i b in
      if (i =? b)%nat then (data, true)
      else if (b - a <? 50)%nat then (data, false)
      else
        let data := Swap data i (i - 1) in
        let data := if (2 <=? i - a)%nat then shiftLeft (i - 1) data else data in
        let data := if (2 <=? b - i)%nat then shiftRight b (i + 1) b data
                    else data in
        partialInsertionSteps steps' data a b i
  end.

Definition partialInsertionSort_func (data : list A) (a b : nat)
    : list A * bool :=
  partialInsertionSteps 5 data a b (a + 1).

(** The two scans of the partitioning loops, with [i] and [j] inclusive
    bounds of the part still to partition; [j] is kept as [S j]. *)
Fixpoint scanUp (fuel : nat) (p : nat -> bool) (i sj : nat) : nat :=
  match fuel with
  | O => i
  | S fuel' => if (i <? sj)%nat && p i then scanUp fuel' p (S i) sj else i
  end.

Fixpoint scanDown (p : nat -> bool) (i sj : nat) : nat :=
  match sj with
  | O => sj
  | S j => if (i <? sj)%nat && p j then scanDown p i j else sj
  end.

Fixpoint partitionEqualLoop (fuel : nat) (data : list A) (a i sj : nat)
    : list A * nat :=
  match fuel with
  | O => (data, i)
  | S fuel' =>
      let i := scanUp (sj - i) (fun i => negb (Less data a i)) i sj in
      let sj := scanDown (fun j => Less data a j) i sj in
      if (sj <=? i)%nat then (data, i)
      else partitionEqualLoop fuel' (Swap data i (sj - 1)) a (S i) (sj - 1)
  end.

Definition partitionEqual_func (data : list A) (a b pivot : nat)
    : list A * nat :=
  let data := Swap data a pivot in
  partitionEqualLoop (b - a) data a (a + 1) b.

Fixpoint partitionLoop (fuel : nat) (data : list A) (a i sj : nat)
    : list A * nat :=
  match fuel with
  | O => (data, sj)
  | S fuel' =>
      let i := scanUp (sj - i) (fun i => Less data i a) i sj in
      let sj := scanDown (fun j => negb (Less data j a)) i sj in
      if (sj <=? i)%nat then (data, sj)
      else partitionLoop fuel' (Swap data i (sj - 1)) a (S i) (sj - 1)
  end.

(** [partition_func]: the slice, the new index of the pivot and whether the
    slice was already partitioned. *)
Definition partition_func (data : list A) (a b pivot : nat)
    : list A * nat * bool :=
  let data := Swap data a pivot in
  let i := scanUp (b - (a + 1)) (fun i => Less data i a) (a + 1) b in
  let sj := scanDown (fun j => negb (Less data j a)) i b in
  if (sj <=? i)%nat then (Swap data (sj - 1) a, (sj - 1)%nat, true)
  else
    let data := Swap data i (sj - 1) in
    let '(data, sj) := partitionLoop (b - a) data a (S i) (sj - 1) in
    (Swap data (sj - 1) a, (sj - 1)%nat, false).

(** [pdqsort_func]; every turn of its loop and every recursive call takes
    one unit of [fuel], and [b - a + 1] units are enough. *)
Fixpoint pdqsort_func (fuel : nat) (data : list A) (a b limit : nat)
    (wasBalanced wasPartitioned : bool) : list A :=
  match fuel with
  | O => data
  | S fuel' =>
      let length := (b - a)%nat in
      if (length <=? 12)%nat then insertionSort_func data a b
      else if (limit =? 0)%nat then heapSort_func data a b
      else
        let '(data, limit) :=
          if negb wasBalanced then (breakPatterns_func data a b, (limit - 1)%nat)
          else (data, limit) in
        let '(pivot, hint) := choosePivot_func data a b in
        let '(data, pivot, hint) :=
          match hint with
          | decreasingHint =>
              (reverseRange_func data a b, (b - 1 - (pivot - a))%nat,
               increasingHint)
          | _ => (data, pivot, hint)
          end in
        let '(data, done) :=
          match wasBalanced && wasPartitioned, hint with
          | true, increasingHint => partialInsertionSort_func data a b
          | _, _ => (data, false)
          end in
        if done then data
        else if (0 <? a)%nat && negb (Less data (a - 1) pivot) then
          let '(data, mid) := partitionEqual_func data a b pivot in
          pdqsort_func fuel' data mid b limit wasBalanced wasPartitioned
        else
          let '(data, mid, alreadyPartitioned) :=
            partition_func data a b pivot in
          let wasPartitioned := alreadyPartitioned in
          let leftLen := (mid - a)%nat in
          let rightLen := (b - mid)%nat in
          let balanceThreshold := (length / 8)%nat in
          if (leftLen <? rightLen)%nat then
            let wasBalanced := (balanceThreshold <=? leftLen)%nat in
            let data := pdqsort_func fuel' data a mid limit true true in
            pdqsort_func fuel' data (mid + 1) b limit wasBalanced wasPartitioned
          else
            let wasBalanced := (balanceThreshold <=? rightLen)%nat in
            let data := pdqsort_func fuel' data (mid + 1) b limit true true in
            pdqsort_func fuel' data a mid limit wasBalanced wasPartitioned
  end.

(** [sort.Slice(x, less)]. *)
Definition go_sort_Slice (x : list A) : list A :=
  let length := List.length x in
  let limit := Z.to_nat (bits_Len (Z.of_nat length)) in
  pdqsort_func (S length) x 0 length limit true true.

End GoSort.

(** ** Retention: [Forget] *)

Record ForgetPolicy := {
  KeepLast : Z;
  KeepHourly : Z;
  KeepDaily : Z;
  KeepWeekly : Z;
  KeepMonthly : Z;
  KeepYearly : Z;
  KeepWithin : option string;
  KeepTags : list string
}.

(** [ForgetPolicy.Empty]. *)
Definition Empty (p : ForgetPolicy) : bool :=
  (KeepLast p =? 0)%Z && (KeepHourly p =? 0)%Z && (KeepDaily p =? 0)%Z &&
  (KeepWeekly p =? 0)%Z && (KeepMonthly p =? 0)%Z && (KeepYearly p =? 0)%Z &&
  match KeepWithin p with None => true | Some _ => false end &&
  (length (KeepTags p) =? 0)%nat.

(** [strconv.Quote], which [%q] prints: the string in double quotes, with a
    backslash before a double quote and a backslash, the escapes of Go for
    the control characters, and [\x] with two hexadecimal digits for the
    other control characters and for a byte that starts no rune.  A rune
    beyond ASCII is taken to be printable and is left as it is. *)
Definition lowerhex (n : Z) : ascii :=
  if (n <? 10)%Z then ascii_of_nat (48 + Z.to_nat n)
  else ascii_of_nat (87 + Z.to_nat n).

Definition hexEscape (b : Z) : list ascii :=
  ["\"; "x"; lowerhex (b / 16); lowerhex (b mod 16)]%char.

Fixpoint quoteLoop (fuel : nat) (s : list ascii) : list ascii :=
  match fuel, s with
  | S fuel', c :: rest =>
      let b := byteOf c in
      let '(r, width) := if (b <? 128)%Z then (b, 1%nat) else DecodeRune s in
      if (width =? 1)%nat && (r =? RuneError)%Z
      then (hexEscape b ++ quoteLoop fuel' rest)%list
      else if ((r =? 34) || (r =? 92))%Z
      then "\"%char :: c :: quoteLoop fuel' rest
      else if ((32 <=? r) && (r <=? 126))%Z then c :: quoteLoop fuel' rest
      else if (128 <=? r)%Z
      then (firstn width s ++ quoteLoop fuel' (skipn width s))%list
      else
        let escape :=
          if (r =? 7)%Z then ["\"; "a"]%char
          else if (r =? 8)%Z then ["\"; "b"]%char
          else if (r =? 12)%Z then ["\"; "f"]%char
          else if (r =? 10)%Z then ["\"; "n"]%char
          else if (r =? 13)%Z then ["\"; "r"]%char
          else if (r =? 9)%Z then ["\"; "t"]%char
          else if (r =? 11)%Z then ["\"; "v"]%char
          else hexEscape b in
        (escape ++ quoteLoop fuel' rest)%list
  | _, _ => []
  end.

Definition quoted (s : string) : string :=
  let bytes := list_ascii_of_string s in
  string_of_list_ascii
    (ascii_of_nat 34 :: quoteLoop (length bytes) bytes ++ [ascii_of_nat 34]).

(** The file of a removed snapshot is gone from later listings. *)
Definition removeSnapshotFile (r : repositoryImpl) (id : string)
    : repositoryImpl :=
  {| repo_SnapshotFiles :=
       List.filter (fun f => negb (String.eqb (fst f) id)) (repo_SnapshotFiles r);
     repo_ListSnapshotsErr := repo_ListSnapshotsErr r;
     repo_PackFiles := repo_PackFiles r;
     repo_ListPacksErr := repo_ListPacksErr r;
     repo_LoadIndexErr := repo_LoadIndexErr r;
     checker_hints := checker_hints r;
     checker_errs := checker_errs r;
     checker_Packs := checker_Packs r;
     checker_ReadData := checker_ReadData r;
     repo_RemoveErr := repo_RemoveErr r |}.

(** The removal loop of [Forget]: a failed removal is logged and skipped. *)
Fixpoint removeLoop (remove : list data_Snapshot) (r : repositoryImpl)
    (removedIDs : list string) : repositoryImpl * list string :=
  match remove with
  | [] => (r, removedIDs)
  | sn :: rest =>
      match repo_RemoveErr r (sn_ID sn) with
      | Some _ => removeLoop rest r removedIDs
      | None =>
          removeLoop rest (removeSnapshotFile r (sn_ID sn))
            (removedIDs ++ [sn_ID sn])
      end
  end.

Section Retention.

(** [data.Duration] with its zero value, and [data.ParseDuration]. *)
Variable Duration : Type.
Variable zeroDuration : Duration.
Variable data_ParseDuration : string -> Duration + error.

(** [data.ExpirePolicy]. *)
Record data_ExpirePolicy := {
  ep_Last : Z;
  ep_Hourly : Z;
  ep_Daily : Z;
  ep_Weekly : Z;
  ep_Monthly : Z;
  ep_Yearly : Z;
  ep_Within : Duration;
  ep_Tags : list (list string)
}.

(** [data.GroupSnapshots(allSnapshots, {Host: true, Path: true})]: the groups
    in the order in which the loop of [Forget] ranges over the returned map,
    and the error. *)
Variable data_GroupSnapshots :
  list data_Snapshot -> list (list data_Snapshot) * option error.

(** [data.ApplyPolicy(group, policy)]: the snapshots to keep and the
    snapshots to remove. *)
Variable data_ApplyPolicy :
  list data_Snapshot -> data_ExpirePolicy ->
  list data_Snapshot * list data_Snapshot.

(** The conversion of the policy at the head of the loop body; the right
    summand is the error [Forget] returns for a [KeepWithin] that does not
    parse. *)
Definition internalPolicy (policy : ForgetPolicy) : data_ExpirePolicy + error :=
  let tags :=
    if (0 <? length (KeepTags policy))%nat then [KeepTags policy] else [] in
  let mk within :=
    {| ep_Last := KeepLast policy;
       ep_Hourly := KeepHourly policy;
       ep_Daily := KeepDaily policy;
       ep_Weekly := KeepWeekly policy;
       ep_Monthly := KeepMonthly policy;
       ep_Yearly := KeepYearly policy;
       ep_Within := within;
       ep_Tags := tags |} in
  match KeepWithin policy with
  | None => inl (mk zeroDuration)
  | Some s =>
      match data_ParseDuration s with
      | inl within => inl (mk within)
      | inr err =>
          inr ("invalid keep-within duration " ++ quoted s ++ ": " ++ err)
      end
  end.

(** The loop of [Forget] over the groups.  The result is the repository
    after the removals, the ids removed and the error. *)
Fixpoint forgetGroups (policy : ForgetPolicy) (groups : list (list data_Snapshot))
    (r : repositoryImpl) (removedIDs : list string)
    : repositoryImpl * (list string * option error) :=
  match groups with
  | [] => (r, (removedIDs, None))
  | group :: rest =>
      match internalPolicy policy with
      | inr err => (r, ([], Some err))
      | inl p =>
          let '(keep, remove) := data_ApplyPolicy group p in
          if (length keep =? 0)%nat && (0 <? length remove)%nat
          then forgetGroups policy rest r removedIDs
          else
            let '(r, removedIDs) := removeLoop remove r removedIDs in
            forgetGroups policy rest r removedIDs
      end
  end.

Definition Forget (r : repositoryImpl) (policy : ForgetPolicy)
    : repositoryImpl * (list string * option error) :=
  if Empty policy then (r, ([], Some "forget policy is empty"))
  else
    match repo_ListSnapshotsErr r with
    | Some err => (r, ([], Some ("failed to list snapshots: " ++ err)))
    | None =>
        let allSnapshots := loadAllSnapshots (repo_SnapshotFiles r) [] in
        match data_GroupSnapshots allSnapshots with
        | (_, Some err) => (r, ([], Some ("failed to group snapshots: " ++ err)))
        | (groups, None) => forgetGroups policy groups r []
        end
    end.

End Retention.

Arguments ep_Last {Duration}.
Arguments ep_Tags {Duration}.
Arguments ep_Within {Duration}.

(** ** [Prune] *)

Record PruneOptions := {
  po_DryRun : bool;
  po_MaxUnused : string;
  po_MaxRepackSize : string
}.

Record PruneReport := {
  PacksDeleted : Z;
  PacksKept : Z;
  PacksRepacked : Z;
  BytesDeleted : Z;
  BytesRepacked : Z
}.

(** The zero value [PruneReport{}]. *)
Definition PruneReport_zero : PruneReport :=
  {| PacksDeleted := 0; PacksKept := 0; PacksRepacked := 0;
     BytesDeleted := 0; BytesRepacked := 0 |}.

(** The callback of [performPrune]: [packCount++; report.PacksKept++]. *)
Fixpoint countPacks (packs : list string) (packCount : Z) (report : PruneReport)
    : Z * PruneReport :=
  match packs with
  | [] => (packCount, report)
  | _ :: rest =>
      countPacks rest (packCount + 1)%Z
        {| PacksDeleted := PacksDeleted report;
           PacksKept := (PacksKept report + 1)%Z;
           PacksRepacked := PacksRepacked report;
           BytesDeleted := BytesDeleted report;
           BytesRepacked := BytesRepacked report |}
  end.

Definition performPrune (r : repositoryImpl) (opts : PruneOptions)
    : PruneReport * option error :=
  let report :=
    {| PacksDeleted := 0; PacksKept := 0; PacksRepacked := 0;
       BytesDeleted := 0; BytesRepacked := 0 |} in
  let '(packCount, report) := countPacks (repo_PackFiles r) 0 report in
  match repo_ListPacksErr r with
  | Some err => (report, Some err)
  | None => (report, None)
  end.

(** [Prune]: the repository is returned with the report; the function calls
    [LoadIndex] and [List] only. *)
Definition Prune (r : repositoryImpl) (opts : PruneOptions)
    : repositoryImpl * (PruneReport * option error) :=
  match repo_LoadIndexErr r with
  | Some err => (r, (PruneReport_zero, Some ("failed to load index: " ++ err)))
  | None =>
      match performPrune r opts with
      | (_, Some err) => (r, (PruneReport_zero, Some ("prune failed: " ++ err)))
      | (stats, None) => (r, (stats, None))
      end
  end.

(** ** [Check] *)

Definition CheckDepthDefault : string := "default".
Definition CheckDepthFull : string := "full".
Definition CheckDepthReadData : string := "read_data".

Record CheckReport := {
  Errors : list string;
  Warnings : list string;
  Success : bool
}.

(** [for _, hint := range hints]. *)
Fixpoint hintsLoop (hints : list error) (report : CheckReport) : CheckReport :=
  match hints with
  | [] => report
  | hint :: rest =>
      hintsLoop rest
        {| Errors := Errors report;
           Warnings := Warnings report ++ [hint];
           Success := Success report |}
  end.

(** [for _, err := range errs]. *)
Fixpoint errsLoop (errs : list error) (report : CheckReport) : CheckReport :=
  match errs with
  | [] => report
  | err :: rest =>
      errsLoop rest
        {| Errors := Errors report ++ [err];
           Warnings := Warnings report;
           Success := false |}
  end.

(** [for err := range errChan]: the loop receives what the checker sent
    until the channel is closed; [prefix] is ["pack error: "] or
    ["data error: "].  The second component counts the errors. *)
Fixpoint drainLoop (prefix : string) (sent : list error) (report : CheckReport)
    (count : Z) : CheckReport * Z :=
  match sent with
  | [] => (report, count)
  | err :: rest =>
      drainLoop prefix rest
        {| Errors := Errors report ++ [prefix ++ err];
           Warnings := Warnings report;
           Success := false |}
        (count + 1)%Z
  end.

Definition Check (r : repositoryImpl) (depth : string)
    : CheckReport * option error :=
  let report := {| Errors := []; Warnings := []; Success := true |} in
  match repo_LoadIndexErr r with
  | Some err =>
      ({| Errors := Errors report ++ ["failed to load index: " ++ err];
          Warnings := Warnings report;
          Success := false |}, Some err)
  | None =>
      let report := hintsLoop (checker_hints r) report in
      let report := errsLoop (checker_errs r) report in
      if (0 <? length (checker_errs r))%nat
      then (report, Some "index check failed")
      else
        let '(report, packErrors) :=
          drainLoop "pack error: " (checker_Packs r) report 0 in
        let report :=
          if String.eqb depth CheckDepthReadData
          then fst (drainLoop "data error: " (checker_ReadData r) report 0)
          else report in
        (report, None)
  end.

(** ** The C bridge *)

Record Credentials := {
  AccessKey : string;
  SecretKey : string
}.

Record Config := {
  RepoURL : string;
  Backend : string;
  cfg_Credentials : option Credentials;
  Password : string;
  Parallelism : Z
}.

(** The two package variables of the bridge:
    [var repositories = make(map[ResticRepo]resticlib.Repository)] and
    [var nextRepoID ResticRepo = 1]. *)
Record Bridge := {
  repositories : gmap Z repositoryImpl;
  nextRepoID : Z
}.

Definition Bridge_init : Bridge :=
  {| repositories := ∅; nextRepoID := 1 |}.

(** What [restic_list_snapshots] writes through its four output pointers;
    [None] for a pointer it does not write. *)
Record ListOutputs := {
  ids_out : option (list string);
  times_out : option (list string);
  hostnames_out : option (list string);
  count_out : option Z
}.

Section CBridge.

(** The part of [Init] and of [Open] after the password check:
    the backend is created or opened, [repository.New] is called and the
    repository is initialised or its key searched; [None] for an error. *)
Variable createRepository : Config -> option repositoryImpl.
Variable openRepository : Config -> option repositoryImpl.

(** [repo.Backup] and [repo.Restore], the two methods of the [Repository]
    interface that run the archiver and the restorer; they return the
    repository as they leave it, and Go's results. *)
Variable Backup :
  repositoryImpl -> BackupOptions -> repositoryImpl * (string * option error).
Variable Restore :
  repositoryImpl -> string -> RestoreOptions -> repositoryImpl * option error.

Variable time_Parse : string -> option Z.
Variable time_Format : Z -> Z -> string.
Variable sort_Slice :
  (data_Snapshot -> data_Snapshot -> bool) -> list data_Snapshot ->
  list data_Snapshot.

(** [resticlib.Init]: [None] for an error. *)
Definition Init (cfg : Config) : option repositoryImpl :=
  if (String.length (Password cfg) =? 0)%nat then None
  else createRepository cfg.

(** [resticlib.Open]. *)
Definition Open (cfg : Config) : option repositoryImpl :=
  if (String.length (Password cfg) =? 0)%nat then None
  else openRepository cfg.

(** The configuration both entry points build; a C string is [None] when
    the pointer is [nil]. *)
Definition makeConfig (repo_url backend password : string)
    (access_key secret_key : option string) (parallelism : Z) : Config :=
  {| RepoURL := repo_url;
     Backend := backend;
     cfg_Credentials :=
       match access_key, secret_key with
       | Some a, Some s => Some {| AccessKey := a; SecretKey := s |}
       | _, _ => None
       end;
     Password := password;
     Parallelism := parallelism |}.

(** [repoID := nextRepoID; nextRepoID++; repositories[repoID] = repo;
    return C.int(repoID)]. *)
Definition register (st : Bridge) (repo : repositoryImpl) : Bridge * Z :=
  let repoID := nextRepoID st in
  ({| repositories := <[repoID := repo]> (repositories st);
      nextRepoID := ResticRepo (repoID + 1) |},
   C_int repoID).

Definition restic_init (st : Bridge) (repo_url backend password : option string)
    (access_key secret_key : option string) (parallelism : Z) : Bridge * Z :=
  match repo_url, backend, password with
  | Some u, Some b, Some p =>
      match Init (makeConfig u b p access_key secret_key parallelism) with
      | None => (st, RESTIC_ERROR_REPO_NOT_FOUND)
      | Some repo => register st repo
      end
  | _, _, _ => (st, RESTIC_ERROR_INVALID_PARAMS)
  end.

Definition restic_open (st : Bridge) (repo_url backend password : option string)
    (access_key secret_key : option string) (parallelism : Z) : Bridge * Z :=
  match repo_url, backend, password with
  | Some u, Some b, Some p =>
      match Open (makeConfig u b p access_key secret_key parallelism) with
      | None => (st, RESTIC_ERROR_INVALID_PASSWORD)
      | Some repo => register st repo
      end
  | _, _, _ => (st, RESTIC_ERROR_INVALID_PARAMS)
  end.

(** A method that changes the repository changes the object the table
    points to. *)
Definition store (st : Bridge) (key : Z) (repo : repositoryImpl) : Bridge :=
  {| repositories := <[key := repo]> (repositories st);
     nextRepoID := nextRepoID st |}.

(** [restic_backup]; a C array is the list of its strings, [None] for a
    [nil] pointer, read up to the count given with it.  The last component
    is the string written to [snapshot_id_out].  The reading of the arrays
    from the memory of C, with the counts beyond which it panics, is in
    [restic_backup_alloc] below. *)
Definition restic_backup (st : Bridge) (repo_id : Z)
    (paths : option (list string)) (paths_count : Z)
    (tags : option (list string)) (tags_count : Z)
    : Bridge * (Z * option string) :=
  match repositories st !! ResticRepo repo_id with
  | None => (st, (RESTIC_ERROR_INVALID_PARAMS, None))
  | Some repo =>
      match paths with
      | None => (st, (RESTIC_ERROR_INVALID_PARAMS, None))
      | Some cPaths =>
          if (paths_count <=? 0)%Z
          then (st, (RESTIC_ERROR_INVALID_PARAMS, None))
          else
            let pathSlice := firstn (Z.to_nat paths_count) cPaths in
            let tagSlice :=
              match tags with
              | Some cTags =>
                  if (0 <? tags_count)%Z
                  then firstn (Z.to_nat tags_count) cTags else []
              | None => []
              end in
            let backupOpts :=
              {| bo_Paths := pathSlice; bo_Tags := tagSlice;
                 bo_Excludes := []; bo_Includes := [];
                 bo_ParentID := None; bo_DryRun := false |} in
            let '(repo, (snapshotID, err)) := Backup repo backupOpts in
            let st := store st (ResticRepo repo_id) repo in
            match err with
            | Some _ => (st, (RESTIC_ERROR_BACKUP_FAILED, None))
            | None => (st, (RESTIC_OK, Some snapshotID))
            end
      end
  end.

Definition restic_restore (st : Bridge) (repo_id : Z)
    (snapshot_id target_dir : option string) : Bridge * Z :=
  match repositories st !! ResticRepo repo_id with
  | None => (st, RESTIC_ERROR_INVALID_PARAMS)
  | Some repo =>
      match snapshot_id, target_dir with
      | Some id, Some dir =>
          let restoreOpts :=
            {| ro_TargetDir := dir; ro_Includes := []; ro_Excludes := [];
               ro_Overwrite := true; ro_Delete := false; ro_DryRun := false |} in
          let '(repo, err) := Restore repo id restoreOpts in
          let st := store st (ResticRepo repo_id) repo in
          match err with
          | Some _ => (st, RESTIC_ERROR_RESTORE_FAILED)
          | None => (st, RESTIC_OK)
          end
      | _, _ => (st, RESTIC_ERROR_INVALID_PARAMS)
      end
  end.

Definition noOutputs : ListOutputs :=
  {| ids_out := None; times_out := None; hostnames_out := None;
     count_out := None |}.

(** [restic_list_snapshots] with the strings it hands out; the arrays it
    allocates for them in the memory of C, with the number of snapshots
    beyond which it panics, are in [restic_list_snapshots_alloc] below. *)
Definition restic_list_snapshots (st : Bridge) (repo_id : Z)
    : Bridge * (Z * ListOutputs) :=
  match repositories st !! ResticRepo repo_id with
  | None => (st, (RESTIC_ERROR_INVALID_PARAMS, noOutputs))
  | Some repo =>
      match Snapshots time_Parse time_Format sort_Slice repo emptyFilter with
      | (_, Some _) => (st, (RESTIC_ERROR_UNKNOWN, noOutputs))
      | (snapshots, None) =>
          if (length snapshots =? 0)%nat then
            (st, (RESTIC_OK,
                  {| ids_out := None; times_out := None;
                     hostnames_out := None; count_out := Some 0%Z |}))
          else
            let count := length snapshots in
            (st, (RESTIC_OK,
                  {| ids_out := Some (map ID snapshots);
                     times_out := Some (map Time snapshots);
                     hostnames_out := Some (map Hostname snapshots);
                     count_out := Some (C_int (Z.of_nat count)) |}))
      end
  end.

(** [restic_check]; the last component is the value written to
    [errors_out]. *)
Definition restic_check (st : Bridge) (repo_id : Z) : Bridge * (Z * option Z) :=
  match repositories st !! ResticRepo repo_id with
  | None => (st, (RESTIC_ERROR_INVALID_PARAMS, None))
  | Some repo =>
      match Check repo CheckDepthDefault with
      | (_, Some _) => (st, (RESTIC_ERROR_UNKNOWN, None))
      | (report, None) =>
          (st, (RESTIC_OK, Some (C_int (Z.of_nat (length (Errors report))))))
      end
  end.

(** [restic_close]: [repo.Close()] releases the repository, then the entry
    is deleted. *)
Definition restic_close (st : Bridge) (repo_id : Z) : Bridge * Z :=
  match repositories st !! ResticRepo repo_id with
  | None => (st, RESTIC_ERROR_INVALID_PARAMS)
  | Some repo =>
      ({| repositories := delete (ResticRepo repo_id) (repositories st);
          nextRepoID := nextRepoID st |}, RESTIC_OK)
  end.

(** *** Runs of the bridge *)

(** A call of an entry point with its arguments. *)
Inductive Call : Type :=
| call_init (repo_url backend password access_key secret_key : option string)
    (parallelism : Z)
| call_open (repo_url backend password access_key secret_key : option string)
    (parallelism : Z)
| call_backup (repo_id : Z) (paths : option (list string)) (paths_count : Z)
    (tags : option (list string)) (tags_count : Z)
| call_restore (repo_id : Z) (snapshot_id target_dir : option string)
| call_list_snapshots (repo_id : Z)
| call_check (repo_id : Z)
| call_close (repo_id : Z).

(** The state after a call and the [C.int] it returns. *)
Definition step (st : Bridge) (c : Call) : Bridge * Z :=
  match c with
  | call_init u b p a s n => restic_init st u b p a s n
  | call_open u b p a s n => restic_open st u b p a s n
  | call_backup h ps pc ts tc =>
      let '(st, (code, _)) := restic_backup st h ps pc ts tc in (st, code)
  | call_restore h id dir => restic_restore st h id dir
  | call_list_snapshots h =>
      let '(st, (code, _)) := restic_list_snapshots st h in (st, code)
  | call_check h =>
      let '(st, (code, _)) := restic_check st h in (st, code)
  | call_close h => restic_close st h
  end.

(** What a call means for the life of handles: a create operation that
    registers a repository issues the value it returns, and a close that
    returns [RESTIC_OK] destroys its handle. *)
Inductive Event : Type :=
| Issued (h : Z)
| Destroyed (h : Z)
| NoEvent.

Definition event (st : Bridge) (c : Call) : Event :=
  let '(st', code) := step st c in
  match c with
  | call_init _ _ _ _ _ _ | call_open _ _ _ _ _ _ =>
      if (nextRepoID st' =? nextRepoID st)%Z then NoEvent else Issued code
  | call_close h =>
      if (code =? RESTIC_OK)%Z then Destroyed h else NoEvent
  | _ => NoEvent
  end.

(** A run of calls: the final state and the events in order. *)
Fixpoint run (st : Bridge) (calls : list Call) : Bridge * list Event :=
  match calls with
  | [] => (st, [])
  | c :: rest =>
      let '(st', events) := run (fst (step st c)) rest in
      (st', event st c :: events)
  end.

(** The handles issued during a run, in order. *)
Fixpoint issued (events : list Event) : list Z :=
  match events with
  | [] => []
  | Issued h :: rest => h :: issued rest
  | _ :: rest => issued rest
  end.

(** No create operation has returned [h]. *)
Definition never_issued (h : Z) (events : list Event) : Prop :=
  ~ In (Issued h) events.

(** [h] was destroyed and has not been issued since. *)
Definition already_destroyed (h : Z) (events : list Event) : Prop :=
  exists before after,
    events = (before ++ Destroyed h :: after)%list /\ ~ In (Issued h) after.

End CBridge.

(** ** What the specification asks of the listing

    The listing of the specification: the matching snapshots in a stable
    order by time, newest first, cut to [Limit] snapshots when [Limit > 0].
    The stable sort is written as an insertion sort: a snapshot, which was
    listed before the snapshots already sorted, goes in front of the first
    one that is not newer. *)

Fixpoint insertNewestFirst (sn : data_Snapshot) (sorted : list data_Snapshot)
    : list data_Snapshot :=
  match sorted with
  | [] => [sn]
  | x :: rest =>
      if (sn_Time sn >=? sn_Time x)%Z then sn :: sorted
      else x :: insertNewestFirst sn rest
  end.

Fixpoint stableNewestFirst (l : list data_Snapshot) : list data_Snapshot :=
  match l with
  | [] => []
  | sn :: rest => insertNewestFirst sn (stableNewestFirst rest)
  end.

(** ** The contract of [sort.Slice]

    [sort.Slice] asks of [less] that it describe a transitive ordering:
    [less x y] says that [x] must sort before [y], so that no element is
    less than itself; if [less x y] and [less y z] then [less x z]; and if
    neither [less x y] nor [less y z] then not [less x z]. *)
Definition transitiveOrdering {A : Type} (less : A -> A -> bool) : Prop :=
  (forall x, less x x = false)
  /\ (forall x y z, less x y = true -> less y z = true -> less x z = true)
  /\ (forall x y z, less x y = false -> less y z = false -> less x z = false).

(** A slice as a sort by [less] leaves it: no element stands before one
    that must sort before it. *)
Definition sortedBy {A : Type} (less : A -> A -> bool) (l : list A) : Prop :=
  StronglySorted (fun x y => less y x = false) l.

(** A [sort.Slice] that happens to be stable: an insertion sort by [less],
    in which an element goes in front of the first of the elements sorted
    so far, all listed after it, that does not have to sort before it. *)
Fixpoint insertBy (less : data_Snapshot -> data_Snapshot -> bool)
    (sn : data_Snapshot) (sorted : list data_Snapshot) : list data_Snapshot :=
  match sorted with
  | [] => [sn]
  | x :: rest =>
      if less x sn then x :: insertBy less sn rest else sn :: sorted
  end.

Fixpoint stable_sort_Slice (less : data_Snapshot -> data_Snapshot -> bool)
    (l : list data_Snapshot) : list data_Snapshot :=
  match l with
  | [] => []
  | sn :: rest => insertBy less sn (stable_sort_Slice less rest)
  end.

(** The snapshots of a repository that load, in listing order. *)
Definition loadedSnapshots (r : repositoryImpl) : list data_Snapshot :=
  omap snd (repo_SnapshotFiles r).

Definition spec_listedSnapshots (time_Parse : string -> option Z)
    (r : repositoryImpl) (filter : SnapshotFilter) : list data_Snapshot :=
  let matching :=
    List.filter (fun sn => matchesFilter time_Parse sn filter)
      (loadedSnapshots r) in
  let sorted := stableNewestFirst matching in
  if (0 <? sf_Limit filter)%Z
  then firstn (Z.to_nat (sf_Limit filter)) sorted
  else sorted.

(** The order of times a listing is to have: no snapshot before a newer
    one. *)
Definition notOlder (x y : data_Snapshot) : Prop :=
  (sn_Time y <= sn_Time x)%Z.

(** A filter with its [Since] or [Until] replaced. *)
Definition withSince (filter : SnapshotFilter) (since : option string)
    : SnapshotFilter :=
  {| sf_Hosts := sf_Hosts filter; sf_Paths := sf_Paths filter;
     sf_Tags := sf_Tags filter; sf_Since := since;
     sf_Until := sf_Until filter; sf_Limit := sf_Limit filter |}.

Definition withUntil (filter : SnapshotFilter) (until : option string)
    : SnapshotFilter :=
  {| sf_Hosts := sf_Hosts filter; sf_Paths := sf_Paths filter;
     sf_Tags := sf_Tags filter; sf_Since := sf_Since filter;
     sf_Until := until; sf_Limit := sf_Limit filter |}.

(** ** Timestamps

    An instance of [time.Parse] for the layout [YYYY-MM-DDTHH:MM:SSZ], the
    form of RFC 3339 in UTC with whole seconds, and an instance of [Format]
    for the layout of RFC 3339. *)

Definition digitValue (c : ascii) : option Z :=
  let n := nat_of_ascii c in
  if ((48 <=? n) && (n <=? 57))%nat then Some (Z.of_nat (n - 48)) else None.

Fixpoint digitsValue (cs : list ascii) (acc : Z) : option Z :=
  match cs with
  | [] => Some acc
  | c :: rest =>
      match digitValue c with
      | Some d => digitsValue rest (acc * 10 + d)%Z
      | None => None
      end
  end.

(** The number of a day of the proleptic Gregorian calendar, counted from
    1970-01-01. *)
Definition daysFromCivil (y m d : Z) : Z :=
  let y := if (m <=? 2)%Z then (y - 1)%Z else y in
  let era := (y / 400)%Z in
  let yoe := (y - era * 400)%Z in
  let mp := ((m + 9) mod 12)%Z in
  let doy := ((153 * mp + 2) / 5 + d - 1)%Z in
  let doe := (yoe * 365 + yoe / 4 - yoe / 100 + doy)%Z in
  (era * 146097 + doe - 719468)%Z.

Definition civilFromDays (z : Z) : Z * Z * Z :=
  let z := (z + 719468)%Z in
  let era := (z / 146097)%Z in
  let doe := (z - era * 146097)%Z in
  let yoe := ((doe - doe / 1460 + doe / 36524 - doe / 146096) / 365)%Z in
  let doy := (doe - (365 * yoe + yoe / 4 - yoe / 100))%Z in
  let mp := ((5 * doy + 2) / 153)%Z in
  let d := (doy - (153 * mp + 2) / 5 + 1)%Z in
  let m := if (mp <? 10)%Z then (mp + 3)%Z else (mp - 9)%Z in
  let y := (yoe + era * 400 + (if (m <=? 2)%Z then 1 else 0))%Z in
  (y, m, d).

Definition isLeap (y : Z) : bool :=
  ((y mod 4 =? 0) && (negb (y mod 100 =? 0) || (y mod 400 =? 0)))%Z.

Definition daysIn (y m : Z) : Z :=
  if (m =? 2)%Z then (if isLeap y then 29 else 28)%Z
  else if ((m =? 4) || (m =? 6) || (m =? 9) || (m =? 11))%Z then 30%Z
  else 31%Z.

Definition second : Z := 1000000000.

Definition parseUTC (s : string) : option Z :=
  let cs := list_ascii_of_string s in
  let field (from len : nat) := digitsValue (firstn len (skipn from cs)) 0 in
  let sep (at_ : nat) (c : ascii) :=
    match nth_error cs at_ with
    | Some x => Ascii.eqb x c
    | None => false
    end in
  if negb (length cs =? 20)%nat then None
  else if negb (sep 4%nat "-"%char && sep 7%nat "-"%char && sep 10%nat "T"%char
                && sep 13%nat ":"%char && sep 16%nat ":"%char
                && sep 19%nat "Z"%char) then None
  else
    match field 0%nat 4%nat, field 5%nat 2%nat, field 8%nat 2%nat,
          field 11%nat 2%nat, field 14%nat 2%nat, field 17%nat 2%nat with
    | Some y, Some m, Some d, Some hh, Some mm, Some ss =>
        if ((1 <=? m) && (m <=? 12) && (1 <=? d) && (d <=? daysIn y m)
            && (hh <? 24) && (mm <? 60) && (ss <? 60))%Z
        then Some ((((daysFromCivil y m d * 24 + hh) * 60 + mm) * 60 + ss)
                   * second)%Z
        else None
    | _, _, _, _, _, _ => None
    end.

Definition digitChar (d : Z) : ascii := ascii_of_nat (48 + Z.to_nat d).

Definition twoDigits (n : Z) : string :=
  String (digitChar (n / 10 mod 10)) (String (digitChar (n mod 10)) EmptyString).

Definition fourDigits (n : Z) : string :=
  twoDigits (n / 100) ++ twoDigits (n mod 100).

(** The layout [Z07:00]: [Z] for the offset 0, the offset in hours and
    minutes with its sign otherwise. *)
Definition formatZone (zone : Z) : string :=
  if (zone =? 0)%Z then "Z"
  else
    let minutes := (Z.abs zone / 60)%Z in
    (if (zone <? 0)%Z then "-" else "+") ++
    twoDigits (minutes / 60) ++ ":" ++ twoDigits (minutes mod 60).

(** [Format(time.RFC3339)] of the instant [t] shown in the zone [zone]
    seconds east of UTC, for the years 0000 to 9999: the date and the time
    of day in that zone, then the zone. *)
Definition formatRFC3339 (t zone : Z) : string :=
  let secs := (t / second + zone)%Z in
  let days := (secs / 86400)%Z in
  let rem := (secs mod 86400)%Z in
  let '(y, m, d) := civilFromDays days in
  fourDigits y ++ "-" ++ twoDigits m ++ "-" ++ twoDigits d ++ "T" ++
  twoDigits (rem / 3600) ++ ":" ++ twoDigits (rem / 60 mod 60) ++ ":" ++
  twoDigits (rem mod 60) ++ formatZone zone.

(** ** Grouping and policy evaluation *)

Definition sameSet (a b : list string) : bool :=
  forallb (fun x => existsb (String.eqb x) b) a
  && forallb (fun x => existsb (String.eqb x) a) b.

Definition sameGroup (x y : data_Snapshot) : bool :=
  String.eqb (sn_Hostname x) (sn_Hostname y)
  && sameSet (sn_Paths x) (sn_Paths y).

Fixpoint addToGroups (sn : data_Snapshot) (groups : list (list data_Snapshot))
    : list (list data_Snapshot) :=
  match groups with
  | [] => [[sn]]
  | [] :: rest => [] :: addToGroups sn rest
  | (x :: g) :: rest =>
      if sameGroup sn x then ((x :: g) ++ [sn])%list :: rest
      else (x :: g) :: addToGroups sn rest
  end.

(** Modelled from the spec: [data.GroupSnapshots] of restic's [internal/data]
    is not among the sources.  The snapshots are partitioned into groups
    keyed by the hostname and the snapshot's path set; the groups are in
    the order in which their first snapshot is listed. *)
Definition spec_GroupSnapshots (all : list data_Snapshot)
    : list (list data_Snapshot) * option error :=
  (fold_left (fun groups sn => addToGroups sn groups) all [], None).

(** The marks of the [n] most recent snapshots of a list sorted newest
    first. *)
Definition lastMarks (n : Z) (sorted : list data_Snapshot) : list bool :=
  map (fun i => (Z.of_nat i <? n)%Z) (seq 0 (length sorted)).

(** The marks of the most recent snapshot in each of the [left] most recent
    distinct buckets. *)
Fixpoint bucketMarks (bucket : Z -> Z) (sorted : list data_Snapshot)
    (last : option Z) (left : nat) : list bool :=
  match sorted with
  | [] => []
  | sn :: rest =>
      match left with
      | O => false :: bucketMarks bucket rest last left
      | S left' =>
          let b := bucket (sn_Time sn) in
          match last with
          | Some b' =>
              if (b =? b')%Z then false :: bucketMarks bucket rest last left
              else true :: bucketMarks bucket rest (Some b) left'
          | None => true :: bucketMarks bucket rest (Some b) left'
          end
      end
  end.

Definition hourOf (t : Z) : Z := (t / (3600 * second))%Z.
Definition dayOf (t : Z) : Z := (t / (86400 * second))%Z.
Definition weekOf (t : Z) : Z := ((dayOf t + 3) / 7)%Z.
Definition monthOf (t : Z) : Z :=
  let '(y, m, _) := civilFromDays (dayOf t) in (y * 12 + m)%Z.
Definition yearOf (t : Z) : Z :=
  let '(y, _, _) := civilFromDays (dayOf t) in y.

Definition intersects (a b : list string) : bool :=
  existsb (fun x => existsb (String.eqb x) b) a.

Fixpoint orMarks (a b : list bool) : list bool :=
  match a, b with
  | x :: a', y :: b' => (x || y) :: orMarks a' b'
  | _, _ => []
  end.

Fixpoint splitByMarks (l : list data_Snapshot) (marks : list bool)
    : list data_Snapshot * list data_Snapshot :=
  match l, marks with
  | sn :: l', m :: marks' =>
      let '(keep, remove) := splitByMarks l' marks' in
      if m then (sn :: keep, remove) else (keep, sn :: remove)
  | _, _ => ([], [])
  end.

(** Modelled from the spec: [data.ApplyPolicy] of restic's [internal/data]
    is not among the sources.  The keep set of a group is the union of the
    [Last] most recent snapshots, the most recent snapshot in each of the
    most recent [N] distinct hours, days, weeks, months and years, the
    snapshots whose age from [now] is within [Within] (a duration in
    nanoseconds, 0 when absent), and the snapshots whose tags intersect the
    keep tags.  Everything else in the group is to be removed. *)
Definition spec_ApplyPolicy (now : Z) (group : list data_Snapshot)
    (p : data_ExpirePolicy Z) : list data_Snapshot * list data_Snapshot :=
  let sorted := stableNewestFirst group in
  let rule bucket n := bucketMarks bucket sorted None (Z.to_nat n) in
  let marks :=
    orMarks (lastMarks (ep_Last p) sorted)
    (orMarks (rule hourOf (ep_Hourly Z p))
    (orMarks (rule dayOf (ep_Daily Z p))
    (orMarks (rule weekOf (ep_Weekly Z p))
    (orMarks (rule monthOf (ep_Monthly Z p))
    (orMarks (rule yearOf (ep_Yearly Z p))
    (orMarks
       (map (fun sn => (0 <? ep_Within p)%Z
                       && (now - sn_Time sn <=? ep_Within p)%Z) sorted)
       (map (fun sn => existsb (intersects (sn_Tags sn)) (ep_Tags p))
          sorted))))))) in
  splitByMarks sorted marks.

(** A [data.ParseDuration] for durations written as a number of days,
    ["30d"]; other texts are errors here. *)
Definition parseDays (s : string) : Z + error :=
  match rev (list_ascii_of_string s) with
  | c :: ds =>
      if Ascii.eqb c "d" && (0 <? length ds)%nat then
        match digitsValue (rev ds) 0 with
        | Some n => inl (n * 86400 * second)%Z
        | None => inr ("invalid duration " ++ s)
        end
      else inr ("invalid duration " ++ s)
  | [] => inr "empty duration"
  end.

(** ** Sample data *)

Definition hexDigit (n : nat) : ascii :=
  if (n <? 10)%nat then ascii_of_nat (48 + n) else ascii_of_nat (87 + n).

Fixpoint repeatString (n : nat) (s : string) : string :=
  match n with
  | O => EmptyString
  | S n' => s ++ repeatString n' s
  end.

(** An id of 64 hexadecimal digits: the byte [n] written 32 times. *)
Definition sampleID (n : nat) : string :=
  repeatString 32
    (String (hexDigit (n / 16)) (String (hexDigit (n mod 16)) EmptyString)).

Definition sampleSnapshot (n : nat) (time : Z) (host : string)
    (paths tags : list string) : data_Snapshot :=
  {| sn_ID := sampleID n; sn_Time := time; sn_Zone := 0;
     sn_Tree := sampleID (n + 128);
     sn_Paths := paths; sn_Hostname := host; sn_Username := "root";
     sn_Tags := tags; sn_Parent := None |}.

Definition sampleRepository (snapshots : list data_Snapshot) : repositoryImpl :=
  {| repo_SnapshotFiles := map (fun sn => (sn_ID sn, Some sn)) snapshots;
     repo_ListSnapshotsErr := None;
     repo_PackFiles := [];
     repo_ListPacksErr := None;
     repo_LoadIndexErr := None;
     checker_hints := [];
     checker_errs := [];
     checker_Packs := [];
     checker_ReadData := [];
     repo_RemoveErr := fun _ => None |}.

(** 2024-01-01T00:00:00Z. *)
Definition newYear2024 : Z := (1704067200 * second)%Z.

(** Thirteen snapshots of one host: the first twelve were taken at the same
    instant, the thirteenth one second later. *)
Definition thirteenSnapshots : list data_Snapshot :=
  map (fun n =>
         sampleSnapshot n
           (if (n =? 12)%nat then (newYear2024 + second)%Z else newYear2024)
           "h1" ["/data"] [])
      (seq 0 13).

(** Ten snapshots of one host, an hour apart, none of them tagged. *)
Definition tenSnapshots : list data_Snapshot :=
  map (fun n =>
         sampleSnapshot n (newYear2024 + Z.of_nat n * 3600 * second)%Z
           "h1" ["/data"] [])
      (seq 0 10).

(** Two snapshots of a second host, the newer one tagged [pin]. *)
Definition otherHostSnapshots : list data_Snapshot :=
  [sampleSnapshot 20 newYear2024 "h2" ["/data"] [];
   sampleSnapshot 21 (newYear2024 + 3600 * second)%Z "h2" ["/data"] ["pin"]].

(** The policy that keeps the snapshots tagged [pin] and nothing else. *)
Definition keepPinned : ForgetPolicy :=
  {| KeepLast := 0; KeepHourly := 0; KeepDaily := 0; KeepWeekly := 0;
     KeepMonthly := 0; KeepYearly := 0; KeepWithin := None;
     KeepTags := ["pin"] |}.

Definition emptyPolicy : ForgetPolicy :=
  {| KeepLast := 0; KeepHourly := 0; KeepDaily := 0; KeepWeekly := 0;
     KeepMonthly := 0; KeepYearly := 0; KeepWithin := None;
     KeepTags := [] |}.

(** A repository in which the pack check finds [n] errors. *)
Definition repositoryWithPackErrors (n : nat) : repositoryImpl :=
  {| repo_SnapshotFiles := [];
     repo_ListSnapshotsErr := None;
     repo_PackFiles := [];
     repo_ListPacksErr := None;
     repo_LoadIndexErr := None;
     checker_hints := [];
     checker_errs := [];
     checker_Packs := repeat "pack not found" n;
     checker_ReadData := [];
     repo_RemoveErr := fun _ => None |}.

(** A repository whose listing of pack files yields one pack and then
    fails. *)
Definition repositoryWithBrokenListing : repositoryImpl :=
  {| repo_SnapshotFiles := [];
     repo_ListSnapshotsErr := None;
     repo_PackFiles := [sampleID 1];
     repo_ListPacksErr := Some "connection reset";
     repo_LoadIndexErr := None;
     checker_hints := [];
     checker_errs := [];
     checker_Packs := [];
     checker_ReadData := [];
     repo_RemoveErr := fun _ => None |}.

(** A repository with three pack files. *)
Definition repositoryWithThreePacks : repositoryImpl :=
  {| repo_SnapshotFiles := [];
     repo_ListSnapshotsErr := None;
     repo_PackFiles := [sampleID 1; sampleID 2; sampleID 3];
     repo_ListPacksErr := None;
     repo_LoadIndexErr := None;
     checker_hints := [];
     checker_errs := [];
     checker_Packs := [];
     checker_ReadData := [];
     repo_RemoveErr := fun _ => None |}.

(** A world for the bridge: every location holds the same repository, the
    archiver fails, and the restorer succeeds. *)
Definition sample_open (repo : repositoryImpl) (cfg : Config)
    : option repositoryImpl := Some repo.

Definition sample_Backup (r : repositoryImpl) (opts : BackupOptions)
    : repositoryImpl * (string * option error) :=
  (r, ("", Some "backup failed: archiver unavailable")).

Definition sample_Restore (r : repositoryImpl) (id : string)
    (opts : RestoreOptions) : repositoryImpl * option error :=
  (r, None).

(** A call that opens the repository at [/srv/repo]. *)
Definition sample_call_open : Call :=
  call_open (Some "/srv/repo") (Some "local") (Some "secret") None None 1.

(** The options of a backup of [/srv] that excludes [secret/*]. *)
Definition excludeSecret : BackupOptions :=
  {| bo_Paths := ["/srv"]; bo_Tags := []; bo_Excludes := ["secret/*"];
     bo_Includes := []; bo_ParentID := None; bo_DryRun := false |}.

(** A backup of [/home/user] that is to take the text files and to leave out
    the drafts. *)
Definition includeTxt : BackupOptions :=
  {| bo_Paths := ["/home/user"]; bo_Tags := []; bo_Excludes := ["draft*"];
     bo_Includes := ["*.txt"]; bo_ParentID := None; bo_DryRun := false |}.

(** A filter with a bound that is no timestamp. *)
Definition sinceYesterday : SnapshotFilter :=
  {| sf_Hosts := []; sf_Paths := []; sf_Tags := [];
     sf_Since := Some "yesterday"; sf_Until := Some "yesterday";
     sf_Limit := 0 |}.

(** A filter that asks for two snapshots. *)
Definition limitTwo : SnapshotFilter :=
  {| sf_Hosts := []; sf_Paths := []; sf_Tags := [];
     sf_Since := None; sf_Until := None; sf_Limit := 2 |}.

(** Every field of a policy is zero or absent. *)
Definition allFieldsZero (p : ForgetPolicy) : Prop :=
  KeepLast p = 0%Z /\ KeepHourly p = 0%Z /\ KeepDaily p = 0%Z /\
  KeepWeekly p = 0%Z /\ KeepMonthly p = 0%Z /\ KeepYearly p = 0%Z /\
  KeepWithin p = None /\ KeepTags p = [].

(** Options of a prune that is to remove data. *)
Definition pruneForReal : PruneOptions :=
  {| po_DryRun := false; po_MaxUnused := ""; po_MaxRepackSize := "" |}.

(** The ten untagged snapshots of [h1] and the two snapshots of [h2]. *)
Definition mixedRepository : repositoryImpl :=
  sampleRepository (tenSnapshots ++ otherHostSnapshots)%list.

(** What [keepPinned] becomes in [Forget]. *)
Definition pinnedExpirePolicy : data_ExpirePolicy Z :=
  {| ep_Last := 0; ep_Hourly := 0; ep_Daily := 0; ep_Weekly := 0;
     ep_Monthly := 0; ep_Yearly := 0; ep_Within := 0%Z;
     ep_Tags := [["pin"]] |}.

(** 2024-01-02T00:00:00Z, the time of the sample runs of [Forget]. *)
Definition sampleNow : Z := (newYear2024 + 86400 * second)%Z.

(** ** Liveness of a handle along the events of a run *)

Definition updateLive (h : Z) (e : Event) (live : bool) : bool :=
  match e with
  | Issued h' => if (h' =? h)%Z then true else live
  | Destroyed h' => if (h' =? h)%Z then false else live
  | NoEvent => live
  end.

(** Whether [h] is live after the events, given whether it was before. *)
Fixpoint liveAfter (h : Z) (events : list Event) (live : bool) : bool :=
  match events with
  | [] => live
  | e :: rest => liveAfter h rest (updateLive h e live)
  end.

(** The state of the bridge after [n] calls that open the sample
    location. *)
Definition afterOpens (repo : repositoryImpl) (n : nat) : Bridge * list Event :=
  run (sample_open repo) (sample_open repo) sample_Backup sample_Restore
    parseUTC formatRFC3339 stable_sort_Slice
    Bridge_init (repeat sample_call_open n).

(** [2^31 - 1] calls, and [2^32] errors. *)
Definition manyOpens : nat := Z.to_nat 2147483647.
Definition manyErrors : nat := Z.to_nat 4294967296.

(** A repository is opened and closed again. *)
Definition openThenClose : list Call := [sample_call_open; call_close 1].

(** The options of the README's backup example. *)
Definition readmeBackup : BackupOptions :=
  {| bo_Paths := ["/home/user"]; bo_Tags := ["home"; "user-data"];
     bo_Excludes := ["*.cache"; "*/tmp/*"]; bo_Includes := [];
     bo_ParentID := None; bo_DryRun := false |}.

(** A policy whose [KeepWithin] is no duration for [parseDays]. *)
Definition keepWithinSoon : ForgetPolicy :=
  {| KeepLast := 0; KeepHourly := 0; KeepDaily := 0; KeepWeekly := 0;
     KeepMonthly := 0; KeepYearly := 0; KeepWithin := Some "soon";
     KeepTags := [] |}.

(** The policy that keeps the most recent snapshot of each group. *)
Definition keepLastOne : ForgetPolicy :=
  {| KeepLast := 1; KeepHourly := 0; KeepDaily := 0; KeepWeekly := 0;
     KeepMonthly := 0; KeepYearly := 0; KeepWithin := None;
     KeepTags := [] |}.

(** What [keepLastOne] becomes in [Forget]. *)
Definition lastOneExpirePolicy : data_ExpirePolicy Z :=
  {| ep_Last := 1; ep_Hourly := 0; ep_Daily := 0; ep_Weekly := 0;
     ep_Monthly := 0; ep_Yearly := 0; ep_Within := 0%Z;
     ep_Tags := [] |}.

(** The two snapshots of [h2] in a repository that refuses to delete the
    older one. *)
Definition stubbornRepository : repositoryImpl :=
  {| repo_SnapshotFiles :=
       map (fun sn => (sn_ID sn, Some sn)) otherHostSnapshots;
     repo_ListSnapshotsErr := None;
     repo_PackFiles := [];
     repo_ListPacksErr := None;
     repo_LoadIndexErr := None;
     checker_hints := [];
     checker_errs := [];
     checker_Packs := [];
     checker_ReadData := [];
     repo_RemoveErr :=
       fun id => if String.eqb id (sampleID 20)
                 then Some "permission denied" else None |}.

(** A repository whose index check reports a hint and an error, and whose
    packs would report an error too. *)
Definition repositoryWithIndexError : repositoryImpl :=
  {| repo_SnapshotFiles := [];
     repo_ListSnapshotsErr := None;
     repo_PackFiles := [];
     repo_ListPacksErr := None;
     repo_LoadIndexErr := None;
     checker_hints := ["index is old"];
     checker_errs := ["index is damaged"];
     checker_Packs := ["pack not found"];
     checker_ReadData := [];
     repo_RemoveErr := fun _ => None |}.

(** A repository whose packs pass the structural check and fail when their
    data is read. *)
Definition repositoryWithDataErrors : repositoryImpl :=
  {| repo_SnapshotFiles := [];
     repo_ListSnapshotsErr := None;
     repo_PackFiles := [];
     repo_ListPacksErr := None;
     repo_LoadIndexErr := None;
     checker_hints := [];
     checker_errs := [];
     checker_Packs := [];
     checker_ReadData := ["blob hash mismatch"];
     repo_RemoveErr := fun _ => None |}.

(** What a create operation leaves when it registers [repo] and returns
    [code]: [code] is the value of the counter before the call and is
    positive, the table holds [repo] under it, the counter has moved to the
    next value, and the entry of every other handle is as it was. *)
Definition registered (st st' : Bridge) (code : Z) (repo : repositoryImpl)
    : Prop :=
  code = nextRepoID st
  /\ (0 < code)%Z
  /\ repositories st' !! ResticRepo code = Some repo
  /\ nextRepoID st' = (code + 1)%Z
  /\ forall h, is_C_int h -> h <> code ->
       repositories st' !! ResticRepo h = repositories st !! ResticRepo h.

(** A bridge with the repository of ten snapshots under the handle 1. *)
Definition bridgeWithTen : Bridge :=
  {| repositories := <[1%Z := sampleRepository tenSnapshots]> ∅;
     nextRepoID := 2 |}.

(** ** C memory

    The blocks that [C.malloc] and [C.CString] hand out: a block holds the
    bytes of a string, or the slots of an array of [char*].  A pointer is
    the address of its block, [NULL] is 0.

    An operation on the memory has no result, [None], when the behaviour of
    C is undefined (a block that is not in use is freed, a slot outside its
    block is read or written) or when Go panics, which ends the process. *)

Inductive CObject : Type :=
| CChars (bytes : string)
| CPointers (slots : list Z).

Abbreviation CHeap := (gmap Z CObject).

Definition NULL : Z := 0.

(** The bytes of a C string up to the first NUL, as [C.GoString] and the
    constructor of [std::string] read them. *)
Fixpoint uptoNUL (bytes : string) : string :=
  match bytes with
  | EmptyString => EmptyString
  | String c rest =>
      if Ascii.eqb c Ascii.zero then EmptyString else String c (uptoNUL rest)
  end.

(** The bridge sees an array of C through the type [*[1 << 30]*C.char]:
    an index of [1 << 30] or more, or a slice of more than [1 << 30]
    elements, is a run-time panic. *)
Definition arrayLimit : Z := (2 ^ 30)%Z.

Definition inBounds (i : nat) : bool := (Z.of_nat i <? arrayLimit)%Z.

(** The string holds no NUL byte. *)
Fixpoint noNUL (s : string) : bool :=
  match s with
  | EmptyString => true
  | String c rest => negb (Ascii.eqb c Ascii.zero) && noNUL rest
  end.

Section CMemory.

(** The address [malloc] returns for a new block, given the blocks in use,
    and the contents of a new block of [n] slots, which [malloc] does not
    initialise.  Allocation is taken to succeed. *)
Variable C_malloc : CHeap -> Z.
Variable uninitialised : nat -> list Z.

Definition allocate (heap : CHeap) (block : CObject) : CHeap * Z :=
  (<[C_malloc heap := block]> heap, C_malloc heap).

(** [C.CString(s)]: a new block with the bytes of [s] and a final NUL. *)
Definition C_CString (heap : CHeap) (s : string) : CHeap * Z :=
  allocate heap (CChars (s ++ String Ascii.zero EmptyString)).

(** [C.malloc(C.size_t(count) * C.size_t(unsafe.Sizeof(uintptr(0))))]. *)
Definition C_malloc_pointers (heap : CHeap) (count : nat) : CHeap * Z :=
  allocate heap (CPointers (uninitialised count)).

(** [C.free(p)]; [None] when [p] is not the address of a block in use,
    which C leaves undefined. *)
Definition C_free (heap : CHeap) (p : Z) : option CHeap :=
  match heap !! p with
  | Some _ => Some (delete p heap)
  | None => None
  end.

(** The string at [p]; [None] when [p] does not point to a string. *)
Definition readCString (heap : CHeap) (p : Z) : option string :=
  match heap !! p with
  | Some (CChars bytes) => Some (uptoNUL bytes)
  | _ => None
  end.

(** [array[i] = p] and [array[i]]; [None] outside the block. *)
Definition writeSlot (heap : CHeap) (array : Z) (i : nat) (p : Z)
    : option CHeap :=
  match heap !! array with
  | Some (CPointers slots) =>
      if (i <? length slots)%nat
      then Some (<[array := CPointers (<[i := p]> slots)]> heap)
      else None
  | _ => None
  end.

Definition readSlot (heap : CHeap) (array : Z) (i : nat) : option Z :=
  match heap !! array with
  | Some (CPointers slots) => slots !! i
  | _ => None
  end.

(** [restic_free_string]. *)
Definition restic_free_string (heap : CHeap) (str : Z) : option CHeap :=
  if (str =? NULL)%Z then Some heap else C_free heap str.

(** [restic_get_version]. *)
Definition restic_get_version (heap : CHeap) : CHeap * Z :=
  C_CString heap "resticlib-v0.1.0".

(** [restic_get_error_message]. *)
Definition restic_get_error_message (heap : CHeap) (error_code : Z)
    : CHeap * Z :=
  if (error_code =? RESTIC_OK)%Z then C_CString heap "Success"
  else if (error_code =? RESTIC_ERROR_INVALID_PARAMS)%Z
  then C_CString heap "Invalid parameters"
  else if (error_code =? RESTIC_ERROR_REPO_NOT_FOUND)%Z
  then C_CString heap "Repository not found or invalid password"
  else if (error_code =? RESTIC_ERROR_INVALID_PASSWORD)%Z
  then C_CString heap "Invalid password"
  else if (error_code =? RESTIC_ERROR_BACKUP_FAILED)%Z
  then C_CString heap "Backup operation failed"
  else if (error_code =? RESTIC_ERROR_RESTORE_FAILED)%Z
  then C_CString heap "Restore operation failed"
  else C_CString heap "Unknown error".

(** [array[i] = C.CString(s)] on an array of the bridge. *)
Definition storeCString (heap : CHeap) (array : Z) (i : nat) (s : string)
    : option CHeap :=
  if inBounds i then
    let '(heap, p) := C_CString heap s in writeSlot heap array i p
  else None.

(** The loop of [restic_list_snapshots] over the snapshots, from index
    [i]. *)
Fixpoint fillArrays (snapshots : list Snapshot) (i : nat) (heap : CHeap)
    (idsArray timesArray hostnamesArray : Z) : option CHeap :=
  match snapshots with
  | [] => Some heap
  | snapshot :: rest =>
      match storeCString heap idsArray i (ID snapshot) with
      | None => None
      | Some heap =>
          match storeCString heap timesArray i (Time snapshot) with
          | None => None
          | Some heap =>
              match storeCString heap hostnamesArray i (Hostname snapshot) with
              | None => None
              | Some heap =>
                  fillArrays rest (S i) heap idsArray timesArray hostnamesArray
              end
          end
      end
  end.

(** The caller's variables behind [ids_out], [times_out], [hostnames_out]
    and [count_out]. *)
Record SnapshotArrays := {
  sa_ids : Z;
  sa_times : Z;
  sa_hostnames : Z;
  sa_count : Z
}.

(** The loop [for i := 0; i < int(count); i++] of
    [restic_free_snapshot_arrays] over one array, with [n] iterations left
    from index [i]. *)
Fixpoint freeSlots (heap : CHeap) (array : Z) (i n : nat) : option CHeap :=
  match n with
  | O => Some heap
  | S n' =>
      if inBounds i then
        match readSlot heap array i with
        | None => None
        | Some p =>
            if (p =? NULL)%Z then freeSlots heap array (S i) n'
            else
              match C_free heap p with
              | None => None
              | Some heap => freeSlots heap array (S i) n'
              end
        end
      else None
  end.

(** One of the three blocks of [restic_free_snapshot_arrays]. *)
Definition freeArray (heap : CHeap) (array : Z) (count : Z) : option CHeap :=
  if (array =? NULL)%Z then Some heap
  else
    match freeSlots heap array 0 (Z.to_nat count) with
    | None => None
    | Some heap => C_free heap array
    end.

Definition restic_free_snapshot_arrays (heap : CHeap)
    (ids times hostnames : Z) (count : Z) : option CHeap :=
  match freeArray heap ids count with
  | None => None
  | Some heap =>
      match freeArray heap times count with
      | None => None
      | Some heap => freeArray heap hostnames count
      end
  end.

Variable time_Parse : string -> option Z.
Variable time_Format : Z -> Z -> string.
Variable sort_Slice :
  (data_Snapshot -> data_Snapshot -> bool) -> list data_Snapshot ->
  list data_Snapshot.

(** The second half of [restic_list_snapshots]: the three arrays are
    allocated and filled, and the caller's variables are assigned. *)
Definition writeSnapshots (heap : CHeap) (snapshots : list Snapshot)
    : option (CHeap * SnapshotArrays) :=
  let count := length snapshots in
  let '(heap, idsArray) := C_malloc_pointers heap count in
  let '(heap, timesArray) := C_malloc_pointers heap count in
  let '(heap, hostnamesArray) := C_malloc_pointers heap count in
  match fillArrays snapshots 0 heap idsArray timesArray hostnamesArray with
  | None => None
  | Some heap =>
      Some (heap, {| sa_ids := idsArray; sa_times := timesArray;
                     sa_hostnames := hostnamesArray;
                     sa_count := C_int (Z.of_nat count) |})
  end.

(** [restic_list_snapshots] with the memory it allocates: the result is
    the memory after the call, the code returned and the caller's four
    variables; [None] when the call runs into undefined behaviour or
    panics, as it does with more than [1 << 30] snapshots.  The package
    variables of the bridge are not assigned to. *)
Definition restic_list_snapshots_alloc (st : Bridge) (heap : CHeap)
    (repo_id : Z) (out : SnapshotArrays)
    : option (CHeap * (Z * SnapshotArrays)) :=
  match repositories st !! ResticRepo repo_id with
  | None => Some (heap, (RESTIC_ERROR_INVALID_PARAMS, out))
  | Some repo =>
      match Snapshots time_Parse time_Format sort_Slice repo emptyFilter with
      | (_, Some _) => Some (heap, (RESTIC_ERROR_UNKNOWN, out))
      | (snapshots, None) =>
          if (length snapshots =? 0)%nat then
            Some (heap, (RESTIC_OK,
                         {| sa_ids := sa_ids out; sa_times := sa_times out;
                            sa_hostnames := sa_hostnames out;
                            sa_count := 0 |}))
          else
            match writeSnapshots heap snapshots with
            | None => None
            | Some (heap, out) => Some (heap, (RESTIC_OK, out))
            end
      end
  end.

(** [C.GoString(p)]: the empty string for [nil]. *)
Definition C_GoString (heap : CHeap) (p : Z) : option string :=
  if (p =? NULL)%Z then Some EmptyString else readCString heap p.

(** The loop [for i, c := range cArray { slice[i] = C.GoString(c) }], with
    [n] elements left from index [i]. *)
Fixpoint readStrings (heap : CHeap) (array : Z) (i n : nat)
    : option (list string) :=
  match n with
  | O => Some []
  | S n' =>
      match readSlot heap array i with
      | None => None
      | Some c =>
          match C_GoString heap c with
          | None => None
          | Some s =>
              match readStrings heap array (S i) n' with
              | None => None
              | Some rest => Some (s :: rest)
              end
          end
      end
  end.

(** The slice [[:count:count]] of the array, seen through the type
    [*[1 << 30]*C.char], for a positive [count]: the slice expression panics
    when [count] exceeds [1 << 30]; then the Go strings copied from it. *)
Definition goStrings (heap : CHeap) (array : Z) (count : Z)
    : option (list string) :=
  if (arrayLimit <? count)%Z then None
  else readStrings heap array 0 (Z.to_nat count).

(** [repo.Backup], as in the bridge above. *)
Variable Backup :
  repositoryImpl -> BackupOptions -> repositoryImpl * (string * option error).

(** [restic_backup] with the memory it reads and allocates: [paths] and
    [tags] are the addresses of the caller's arrays, [snapshot_id_out] is
    the value of the caller's variable before the call; the result is the
    state and the memory after the call, the code returned and the value of
    the caller's variable. *)
Definition restic_backup_alloc (st : Bridge) (heap : CHeap) (repo_id : Z)
    (paths : Z) (paths_count : Z) (tags : Z) (tags_count : Z)
    (snapshot_id_out : Z) : option (Bridge * CHeap * (Z * Z)) :=
  match repositories st !! ResticRepo repo_id with
  | None => Some (st, heap, (RESTIC_ERROR_INVALID_PARAMS, snapshot_id_out))
  | Some repo =>
      if ((paths =? NULL) || (paths_count <=? 0))%Z
      then Some (st, heap, (RESTIC_ERROR_INVALID_PARAMS, snapshot_id_out))
      else
        match goStrings heap paths paths_count with
        | None => None
        | Some pathSlice =>
            let tagSlice :=
              if ((0 <? tags_count) && negb (tags =? NULL))%Z
              then goStrings heap tags tags_count
              else Some [] in
            match tagSlice with
            | None => None
            | Some tagSlice =>
                let backupOpts :=
                  {| bo_Paths := pathSlice; bo_Tags := tagSlice;
                     bo_Excludes := []; bo_Includes := [];
                     bo_ParentID := None; bo_DryRun := false |} in
                let '(repo, (snapshotID, err)) := Backup repo backupOpts in
                let st := store st (ResticRepo repo_id) repo in
                match err with
                | Some _ =>
                    Some (st, heap,
                          (RESTIC_ERROR_BACKUP_FAILED, snapshot_id_out))
                | None =>
                    let '(heap, p) := C_CString heap snapshotID in
                    Some (st, heap, (RESTIC_OK, p))
                end
            end
        end
  end.

(** *** The C++ wrapper

    [ResticLib::Snapshot] and what a member function of
    [ResticLib::Repository] leaves: its result or the exception thrown. *)
Record cpp_Snapshot := {
  cpp_id : string;
  cpp_time : string;
  cpp_hostname : string
}.

Inductive cpp_exception : Type :=
| ResticException (error_code : Z) (message : string)
| std_length_error.

(** [ptr ? std::string(ptr) : std::string()]: the empty string for a null
    pointer. *)
Definition stringOrEmpty (heap : CHeap) (p : Z) : option string :=
  if (p =? NULL)%Z then Some EmptyString else readCString heap p.

(** [CString error_msg(restic_get_error_message(result));
     throw ResticException(result, error_msg.str());]: the message is
    allocated, copied and, when [error_msg] goes out of scope, freed. *)
Definition throwResticException (heap : CHeap) (result : Z)
    : option (CHeap * cpp_exception) :=
  let '(heap, ptr) := restic_get_error_message heap result in
  match stringOrEmpty heap ptr with
  | None => None
  | Some message =>
      match restic_free_string heap ptr with
      | None => None
      | Some heap => Some (heap, ResticException result message)
      end
  end.

(** The loop [for (int i = 0; i < count; i++)] of [listSnapshots], with [n]
    iterations left from index [i]. *)
Fixpoint readSnapshots (heap : CHeap) (ids times hostnames : Z) (i n : nat)
    : option (list cpp_Snapshot) :=
  match n with
  | O => Some []
  | S n' =>
      match readSlot heap ids i, readSlot heap times i,
            readSlot heap hostnames i with
      | Some pid, Some ptime, Some phost =>
          match stringOrEmpty heap pid, stringOrEmpty heap ptime,
                stringOrEmpty heap phost with
          | Some id, Some time, Some hostname =>
              match readSnapshots heap ids times hostnames (S i) n' with
              | Some rest =>
                  Some ({| cpp_id := id; cpp_time := time;
                           cpp_hostname := hostname |} :: rest)
              | None => None
              end
          | _, _, _ => None
          end
      | _, _, _ => None
      end
  end.

(** [Repository::listSnapshots] of the wrapper on the handle [repo_id_];
    [snapshots.reserve(count)] throws [std::length_error] for a negative
    [count]. *)
Definition Repository_listSnapshots (st : Bridge) (heap : CHeap) (repo_id_ : Z)
    : option (CHeap * (list cpp_Snapshot + cpp_exception)) :=
  let out := {| sa_ids := NULL; sa_times := NULL; sa_hostnames := NULL;
                sa_count := 0 |} in
  match restic_list_snapshots_alloc st heap repo_id_ out with
  | None => None
  | Some (heap, (result, out)) =>
      if negb (result =? RESTIC_OK)%Z then
        match throwResticException heap result with
        | None => None
        | Some (heap, e) => Some (heap, inr e)
        end
      else if (sa_count out <? 0)%Z then Some (heap, inr std_length_error)
      else
        match readSnapshots heap (sa_ids out) (sa_times out)
                (sa_hostnames out) 0 (Z.to_nat (sa_count out)) with
        | None => None
        | Some snapshots =>
            match restic_free_snapshot_arrays heap (sa_ids out) (sa_times out)
                    (sa_hostnames out) (sa_count out) with
            | None => None
            | Some heap => Some (heap, inl snapshots)
            end
        end
  end.

(** [Repository::getVersion]. *)
Definition Repository_getVersion (heap : CHeap) : option (CHeap * string) :=
  let '(heap, ptr) := restic_get_version heap in
  match stringOrEmpty heap ptr with
  | None => None
  | Some version =>
      match restic_free_string heap ptr with
      | None => None
      | Some heap => Some (heap, version)
      end
  end.

End CMemory.

(** The memory [heap'] after a listing of [snapshots] made in the memory
    [heap]: the three arrays hold the pointers [pi], [pt] and [ph], one per
    snapshot, to the strings of the ids, the times and the hostnames; the
    arrays and the strings are blocks of their own, new with respect to
    [heap]; everything else is as in [heap]. *)
Definition holdsListing (heap heap' : CHeap) (arrays : SnapshotArrays)
    (snapshots : list Snapshot) : Prop :=
  exists pi pt ph : list Z,
    let blocks :=
      (sa_ids arrays :: sa_times arrays :: sa_hostnames arrays
       :: pi ++ pt ++ ph)%list in
    heap' !! sa_ids arrays = Some (CPointers pi)
    /\ heap' !! sa_times arrays = Some (CPointers pt)
    /\ heap' !! sa_hostnames arrays = Some (CPointers ph)
    /\ NoDup blocks
    /\ (forall p, p ∈ blocks -> heap !! p = None /\ p <> NULL)
    /\ Forall2 (fun p s =>
                  heap' !! p
                  = Some (CChars (ID s ++ String Ascii.zero EmptyString)))
         pi snapshots
    /\ Forall2 (fun p s =>
                  heap' !! p
                  = Some (CChars (Time s ++ String Ascii.zero EmptyString)))
         pt snapshots
    /\ Forall2 (fun p s =>
                  heap' !! p
                  = Some (CChars (Hostname s ++ String Ascii.zero EmptyString)))
         ph snapshots
    /\ (forall a, a ∉ blocks -> heap' !! a = heap !! a).

(** The caller's array at [array] points, slot by slot from its first
    slot, to the C strings [strings]; a [NULL] slot stands for the empty
    string. *)
Definition holdsStrings (heap : CHeap) (array : Z) (strings : list string)
    : Prop :=
  exists slots rest : list Z,
    heap !! array = Some (CPointers (slots ++ rest))
    /\ Forall2 (fun p s => C_GoString heap p = Some s) slots strings.

(** What the wrapper's [listSnapshots] makes of a snapshot of the
    library. *)
Definition toCpp (s : Snapshot) : cpp_Snapshot :=
  {| cpp_id := ID s; cpp_time := Time s; cpp_hostname := Hostname s |}.

(** An allocator: the address after the highest one in use. *)
Definition bumpAllocator (heap : CHeap) : Z :=
  (1 + foldr Z.max 0 (map fst (map_to_list heap)))%Z.

(** New slots filled with the address 57005. *)
Definition staleSlots (n : nat) : list Z := repeat 57005%Z n.

(** A memory with one string in use. *)
Definition busyHeap : CHeap := <[7%Z := CChars "in use"]> ∅.

(** A memory with an array of two paths at 10 and an array of one tag at
    20. *)
Definition backupHeap : CHeap :=
  <[10%Z := CPointers [11%Z; 12%Z]]>
    (<[11%Z := CChars ("/srv" ++ String Ascii.zero EmptyString)]>
       (<[12%Z := CChars ("data" ++ String Ascii.zero EmptyString)]>
          (<[20%Z := CPointers [21%Z]]>
             (<[21%Z := CChars ("nightly" ++ String Ascii.zero EmptyString)]>
                ∅)))).

(** ** The example command line: [detectBackend] *)

Definition BackendLocal : string := "local".
Definition BackendS3 : string := "s3".
Definition BackendAzure : string := "azure".
Definition BackendGCS : string := "gcs".
Definition BackendB2 : string := "b2".
Definition BackendSFTP : string := "sftp".
Definition BackendSwift : string := "swift".
Definition BackendRest : string := "rest".

(** [repoURL[i] == c], for an index within the string. *)
Definition byteIs (repoURL : string) (i : nat) (c : ascii) : bool :=
  match String.get i repoURL with
  | Some x => Ascii.eqb x c
  | None => false
  end.

(** [len(repoURL) >= n && repoURL[:n] == prefix], with [n] the length of
    [prefix]. *)
Definition startsWith (repoURL prefix : string) : bool :=
  (String.length prefix <=? String.length repoURL)%nat
  && String.eqb (substring 0 (String.length prefix) repoURL) prefix.

Definition detectBackend (repoURL : string) : string :=
  if (0 <? String.length repoURL)%nat
     && (byteIs repoURL 0 "/"
         || ((1 <? String.length repoURL)%nat && byteIs repoURL 1 ":"))
  then BackendLocal
  else if startsWith repoURL "s3:" then BackendS3
  else if startsWith repoURL "azure:" then BackendAzure
  else if startsWith repoURL "gs:" then BackendGCS
  else if startsWith repoURL "b2:" then BackendB2
  else if startsWith repoURL "sftp:" then BackendSFTP
  else if startsWith repoURL "swift:" then BackendSwift
  else if startsWith repoURL "rest:" then BackendRest
  else BackendLocal.

(** The prefixes [detectBackend] knows, each with the kind it stands
    for. *)
Definition knownPrefixes : list (string * string) :=
  [("s3:", BackendS3); ("azure:", BackendAzure); ("gs:", BackendGCS);
   ("b2:", BackendB2); ("sftp:", BackendSFTP); ("swift:", BackendSwift);
   ("rest:", BackendRest)].

(** A repository whose index does not load. *)
Definition repositoryWithoutIndex : repositoryImpl :=
  {| repo_SnapshotFiles := [];
     repo_ListSnapshotsErr := None;
     repo_PackFiles := [];
     repo_ListPacksErr := None;
     repo_LoadIndexErr := Some "index not found";
     checker_hints := [];
     checker_errs := [];
     checker_Packs := ["pack not found"];
     checker_ReadData := [];
     repo_RemoveErr := fun _ => None |}.

(** ** [Backup] *)

(** [archiver.SnapshotOptions] with the fields [Backup] sets. *)
Record archiver_SnapshotOptions := {
  so_Tags : list string;
  so_Hostname : string;
  so_Excludes : list string;
  so_BackupStart : Z;
  so_Time : Z;
  so_ParentSnapshot : option data_Snapshot;
  so_ProgramVersion : string
}.

Section BackupRun.

Variable Match : string -> string -> bool.
Variable Base : string -> string.

(** [restic.ParseID], [data.LoadSnapshot] for an id, [os.Hostname],
    [filepath.Abs], the two readings of [time.Now] and [arch.Snapshot]
    with the [SelectByName] installed in the archiver; the archiver returns
    the repository as it leaves it and the id of the new snapshot. *)
Variable restic_ParseID : string -> string + error.
Variable data_LoadSnapshot : repositoryImpl -> string -> data_Snapshot + error.
Variable os_Hostname : string + error.
Variable filepath_Abs : string -> string + error.
Variable time_Now : Z * Z.
Variable arch_Snapshot :
  repositoryImpl -> (string -> bool) -> list string ->
  archiver_SnapshotOptions -> repositoryImpl * (string + error).

(** The loop over [opts.Paths]: the first path that does not resolve ends
    it with the error [Backup] returns. *)
Fixpoint resolvePaths (paths : list string) (resolvedPaths : list string)
    : list string + error :=
  match paths with
  | [] => inl resolvedPaths
  | path :: rest =>
      match filepath_Abs path with
      | inr err =>
          inr ("failed to resolve path " ++ quoted path ++ ": " ++ err)
      | inl absPath => resolvePaths rest (resolvedPaths ++ [absPath])
      end
  end.

(** The parent snapshot: [inl None] when no parent is asked for. *)
Definition findParent (r : repositoryImpl) (opts : BackupOptions)
    : option data_Snapshot + error :=
  match bo_ParentID opts with
  | None => inl None
  | Some parentID =>
      match restic_ParseID parentID with
      | inr err => inr ("invalid parent ID: " ++ err)
      | inl id =>
          match data_LoadSnapshot r id with
          | inr err => inr ("failed to load parent snapshot: " ++ err)
          | inl sn => inl (Some sn)
          end
      end
  end.

(** [Backup], called with no progress reporter ([opts.Progress] is [nil],
    as in every call of the bridge); the result is the repository as the
    call leaves it and Go's pair of the snapshot id and the error. *)
Definition Backup (r : repositoryImpl) (opts : BackupOptions)
    : repositoryImpl * (string * option error) :=
  if (length (bo_Paths opts) =? 0)%nat
  then (r, ("", Some "no paths specified for backup"))
  else
    match repo_LoadIndexErr r with
    | Some err => (r, ("", Some ("failed to load index: " ++ err)))
    | None =>
        match findParent r opts with
        | inr err => (r, ("", Some err))
        | inl parentSnapshot =>
            let hostname :=
              match os_Hostname with
              | inl h => h
              | inr _ => "unknown"
              end in
            match resolvePaths (bo_Paths opts) [] with
            | inr err => (r, ("", Some err))
            | inl resolvedPaths =>
                let snapshotOpts :=
                  {| so_Tags := bo_Tags opts;
                     so_Hostname := hostname;
                     so_Excludes := bo_Excludes opts;
                     so_BackupStart := fst time_Now;
                     so_Time := snd time_Now;
                     so_ParentSnapshot := parentSnapshot;
                     so_ProgramVersion := "resticlib" |} in
                match arch_Snapshot r (SelectByName Match Base opts)
                        resolvedPaths snapshotOpts with
                | (r, inr err) => (r, ("", Some ("backup failed: " ++ err)))
                | (r, inl snapshotID) => (r, (ID_Str snapshotID, None))
                end
            end
        end
    end.

End BackupRun.

(** ** [Restore] *)

(** [restorer.OverwriteBehavior] and [restorer.Options] with the fields
    [Restore] sets. *)
Inductive restorer_OverwriteBehavior : Type :=
| OverwriteAlways
| OverwriteIfNewer.

Record restorer_Options := {
  rs_DryRun : bool;
  rs_Overwrite : restorer_OverwriteBehavior;
  rs_Delete : bool
}.

Section RestoreRun.

Variable Match : string -> string -> bool.
Variable Base : string -> string.
Variable restic_ParseID : string -> string + error.
Variable data_LoadSnapshot : repositoryImpl -> string -> data_Snapshot + error.

(** [res.RestoreTo] of the restorer made for a snapshot with the options
    and the [SelectFilter] installed ([None] when none is); it returns the
    repository as it leaves it and the number of files restored. *)
Variable res_RestoreTo :
  repositoryImpl -> data_Snapshot -> restorer_Options ->
  option (string -> bool -> bool * bool) -> string ->
  repositoryImpl * (Z + error).

(** [Restore], called with no progress reporter. *)
Definition Restore (r : repositoryImpl) (snapshotID : string)
    (opts : RestoreOptions) : repositoryImpl * option error :=
  match restic_ParseID snapshotID with
  | inr err => (r, Some ("invalid snapshot ID: " ++ err))
  | inl id =>
      match data_LoadSnapshot r id with
      | inr err => (r, Some ("failed to load snapshot: " ++ err))
      | inl sn =>
          match repo_LoadIndexErr r with
          | Some err => (r, Some ("failed to load index: " ++ err))
          | None =>
              let restorerOpts :=
                {| rs_DryRun := ro_DryRun opts;
                   rs_Overwrite :=
                     if ro_Overwrite opts then OverwriteAlways
                     else OverwriteIfNewer;
                   rs_Delete := ro_Delete opts |} in
              match res_RestoreTo r sn restorerOpts
                      (restoreSelectFilter Match Base opts)
                      (ro_TargetDir opts) with
              | (r, inr err) => (r, Some ("restore failed: " ++ err))
              | (r, inl filesRestored) => (r, None)
              end
          end
      end
  end.

End RestoreRun.

(** A [data.LoadSnapshot] that finds the snapshot files of the repository
    that load. *)
Definition loadListed (r : repositoryImpl) (id : string)
    : data_Snapshot + error :=
  match List.find (fun f => String.eqb (fst f) id) (repo_SnapshotFiles r) with
  | Some (_, Some sn) => inl sn
  | _ => inr "snapshot not found"
  end.

(** A restorer that restores nothing. *)
Definition sample_RestoreTo (r : repositoryImpl) (sn : data_Snapshot)
    (opts : restorer_Options)
    (filter : option (string -> bool -> bool * bool)) (target : string)
    : repositoryImpl * (Z + error) :=
  (r, inl 0%Z).

(** A [filepath.Abs] in the working directory [/work]. *)
Definition absInWork (path : string) : string + error :=
  match path with
  | String "/" _ => inl path
  | _ => inl ("/work/" ++ path)
  end.

(** A [filepath.Abs] for a process whose working directory is gone:
    absolute paths resolve to themselves, the others fail. *)
Definition absWithoutCwd (path : string) : string + error :=
  match path with
  | String "/" _ => inl path
  | _ => inr "getwd: no such file or directory"
  end.

(** An archiver that stores nothing and names the paths it was given. *)
Definition sample_Snapshot (r : repositoryImpl) (select : string -> bool)
    (paths : list string) (opts : archiver_SnapshotOptions)
    : repositoryImpl * (string + error) :=
  (r, inl (sampleID (length paths))).

(** A backup of two absolute paths and a relative one between them. *)
Definition backupThreePaths : BackupOptions :=
  {| bo_Paths := ["/srv"; "data"; "/home"]; bo_Tags := [];
     bo_Excludes := []; bo_Includes := [];
     bo_ParentID := None; bo_DryRun := false |}.

(** The handle a call is made on, for the calls that take one. *)
Definition handleOf (c : Call) : option Z :=
  match c with
  | call_init _ _ _ _ _ _ | call_open _ _ _ _ _ _ => None
  | call_backup h _ _ _ _ | call_restore h _ _ | call_list_snapshots h
  | call_check h | call_close h => Some h
  end.

(** The handle of the call, a [C.int] parameter, is a value of that
    type. *)
Definition handleInRange (c : Call) : Prop :=
  forall h, handleOf c = Some h -> is_C_int h.

(** Two repositories are opened, the first is closed and a third is
    opened. *)
Definition openCloseOpen : list Call :=
  [sample_call_open; sample_call_open; call_close 1; sample_call_open].

(** [ResticLib::Config] of the C++ wrapper. *)
Record cpp_Config := {
  cpp_repoUrl : string;
  cpp_backend : string;
  cpp_password : string;
  cpp_accessKey : string;
  cpp_secretKey : string;
  cpp_parallelism : Z
}.

(** [s.c_str()] as the bridge reads it with [C.GoString]: the bytes of the
    [std::string] before its first NUL. *)
Definition c_str (s : string) : string := uptoNUL s.

(** [s.empty() ? nullptr : s.c_str()]. *)
Definition c_str_or_null (s : string) : option string :=
  if (String.length s =? 0)%nat then None else Some (c_str s).

Section CppRepository.

Variable C_malloc : CHeap -> Z.
Variable createRepository : Config -> option repositoryImpl.
Variable openRepository : Config -> option repositoryImpl.

(** The constructor of [ResticLib::Repository]: the result is the value of
    [repo_id_], or the exception thrown. *)
Definition Repository_new (st : Bridge) (heap : CHeap) (config : cpp_Config)
    (init_repo : bool) : option (Bridge * CHeap * (Z + cpp_exception)) :=
  let access_key := c_str_or_null (cpp_accessKey config) in
  let secret_key := c_str_or_null (cpp_secretKey config) in
  let '(st, result) :=
    if init_repo
    then restic_init createRepository st (Some (c_str (cpp_repoUrl config)))
           (Some (c_str (cpp_backend config)))
           (Some (c_str (cpp_password config)))
           access_key secret_key (cpp_parallelism config)
    else restic_open openRepository st (Some (c_str (cpp_repoUrl config)))
           (Some (c_str (cpp_backend config)))
           (Some (c_str (cpp_password config)))
           access_key secret_key (cpp_parallelism config) in
  if (result <? 0)%Z then
    match throwResticException C_malloc heap result with
    | None => None
    | Some (heap, e) => Some (st, heap, inr e)
    end
  else Some (st, heap, inl result).

End CppRepository.

(** The destructor of [ResticLib::Repository]. *)
Definition Repository_delete (st : Bridge) (repo_id_ : Z) : Bridge :=
  if (0 <=? repo_id_)%Z then fst (restic_close st repo_id_) else st.

(** The wrapper's configuration of the sample location. *)
Definition sampleCppConfig : cpp_Config :=
  {| cpp_repoUrl := "/srv/repo"; cpp_backend := "local";
     cpp_password := "secret"; cpp_accessKey := ""; cpp_secretKey := "";
     cpp_parallelism := 4 |}.

(** A configuration whose password has a NUL as its first byte. *)
Definition nulPasswordConfig : cpp_Config :=
  {| cpp_repoUrl := "/srv/repo"; cpp_backend := "local";
     cpp_password := String Ascii.zero "x"; cpp_accessKey := "";
     cpp_secretKey := ""; cpp_parallelism := 4 |}.

(* ================================================================== *)
(** * Properties *)

(** ** Path selection *)

Section PathSelectionFacts.

Variable Match : string -> string -> bool.
Variable Base : string -> string.

Lemma restoreIncludeLoop_existsb item patterns :
  restoreIncludeLoop Match Base item patterns false
  = existsb (matchesEither Match Base item) patterns.
Proof.
  induction patterns as [|p ps IH]; simpl; [reflexivity|].
  unfold matchesEither at 1.
  destruct (Match p item); simpl; [reflexivity|].
  destruct (Match p (Base item)); simpl; [reflexivity|exact IH].
Qed.

Lemma restoreExcludeLoop_existsb item patterns :
  restoreExcludeLoop Match Base item patterns
  = if existsb (matchesEither Match Base item) patterns
    then Some (false, false) else None.
Proof.
  induction patterns as [|p ps IH]; simpl; [reflexivity|].
  unfold matchesEither at 1.
  destruct (Match p item); simpl; [reflexivity|].
  destruct (Match p (Base item)); simpl; [reflexivity|exact IH].
Qed.

Lemma backupIncludeLoop_existsb item patterns :
  backupIncludeLoop Match Base item patterns false
  = existsb (matchesBase Match Base item) patterns.
Proof.
  induction patterns as [|p ps IH]; simpl; [reflexivity|].
  unfold matchesBase at 1.
  destruct (Match p (Base item)); simpl; [reflexivity|exact IH].
Qed.

Lemma backupExcludeLoop_existsb item patterns :
  backupExcludeLoop Match Base item patterns
  = if existsb (matchesBase Match Base item) patterns
    then Some false else None.
Proof.
  induction patterns as [|p ps IH]; simpl; [reflexivity|].
  unfold matchesBase at 1.
  destruct (Match p (Base item)); simpl; [reflexivity|exact IH].
Qed.

(** [selectFilter], the filter of [Restore], returns [(false, true)] when
    the include list is non-empty and the item matches none of its patterns;
    otherwise [(false, false)] when the item matches some exclude pattern;
    otherwise [(true, true)].  The directory flag plays no part. *)
Lemma selectFilter_include_then_exclude
    (includePatterns excludePatterns : list string) (item : string)
    (isDir : bool) :
  selectFilter Match Base includePatterns excludePatterns item isDir
  = if (0 <? length includePatterns)%nat
       && negb (existsb (matchesEither Match Base item) includePatterns)
    then (false, true)
    else if existsb (matchesEither Match Base item) excludePatterns
    then (false, false)
    else (true, true).
Proof.
  unfold selectFilter.
  rewrite restoreExcludeLoop_existsb.
  destruct (0 <? length includePatterns)%nat eqn:Hlen; simpl.
  - rewrite restoreIncludeLoop_existsb.
    destruct (existsb (matchesEither Match Base item) includePatterns); simpl;
      [|reflexivity].
    destruct (existsb (matchesEither Match Base item) excludePatterns);
      reflexivity.
  - destruct (existsb (matchesEither Match Base item) excludePatterns);
      reflexivity.
Qed.

(** The filter of [Backup] takes the same two phases for its one result,
    with patterns matched against the final path component only. *)
Lemma SelectByName_two_phases (opts : BackupOptions) (item : string) :
  SelectByName Match Base opts item
  = fst (twoPhase (matchesBase Match Base item)
           (bo_Includes opts) (bo_Excludes opts)).
Proof.
  unfold SelectByName, twoPhase.
  rewrite backupExcludeLoop_existsb.
  destruct (0 <? length (bo_Includes opts))%nat; simpl.
  - rewrite backupIncludeLoop_existsb.
    destruct (existsb (matchesBase Match Base item) (bo_Includes opts)); simpl;
      [|reflexivity].
    destruct (existsb (matchesBase Match Base item) (bo_Excludes opts));
      reflexivity.
  - destruct (existsb (matchesBase Match Base item) (bo_Excludes opts));
      reflexivity.
Qed.

(** [Restore] installs the filter exactly when a list is non-empty, and the
    filter it leaves out would select everything. *)
Lemma restoreSelectFilter_installed (opts : RestoreOptions) item isDir :
  match restoreSelectFilter Match Base opts with
  | Some f =>
      f item isDir
      = twoPhase (matchesEither Match Base item)
          (ro_Includes opts) (ro_Excludes opts)
  | None =>
      twoPhase (matchesEither Match Base item)
        (ro_Includes opts) (ro_Excludes opts) = (true, true)
  end.
Proof.
  unfold restoreSelectFilter, twoPhase.
  destruct (ro_Includes opts) as [|i is_], (ro_Excludes opts) as [|e es];
    cbn [length Nat.ltb Nat.leb orb andb existsb negb];
    try reflexivity;
    unfold selectFilter;
    cbn [length Nat.ltb Nat.leb negb];
    rewrite ?restoreIncludeLoop_existsb, restoreExcludeLoop_existsb;
    cbn [existsb];
    repeat match goal with
           | |- context [if ?b then _ else _] => destruct b; cbn [negb]
           end;
    reflexivity.
Qed.

End PathSelectionFacts.

(** The examples of the specification, on the filter of [Restore]. *)
Example selectFilter_txt_selected :
  selectFilter filepath_Match filepath_Base ["*.txt"] [] "a.txt" false
  = (true, true).
Proof. reflexivity. Qed.

Example selectFilter_log_skipped :
  selectFilter filepath_Match filepath_Base ["*.txt"] [] "a.log" false
  = (false, true).
Proof. reflexivity. Qed.

Example selectFilter_secret_pruned :
  selectFilter filepath_Match filepath_Base [] ["secret/*"] "secret/x" false
  = (false, false).
Proof. reflexivity. Qed.

(** C2.  The filter of [Backup] does not tell an item that misses the
    include list from an excluded one.  [SelectByName] has a single result,
    the first component of the two-phase decision taken on the final path
    component, so that the answer to a miss of the include list is the
    answer to a hit of the exclude list: [false].  With the include pattern
    [*.txt] and the exclude pattern [draft*], the directory
    [/home/user/docs] is rejected like the excluded file
    [/home/user/draft.txt], although [/home/user/docs/notes.txt] below it
    would be selected; [selectFilter] of [Restore], which returns the pair
    for every input, answers [(false, true)] for the directory and
    [(false, false)] for the excluded file. *)
Theorem SelectByName_include_miss_prunes :
  (forall Match Base opts item,
     SelectByName Match Base opts item
     = fst (twoPhase (matchesBase Match Base item)
              (bo_Includes opts) (bo_Excludes opts)))
  /\ (forall Match Base includePatterns excludePatterns item isDir,
        selectFilter Match Base includePatterns excludePatterns item isDir
        = twoPhase (matchesEither Match Base item)
            includePatterns excludePatterns)
  /\ SelectByName filepath_Match filepath_Base includeTxt "/home/user/docs"
     = false
  /\ SelectByName filepath_Match filepath_Base includeTxt
       "/home/user/draft.txt" = false
  /\ SelectByName filepath_Match filepath_Base includeTxt
       "/home/user/docs/notes.txt" = true
  /\ selectFilter filepath_Match filepath_Base
       (bo_Includes includeTxt) (bo_Excludes includeTxt)
       "/home/user/docs" true = (false, true)
  /\ selectFilter filepath_Match filepath_Base
       (bo_Includes includeTxt) (bo_Excludes includeTxt)
       "/home/user/draft.txt" false = (false, false).
Proof.
  split; [intros; apply SelectByName_two_phases|].
  split; [intros; apply selectFilter_include_then_exclude|].
  repeat split; reflexivity.
Qed.

(** C4.  The filter of [Backup] does not match a pattern against the full
    path: with the exclude pattern [secret/*], which matches the full path
    [secret/x], [SelectByName] selects the item, while [selectFilter] of
    [Restore] prunes it. *)
Theorem SelectByName_misses_full_path_match :
  filepath_Match "secret/*" "secret/x" = true
  /\ SelectByName filepath_Match filepath_Base excludeSecret "secret/x" = true
  /\ selectFilter filepath_Match filepath_Base [] ["secret/*"] "secret/x" false
     = (false, false).
Proof. repeat split; reflexivity. Qed.

(** The exclude pattern [*/tmp/*] of the README's backup example matches no
    final path component, so that [SelectByName] selects what it is meant
    to exclude. *)
Example SelectByName_readme_exclude :
  filepath_Match "*/tmp/*" "user/tmp/scratch" = true
  /\ SelectByName filepath_Match filepath_Base readmeBackup "user/tmp/scratch"
     = true
  /\ SelectByName filepath_Match filepath_Base readmeBackup "user/a.cache"
     = false.
Proof. repeat split; reflexivity. Qed.

(** Lines of the table of Go's test of [Match]: stars that cannot cross a
    separator, a class, an escaped star, a range that is malformed, and a
    [?] that takes a rune of three bytes. *)
Example filepath_Match_table :
  map (fun t => filepath_Match (fst t) (snd t))
    [("a*b*c*d*e*/f", "axbxcxdxexxx/f"); ("a*b*c*d*e*/f", "axbxcxdxe/xxx/f");
     ("a*b?c*x", "abxbbxdbxebxczzy"); ("ab[^e-g]", "abc"); ("a\*b", "a*b");
     ("[x\-]", "z"); ("[a-b-c]", "a"); ("a?b", "a/b"); ("*x", "xxx");
     ("a?b",
      String "a" (String (ascii_of_nat 226) (String (ascii_of_nat 152)
        (String (ascii_of_nat 186) "b"))));
     ("a???b",
      String "a" (String (ascii_of_nat 226) (String (ascii_of_nat 152)
        (String (ascii_of_nat 186) "b"))))]
  = [true; false; false; true; true; false; false; false; true; true; false].
Proof. vm_compute. reflexivity. Qed.

(** ** Machine integers *)

Lemma C_int_ResticRepo (x : Z) : C_int (ResticRepo x) = C_int x.
Proof.
  unfold C_int, ResticRepo, wrap_signed, wrap_unsigned.
  f_equal.
  change (2 ^ 64)%Z with (2 ^ 32 * 2 ^ 32)%Z.
  change (32 - 1)%Z with 31%Z.
  rewrite <- (Zplus_mod_idemp_l (x mod (2 ^ 32 * 2 ^ 32)) (2 ^ 31) (2 ^ 32)).
  rewrite <- (Zplus_mod_idemp_l x (2 ^ 31) (2 ^ 32)).
  f_equal. f_equal.
  rewrite Z.rem_mul_r by lia.
  rewrite (Z.mul_comm (2 ^ 32)), Z.mod_add by lia.
  apply Z.mod_mod. lia.
Qed.

Lemma C_int_id (x : Z) : is_C_int x -> C_int x = x.
Proof.
  unfold is_C_int, INT_MIN, INT_MAX, C_int, wrap_signed. intros H.
  change (32 - 1)%Z with 31%Z.
  rewrite Z.mod_small; lia.
Qed.

Lemma C_int_of_ResticRepo (h : Z) : is_C_int h -> C_int (ResticRepo h) = h.
Proof. intros H. rewrite C_int_ResticRepo. exact (C_int_id h H). Qed.

Lemma ResticRepo_succ_neq (n : Z) : ResticRepo (n + 1) <> n.
Proof.
  unfold ResticRepo, wrap_unsigned. intros E.
  assert (Hr := Z.mod_pos_bound (n + 1) (2 ^ 64) ltac:(lia)).
  assert (Hn : (0 <= n < 2 ^ 64)%Z) by lia.
  destruct (Z.eq_dec n (2 ^ 64 - 1)%Z) as [->|Hne].
  - vm_compute in E. discriminate.
  - rewrite Z.mod_small in E by lia. lia.
Qed.

(** ** Listing snapshots *)

Lemma loadAllSnapshots_omap files acc :
  loadAllSnapshots files acc = (acc ++ omap snd files)%list.
Proof.
  revert acc. induction files as [|[id [sn|]] files IH]; intros acc; simpl.
  - now rewrite app_nil_r.
  - rewrite IH, <- app_assoc. reflexivity.
  - apply IH.
Qed.

Lemma applyLimit_firstn limit (l : list data_Snapshot) :
  applyLimit limit l
  = if (0 <? limit)%Z then firstn (Z.to_nat limit) l else l.
Proof.
  unfold applyLimit.
  destruct (0 <? limit)%Z eqn:Hpos; simpl; [|reflexivity].
  destruct (limit <? Z.of_nat (length l))%Z eqn:Hlt; [reflexivity|].
  symmetry. apply firstn_all2.
  apply Z.ltb_ge in Hlt. lia.
Qed.

(** The [less] of [Snapshots] describes a transitive ordering, and a slice
    sorted by it has no snapshot before a newer one. *)
Lemma newerFirst_ordering : transitiveOrdering newerFirst.
Proof.
  unfold transitiveOrdering, newerFirst. repeat split.
  - intros x. rewrite Z.gtb_ltb. apply Z.ltb_irrefl.
  - intros x y z Hxy Hyz. rewrite Z.gtb_ltb, Z.ltb_lt in *. lia.
  - intros x y z Hxy Hyz. rewrite Z.gtb_ltb, Z.ltb_ge in *. lia.
Qed.

Lemma sortedBy_newerFirst (l : list data_Snapshot) :
  sortedBy newerFirst l -> StronglySorted notOlder l.
Proof.
  unfold sortedBy. induction 1 as [|x l Hs IH Hx]; constructor; [exact IH|].
  rewrite List.Forall_forall in Hx |- *. intros y Hy.
  specialize (Hx y Hy). unfold newerFirst, notOlder in *.
  rewrite Z.gtb_ltb, Z.ltb_ge in Hx. exact Hx.
Qed.

(** The insertion sort keeps the contract of [sort.Slice]. *)
Lemma insertBy_perm less sn l : Permutation (insertBy less sn l) (sn :: l).
Proof.
  induction l as [|x l IH]; simpl; [reflexivity|].
  destruct (less x sn); [|reflexivity].
  rewrite IH. apply perm_swap.
Qed.

Lemma stable_sort_Slice_permutes :
  forall (less : data_Snapshot -> data_Snapshot -> bool) l,
    Permutation (stable_sort_Slice less l) l.
Proof.
  intros less l. induction l as [|sn l IH]; simpl; [reflexivity|].
  rewrite insertBy_perm. now constructor.
Qed.

Lemma insertBy_sorted less sn l :
  transitiveOrdering less -> sortedBy less l -> sortedBy less (insertBy less sn l).
Proof.
  intros (Hirr & Htrans & Hneg). unfold sortedBy.
  induction 1 as [|x l Hs IH Hx]; simpl.
  - constructor; constructor.
  - destruct (less x sn) eqn:Hless.
    + constructor; [exact IH|].
      rewrite List.Forall_forall in Hx |- *. intros y Hy.
      apply (Permutation_in _ (insertBy_perm less sn l)) in Hy.
      destruct Hy as [<-|Hy]; [|now apply Hx].
      destruct (less sn x) eqn:Hback; [|reflexivity].
      rewrite <- (Hirr x). symmetry. now apply Htrans with sn.
    + constructor; [now constructor|].
      constructor; [exact Hless|].
      rewrite List.Forall_forall in Hx |- *. intros y Hy.
      apply Hneg with x; [now apply Hx|exact Hless].
Qed.

Lemma stable_sort_Slice_sorts :
  forall (less : data_Snapshot -> data_Snapshot -> bool) l,
    transitiveOrdering less -> sortedBy less (stable_sort_Slice less l).
Proof.
  intros less l Hless. induction l as [|sn l IH]; simpl; [constructor|].
  now apply insertBy_sorted.
Qed.

(** Under the [less] of [Snapshots] the insertion sort gives the stable
    listing of the specification, and on the ten sample snapshots, a slice
    short enough for [sort.Slice] to sort it by insertion, it gives what
    [sort.Slice] gives. *)
Lemma insertBy_newerFirst (sn : data_Snapshot) (sorted : list data_Snapshot) :
  insertBy newerFirst sn sorted = insertNewestFirst sn sorted.
Proof.
  induction sorted as [|x sorted IH]; simpl; [reflexivity|].
  unfold newerFirst at 1. rewrite Z.gtb_ltb, Z.geb_leb, Z.ltb_antisym.
  destruct (sn_Time x <=? sn_Time sn)%Z; simpl; [reflexivity|].
  now rewrite IH.
Qed.

Lemma stable_sort_Slice_newerFirst (l : list data_Snapshot) :
  stable_sort_Slice newerFirst l = stableNewestFirst l.
Proof.
  induction l as [|sn l IH]; simpl; [reflexivity|].
  now rewrite IH, insertBy_newerFirst.
Qed.

Example stable_sort_Slice_ten :
  stable_sort_Slice newerFirst tenSnapshots
  = go_sort_Slice newerFirst tenSnapshots.
Proof. vm_compute. reflexivity. Qed.

Section ListingFacts.

Variable time_Parse : string -> option Z.
Variable time_Format : Z -> Z -> string.
Variable sort_Slice :
  (data_Snapshot -> data_Snapshot -> bool) -> list data_Snapshot ->
  list data_Snapshot.

Lemma filterLoop_filter filter all acc :
  filterLoop time_Parse filter all acc
  = (acc ++ List.filter (fun sn => matchesFilter time_Parse sn filter) all)%list.
Proof.
  revert acc. induction all as [|sn all IH]; intros acc; simpl.
  - now rewrite app_nil_r.
  - destruct (matchesFilter time_Parse sn filter).
    + rewrite IH, <- app_assoc. reflexivity.
    + apply IH.
Qed.

(** The all-empty filter matches every snapshot. *)
Lemma matchesFilter_empty sn : matchesFilter time_Parse sn emptyFilter = true.
Proof. reflexivity. Qed.

(** C8.  A [Since] or [Until] value that [time.Parse] rejects is treated as
    absent: the predicate gives what it gives for the filter without that
    bound, so that no snapshot is excluded on account of it. *)
Theorem matchesFilter_malformed_bound_absent
    (sn : data_Snapshot) (filter : SnapshotFilter) (s : string) :
  time_Parse s = None ->
  (sf_Since filter = Some s ->
   matchesFilter time_Parse sn filter
   = matchesFilter time_Parse sn (withSince filter None))
  /\ (sf_Until filter = Some s ->
      matchesFilter time_Parse sn filter
      = matchesFilter time_Parse sn (withUntil filter None)).
Proof.
  intros Hparse. split; intros Hs;
    unfold matchesFilter, sinceCheck, untilCheck, withSince, withUntil;
    cbn [sf_Hosts sf_Paths sf_Tags sf_Since sf_Until sf_Limit];
    rewrite Hs, Hparse; reflexivity.
Qed.

(** What [sort.Slice] promises, for every [less]: the slice is rearranged,
    and when [less] describes a transitive ordering no element stands
    afterwards before one that must sort before it.  The order it leaves
    among elements of which neither must sort before the other is not
    promised. *)
Hypothesis sort_Slice_permutes :
  forall less l, Permutation (sort_Slice less l) l.
Hypothesis sort_Slice_sorts :
  forall less l, transitiveOrdering less -> sortedBy less (sort_Slice less l).

(** C3, as the code has it.  When the listing of the repository succeeds,
    [Snapshots] returns the snapshots that load and match the filter as
    [sort.Slice] leaves them under the [less] of the code, the time of the
    first being after the time of the second: sorted by time with the newest
    first, in some order among snapshots of equal time, and cut to the
    first [Limit] of them exactly when [Limit > 0]. *)
Theorem Snapshots_newest_first_limited
    (r : repositoryImpl) (filter : SnapshotFilter) :
  repo_ListSnapshotsErr r = None ->
  let sorted :=
    sort_Slice newerFirst
      (List.filter (fun sn => matchesFilter time_Parse sn filter)
         (loadedSnapshots r)) in
  Permutation sorted
    (List.filter (fun sn => matchesFilter time_Parse sn filter)
       (loadedSnapshots r))
  /\ StronglySorted notOlder sorted
  /\ Snapshots time_Parse time_Format sort_Slice r filter
     = (map (convertSnapshot time_Format)
          (if (0 <? sf_Limit filter)%Z
           then firstn (Z.to_nat (sf_Limit filter)) sorted
           else sorted),
        None).
Proof.
  intros Hlist sorted.
  split; [apply sort_Slice_permutes|].
  split; [apply sortedBy_newerFirst, sort_Slice_sorts, newerFirst_ordering|].
  unfold Snapshots, listedSnapshots. rewrite Hlist.
  rewrite loadAllSnapshots_omap, filterLoop_filter, applyLimit_firstn.
  reflexivity.
Qed.

End ListingFacts.

Lemma matchesFilter_malformed_bound_absent_witness :
  matchesFilter parseUTC (sampleSnapshot 1 newYear2024 "h1" ["/data"] [])
    sinceYesterday
  = matchesFilter parseUTC (sampleSnapshot 1 newYear2024 "h1" ["/data"] [])
      (withSince sinceYesterday None)
  /\ matchesFilter parseUTC (sampleSnapshot 1 newYear2024 "h1" ["/data"] [])
       sinceYesterday
     = matchesFilter parseUTC (sampleSnapshot 1 newYear2024 "h1" ["/data"] [])
         (withUntil sinceYesterday None).
Proof.
  destruct (matchesFilter_malformed_bound_absent parseUTC
              (sampleSnapshot 1 newYear2024 "h1" ["/data"] [])
              sinceYesterday "yesterday" eq_refl) as [Hsince Huntil].
  split; [apply Hsince | apply Huntil]; reflexivity.
Defined.

(** A well-formed bound is applied. *)
Example matchesFilter_since_applied :
  matchesFilter parseUTC (sampleSnapshot 1 newYear2024 "h1" ["/data"] [])
    (withSince emptyFilter (Some "2024-06-01T00:00:00Z")) = false.
Proof. reflexivity. Qed.

(** A time is shown in the zone it is stored with. *)
Example formatRFC3339_zones :
  map (formatRFC3339 newYear2024) [0; 7200; -19800]%Z
  = ["2024-01-01T00:00:00Z"; "2024-01-01T02:00:00+02:00";
     "2023-12-31T18:30:00-05:30"].
Proof. vm_compute. reflexivity. Qed.

(** A filter on hosts. *)
Example matchesFilter_other_host :
  matchesFilter parseUTC (sampleSnapshot 1 newYear2024 "h2" ["/data"] [])
    {| sf_Hosts := ["h1"]; sf_Paths := []; sf_Tags := [];
       sf_Since := None; sf_Until := None; sf_Limit := 0 |} = false.
Proof. reflexivity. Qed.

Lemma Snapshots_newest_first_limited_witness :
  let sorted :=
    stable_sort_Slice newerFirst
      (List.filter (fun sn => matchesFilter parseUTC sn limitTwo)
         (loadedSnapshots (sampleRepository tenSnapshots))) in
  Permutation sorted
    (List.filter (fun sn => matchesFilter parseUTC sn limitTwo)
       (loadedSnapshots (sampleRepository tenSnapshots)))
  /\ StronglySorted notOlder sorted
  /\ Snapshots parseUTC formatRFC3339 stable_sort_Slice
       (sampleRepository tenSnapshots) limitTwo
     = (map (convertSnapshot formatRFC3339)
          (if (0 <? sf_Limit limitTwo)%Z
           then firstn (Z.to_nat (sf_Limit limitTwo)) sorted
           else sorted),
        None).
Proof.
  apply (Snapshots_newest_first_limited parseUTC formatRFC3339 stable_sort_Slice
           stable_sort_Slice_permutes stable_sort_Slice_sorts
           (sampleRepository tenSnapshots) limitTwo).
  reflexivity.
Defined.

(** With [Limit = 2] on ten matching snapshots the listing has the two
    newest. *)
Example Snapshots_limit_two :
  map Time (fst (Snapshots parseUTC formatRFC3339 (@go_sort_Slice data_Snapshot)
                   (sampleRepository tenSnapshots) limitTwo))
  = ["2024-01-01T09:00:00Z"; "2024-01-01T08:00:00Z"].
Proof. vm_compute. reflexivity. Qed.

(** C3, against the code.  [sort.Slice] on thirteen snapshots, of which the
    first twelve have the same time: the snapshot listed seventh comes out
    second, before the six listed ahead of it, so that the result is not the
    stable listing of the specification. *)
Lemma Snapshots_reorders_equal_times :
  map ID (fst (Snapshots parseUTC formatRFC3339 (@go_sort_Slice data_Snapshot)
                 (sampleRepository thirteenSnapshots) emptyFilter))
  = ["0c0c0c0c"; "06060606"; "02020202"; "03030303"; "04040404"; "05050505";
     "00000000"; "07070707"; "08080808"; "09090909"; "0a0a0a0a"; "0b0b0b0b";
     "01010101"]
  /\ fst (Snapshots parseUTC formatRFC3339 (@go_sort_Slice data_Snapshot)
            (sampleRepository thirteenSnapshots) emptyFilter)
     <> map (convertSnapshot formatRFC3339)
          (spec_listedSnapshots parseUTC
             (sampleRepository thirteenSnapshots) emptyFilter).
Proof.
  split; [vm_compute; reflexivity|].
  intros H. apply (f_equal (map ID)) in H. vm_compute in H. discriminate H.
Qed.

(** ** Retention *)

Lemma Empty_true_iff (p : ForgetPolicy) : Empty p = true <-> allFieldsZero p.
Proof.
  unfold Empty, allFieldsZero.
  rewrite !andb_true_iff, !Z.eqb_eq, Nat.eqb_eq.
  destruct (KeepWithin p), (KeepTags p); simpl; intuition congruence.
Qed.

Lemma removeSnapshotFile_keeps (r : repositoryImpl) (id : string)
    (f : string * option data_Snapshot) :
  In f (repo_SnapshotFiles r) -> fst f <> id ->
  In f (repo_SnapshotFiles (removeSnapshotFile r id)).
Proof.
  intros Hin Hne. unfold removeSnapshotFile; simpl.
  apply filter_In. split; [exact Hin|].
  apply negb_true_iff, String.eqb_neq. exact Hne.
Qed.

(** An id reported by the removal loop was reported before or belongs to a
    snapshot of the list it removes; the files of other ids stay. *)
Lemma removeLoop_only_candidates (remove : list data_Snapshot) :
  forall r removedIDs,
    (forall id, In id (snd (removeLoop remove r removedIDs)) ->
       In id removedIDs \/ exists sn, In sn remove /\ sn_ID sn = id)
    /\ (forall f, In f (repo_SnapshotFiles r) ->
          (forall sn, In sn remove -> sn_ID sn <> fst f) ->
          In f (repo_SnapshotFiles (fst (removeLoop remove r removedIDs)))).
Proof.
  induction remove as [|sn remove IH]; intros r removedIDs; simpl.
  - split; [intros id Hid; now left | intros f Hf _; exact Hf].
  - destruct (repo_RemoveErr r (sn_ID sn)) as [err|].
    + destruct (IH r removedIDs) as [IHids IHfiles]. split.
      * intros id Hid. destruct (IHids id Hid) as [Hold|(x & Hx & Hxid)];
          [now left | right; exists x; auto].
      * intros f Hf Hother. apply IHfiles; auto.
    + destruct (IH (removeSnapshotFile r (sn_ID sn))
                  (removedIDs ++ [sn_ID sn])%list) as [IHids IHfiles]. split.
      * intros id Hid. destruct (IHids id Hid) as [Hold|(x & Hx & Hxid)].
        -- apply in_app_or in Hold. destruct Hold as [Hold|[<-|[]]];
             [now left | right; exists sn; auto].
        -- right; exists x; auto.
      * intros f Hf Hother. apply IHfiles; [|auto].
        apply removeSnapshotFile_keeps; [exact Hf|].
        intros E. apply (Hother sn); auto.
Qed.

Section RetentionFacts.

Variable Duration : Type.
Variable zeroDuration : Duration.
Variable data_ParseDuration : string -> Duration + error.
Variable data_GroupSnapshots :
  list data_Snapshot -> list (list data_Snapshot) * option error.
Variable data_ApplyPolicy :
  list data_Snapshot -> data_ExpirePolicy Duration ->
  list data_Snapshot * list data_Snapshot.

(** The functions of [Forget] with the collaborators of this section. *)
Local Abbreviation policyOf :=
  (internalPolicy Duration zeroDuration data_ParseDuration).
Local Abbreviation groupsLoop :=
  (forgetGroups Duration zeroDuration data_ParseDuration data_ApplyPolicy).
Local Abbreviation forget :=
  (Forget Duration zeroDuration data_ParseDuration data_GroupSnapshots
     data_ApplyPolicy).

(** C7.  A policy with every keep count zero, [KeepWithin] absent and
    [KeepTags] empty is exactly a policy for which [Empty] returns true, and
    [Forget] called with it returns the error [forget policy is empty],
    with no id removed and the repository as it was. *)
Theorem Forget_rejects_empty_policy (r : repositoryImpl) (policy : ForgetPolicy) :
  allFieldsZero policy ->
  (forall q, Empty q = true <-> allFieldsZero q)
  /\ forget r policy = (r, ([], Some "forget policy is empty")).
Proof.
  intros Hzero. split; [exact Empty_true_iff|].
  unfold Forget.
  apply Empty_true_iff in Hzero. rewrite Hzero. reflexivity.
Qed.

(** A group with an empty keep set and a non-empty removal set does not
    change the course of the loop. *)
Lemma forgetGroups_skips (policy : ForgetPolicy) (p : data_ExpirePolicy Duration)
    (group remove : list data_Snapshot) (after : list (list data_Snapshot)) :
  policyOf policy = inl p ->
  data_ApplyPolicy group p = ([], remove) ->
  remove <> [] ->
  forall before r removedIDs,
    groupsLoop policy (before ++ group :: after)%list r removedIDs
    = groupsLoop policy (before ++ after)%list r removedIDs.
Proof.
  intros Hp Happly Hremove before.
  induction before as [|g before IH]; intros r removedIDs; simpl.
  - rewrite Hp, Happly.
    destruct remove as [|sn remove]; [congruence|reflexivity].
  - rewrite Hp. destruct (data_ApplyPolicy g p) as [keep rem].
    destruct ((length keep =? 0)%nat && (0 <? length rem)%nat); [apply IH|].
    destruct (removeLoop rem r removedIDs) as [r' removed']. apply IH.
Qed.

(** The ids [forgetGroups] reports come from the removal sets of its groups,
    and the files of other ids stay. *)
Lemma forgetGroups_only_candidates (policy : ForgetPolicy)
    (p : data_ExpirePolicy Duration) :
  policyOf policy = inl p ->
  forall groups r removedIDs,
    (forall id, In id (fst (snd (groupsLoop policy groups r removedIDs))) ->
       In id removedIDs
       \/ exists g sn, In g groups /\ In sn (snd (data_ApplyPolicy g p))
                       /\ sn_ID sn = id)
    /\ (forall f, In f (repo_SnapshotFiles r) ->
          (forall g sn, In g groups -> In sn (snd (data_ApplyPolicy g p)) ->
                        sn_ID sn <> fst f) ->
          In f (repo_SnapshotFiles (fst (groupsLoop policy groups r removedIDs)))).
Proof.
  intros Hp groups.
  induction groups as [|g groups IH]; intros r removedIDs; simpl.
  - split; [intros id Hid; now left | intros f Hf _; exact Hf].
  - rewrite Hp. destruct (data_ApplyPolicy g p) as [keep rem] eqn:Hg.
    destruct ((length keep =? 0)%nat && (0 <? length rem)%nat).
    + destruct (IH r removedIDs) as [IHids IHfiles]. split.
      * intros id Hid.
        destruct (IHids id Hid) as [Hold|(g' & sn & Hg' & Hsn & Hsnid)];
          [now left | right; exists g', sn; auto].
      * intros f Hf Hother. apply IHfiles; [exact Hf|].
        intros g' sn Hg' Hsn. apply (Hother g' sn); auto.
    + destruct (removeLoop_only_candidates rem r removedIDs) as [Lids Lfiles].
      destruct (removeLoop rem r removedIDs) as [r' removed'] eqn:Hloop.
      simpl in Lids, Lfiles.
      destruct (IH r' removed') as [IHids IHfiles]. split.
      * intros id Hid.
        destruct (IHids id Hid) as [Hold|(g' & sn & Hg' & Hsn & Hsnid)].
        -- destruct (Lids id Hold) as [Holder|(sn & Hsn & Hsnid)];
             [now left|].
           right; exists g, sn. rewrite Hg. auto.
        -- right; exists g', sn; auto.
      * intros f Hf Hother. apply IHfiles.
        -- apply Lfiles; [exact Hf|].
           intros sn Hsn. apply (Hother g sn); [now left|].
           rewrite Hg. exact Hsn.
        -- intros g' sn Hg' Hsn. apply (Hother g' sn); auto.
Qed.

(** C1.  A group for which the policy, not empty, yields an empty keep set
    and a non-empty removal set is skipped: [Forget] does what it does on
    the remaining groups alone.  When the removal sets of the remaining
    groups hold no snapshot of the group, as they do for groups that
    partition the snapshots, no id of the group is among the ids removed
    and the files of its snapshots are still in the repository. *)
Theorem Forget_skips_group_without_keep
    (r : repositoryImpl) (policy : ForgetPolicy)
    (p : data_ExpirePolicy Duration)
    (before after : list (list data_Snapshot))
    (group remove : list data_Snapshot) :
  Empty policy = false ->
  repo_ListSnapshotsErr r = None ->
  data_GroupSnapshots (loadAllSnapshots (repo_SnapshotFiles r) [])
  = ((before ++ group :: after)%list, None) ->
  policyOf policy = inl p ->
  data_ApplyPolicy group p = ([], remove) ->
  remove <> [] ->
  forget r policy = groupsLoop policy (before ++ after)%list r []
  /\ ((forall g sn x, In g (before ++ after)%list ->
         In sn (snd (data_ApplyPolicy g p)) -> In x group ->
         sn_ID sn <> sn_ID x) ->
      forall x, In x group ->
        ~ In (sn_ID x) (fst (snd (forget r policy)))
        /\ (forall f, In f (repo_SnapshotFiles r) -> fst f = sn_ID x ->
              In f (repo_SnapshotFiles (fst (forget r policy))))).
Proof.
  intros Hnonempty Hlist Hgroups Hp Happly Hremove.
  assert (Heq : forget r policy = groupsLoop policy (before ++ after)%list r []).
  { unfold Forget.
    rewrite Hnonempty, Hlist, Hgroups.
    now apply (forgetGroups_skips policy p group remove after). }
  split; [exact Heq|].
  intros Hdisjoint x Hx. rewrite Heq.
  destruct (forgetGroups_only_candidates policy p Hp (before ++ after)%list r [])
    as [Hids Hfiles].
  split.
  - intros Hin. destruct (Hids _ Hin) as [[]|(g & sn & Hg & Hsn & Hsnid)].
    exact (Hdisjoint g sn x Hg Hsn Hx Hsnid).
  - intros f Hf Hfx. apply Hfiles; [exact Hf|].
    intros g sn Hg Hsn. rewrite Hfx. exact (Hdisjoint g sn x Hg Hsn Hx).
Qed.

End RetentionFacts.

Lemma Forget_rejects_empty_policy_witness :
  allFieldsZero emptyPolicy
  /\ Forget Z 0%Z parseDays spec_GroupSnapshots (spec_ApplyPolicy sampleNow)
       mixedRepository emptyPolicy
     = (mixedRepository, ([], Some "forget policy is empty")).
Proof.
  assert (Hzero : allFieldsZero emptyPolicy) by (repeat split; reflexivity).
  split; [exact Hzero|].
  exact (proj2 (Forget_rejects_empty_policy Z 0%Z parseDays spec_GroupSnapshots
                  (spec_ApplyPolicy sampleNow) mixedRepository emptyPolicy
                  Hzero)).
Defined.

(** The example of the specification: of the two snapshots of [h2] the one
    tagged [pin] is kept and the other removed, and the ten snapshots of
    [h1], none of them tagged, stay. *)
Example Forget_keepPinned :
  fst (snd (Forget Z 0%Z parseDays spec_GroupSnapshots
              (spec_ApplyPolicy sampleNow) mixedRepository keepPinned))
  = [sampleID 20].
Proof. vm_compute. reflexivity. Qed.

(** The removal set of the group of [h2] holds no snapshot of [h1]. *)
Lemma otherHost_candidates_apart :
  forall g sn x, In g ([] ++ [otherHostSnapshots])%list ->
    In sn (snd (spec_ApplyPolicy sampleNow g pinnedExpirePolicy)) ->
    In x tenSnapshots -> sn_ID sn <> sn_ID x.
Proof.
  intros g sn x [<-|[]] Hsn Hx.
  vm_compute in Hsn. destruct Hsn as [<-|[]].
  vm_compute in Hx.
  repeat (destruct Hx as [<-|Hx]; [vm_compute; discriminate|]).
  destruct Hx.
Qed.

Lemma Forget_skips_group_without_keep_witness :
  Forget Z 0%Z parseDays spec_GroupSnapshots (spec_ApplyPolicy sampleNow)
    mixedRepository keepPinned
  = forgetGroups Z 0%Z parseDays (spec_ApplyPolicy sampleNow) keepPinned
      [otherHostSnapshots] mixedRepository []
  /\ ~ In (sampleID 3)
       (fst (snd (Forget Z 0%Z parseDays spec_GroupSnapshots
                    (spec_ApplyPolicy sampleNow) mixedRepository keepPinned))).
Proof.
  destruct (Forget_skips_group_without_keep Z 0%Z parseDays spec_GroupSnapshots
              (spec_ApplyPolicy sampleNow) mixedRepository keepPinned
              pinnedExpirePolicy [] [otherHostSnapshots] tenSnapshots
              (stableNewestFirst tenSnapshots))
    as [Hskip Hkept].
  - reflexivity.
  - reflexivity.
  - vm_compute; reflexivity.
  - reflexivity.
  - vm_compute; reflexivity.
  - vm_compute; discriminate.
  - split; [exact Hskip|].
    assert (Hin : In (sampleSnapshot 3 (newYear2024 + 3 * 3600 * second)%Z
                        "h1" ["/data"] []) tenSnapshots)
      by (vm_compute; do 3 right; left; reflexivity).
    exact (proj1 (Hkept otherHost_candidates_apart _ Hin)).
Defined.

(** ** [Prune] *)

Lemma countPacks_spec (packs : list string) :
  forall packCount report,
    countPacks packs packCount report
    = ((packCount + Z.of_nat (length packs))%Z,
       {| PacksDeleted := PacksDeleted report;
          PacksKept := (PacksKept report + Z.of_nat (length packs))%Z;
          PacksRepacked := PacksRepacked report;
          BytesDeleted := BytesDeleted report;
          BytesRepacked := BytesRepacked report |}).
Proof.
  induction packs as [|pack packs IH]; intros packCount report.
  - simpl. rewrite !Z.add_0_r. now destruct report.
  - cbn [countPacks]. rewrite IH. cbn [PacksDeleted PacksKept PacksRepacked
      BytesDeleted BytesRepacked length].
    f_equal; [lia|]. f_equal. lia.
Qed.

(** C9, as the code has it.  For every repository and all options, with
    [DryRun] set or not, [Prune] leaves the repository as it is and reports
    no pack deleted or repacked and no byte deleted or repacked.  When it
    returns no error, [PacksKept] is the number of pack files listed; when
    it returns an error, the report is the zero report. *)
Theorem Prune_removes_nothing (r : repositoryImpl) (opts : PruneOptions) :
  fst (Prune r opts) = r
  /\ PacksDeleted (fst (snd (Prune r opts))) = 0%Z
  /\ PacksRepacked (fst (snd (Prune r opts))) = 0%Z
  /\ BytesDeleted (fst (snd (Prune r opts))) = 0%Z
  /\ BytesRepacked (fst (snd (Prune r opts))) = 0%Z
  /\ (snd (snd (Prune r opts)) = None ->
      PacksKept (fst (snd (Prune r opts)))
      = Z.of_nat (length (repo_PackFiles r)))
  /\ (snd (snd (Prune r opts)) <> None ->
      fst (snd (Prune r opts)) = PruneReport_zero).
Proof.
  unfold Prune, performPrune.
  rewrite countPacks_spec. cbn [PacksDeleted PacksKept PacksRepacked
    BytesDeleted BytesRepacked].
  destruct (repo_LoadIndexErr r) as [err|];
    [|destruct (repo_ListPacksErr r) as [err|]];
    cbn [fst snd PacksDeleted PacksKept PacksRepacked BytesDeleted
         BytesRepacked PruneReport_zero];
    repeat split; try reflexivity; try discriminate; try congruence.
Qed.

Lemma Prune_removes_nothing_witness :
  PacksKept (fst (snd (Prune repositoryWithThreePacks pruneForReal))) = 3%Z.
Proof.
  destruct (Prune_removes_nothing repositoryWithThreePacks pruneForReal)
    as (_ & _ & _ & _ & _ & Hkept & _).
  apply Hkept. reflexivity.
Defined.

(** C9, against the code.  The listing of pack files yields one pack and
    then fails: [Prune], asked to prune for real, returns the zero report,
    whose [PacksKept] is not the number of pack files listed. *)
Lemma Prune_error_reports_zero_packs :
  snd (snd (Prune repositoryWithBrokenListing pruneForReal))
  = Some "prune failed: connection reset"
  /\ PacksKept (fst (snd (Prune repositoryWithBrokenListing pruneForReal)))
     <> Z.of_nat (length (repo_PackFiles repositoryWithBrokenListing)).
Proof. split; [reflexivity | vm_compute; discriminate]. Qed.

(** ** [Check] *)

Lemma hintsLoop_spec (hints : list error) :
  forall report,
    hintsLoop hints report
    = {| Errors := Errors report;
         Warnings := (Warnings report ++ hints)%list;
         Success := Success report |}.
Proof.
  induction hints as [|hint hints IH]; intros report; simpl.
  - rewrite app_nil_r. now destruct report.
  - rewrite IH. simpl. now rewrite <- app_assoc.
Qed.

Lemma drainLoop_spec (prefix : string) (sent : list error) :
  forall report count,
    drainLoop prefix sent report count
    = ({| Errors := (Errors report ++ map (String.append prefix) sent)%list;
          Warnings := Warnings report;
          Success := match sent with
                     | [] => Success report
                     | _ :: _ => false
                     end |},
       (count + Z.of_nat (length sent))%Z).
Proof.
  induction sent as [|err sent IH]; intros report count.
  - simpl. rewrite app_nil_r, Z.add_0_r. now destruct report.
  - cbn [drainLoop]. rewrite IH.
    cbn [Errors Warnings Success map length].
    rewrite <- app_assoc. simpl.
    f_equal; [|lia].
    f_equal. now destruct sent.
Qed.

(** What [Check] returns once the index has loaded and the index check has
    found no error. *)
Lemma Check_after_index (r : repositoryImpl) (depth : string) :
  repo_LoadIndexErr r = None ->
  checker_errs r = [] ->
  Check r depth
  = ({| Errors :=
          (map (String.append "pack error: ") (checker_Packs r)
           ++ (if String.eqb depth CheckDepthReadData
               then map (String.append "data error: ") (checker_ReadData r)
               else []))%list;
        Warnings := checker_hints r;
        Success :=
          match checker_Packs r with
          | [] =>
              if String.eqb depth CheckDepthReadData
              then match checker_ReadData r with
                   | [] => true
                   | _ :: _ => false
                   end
              else true
          | _ :: _ => false
          end |},
     None).
Proof.
  intros Hindex Herrs. unfold Check.
  rewrite Hindex, Herrs. cbn [errsLoop length Nat.ltb Nat.leb].
  rewrite hintsLoop_spec, !drainLoop_spec.
  cbn [Errors Warnings Success fst app].
  destruct (String.eqb depth CheckDepthReadData).
  - cbn [fst Errors Warnings Success].
    f_equal. f_equal.
    destruct (checker_Packs r), (checker_ReadData r); reflexivity.
  - rewrite app_nil_r. reflexivity.
Qed.

(** ** The handle table *)

Lemma updateLive_dead (h : Z) (e : Event) :
  e <> Issued h -> updateLive h e false = false.
Proof.
  intros He. destruct e as [h'|h'|]; simpl; try reflexivity.
  - destruct (Z.eqb_spec h' h); [congruence|reflexivity].
  - destruct (h' =? h)%Z; reflexivity.
Qed.

Lemma liveAfter_never_issued (h : Z) (events : list Event) :
  ~ In (Issued h) events -> liveAfter h events false = false.
Proof.
  induction events as [|e events IH]; intros Hnot; simpl; [reflexivity|].
  rewrite updateLive_dead.
  - apply IH. intros Hin. apply Hnot. now right.
  - intros ->. apply Hnot. now left.
Qed.

Lemma liveAfter_app (h : Z) (before after : list Event) (live : bool) :
  liveAfter h (before ++ after)%list live
  = liveAfter h after (liveAfter h before live).
Proof.
  revert live. induction before as [|e before IH]; intros live; simpl;
    [reflexivity|apply IH].
Qed.

Lemma liveAfter_already_destroyed (h : Z) (events : list Event) (live : bool) :
  already_destroyed h events -> liveAfter h events live = false.
Proof.
  intros (before & after & -> & Hnot).
  rewrite liveAfter_app. simpl. rewrite Z.eqb_refl.
  now apply liveAfter_never_issued.
Qed.

Section BridgeFacts.

Variable createRepository : Config -> option repositoryImpl.
Variable openRepository : Config -> option repositoryImpl.
Variable Backup :
  repositoryImpl -> BackupOptions -> repositoryImpl * (string * option error).
Variable Restore :
  repositoryImpl -> string -> RestoreOptions -> repositoryImpl * option error.
Variable time_Parse : string -> option Z.
Variable time_Format : Z -> Z -> string.
Variable sort_Slice :
  (data_Snapshot -> data_Snapshot -> bool) -> list data_Snapshot ->
  list data_Snapshot.

(** The entry points with the collaborators of this section. *)
Local Abbreviation stepOf :=
  (step createRepository openRepository Backup Restore
     time_Parse time_Format sort_Slice).
Local Abbreviation eventOf :=
  (event createRepository openRepository Backup Restore
     time_Parse time_Format sort_Slice).
Local Abbreviation runOf :=
  (run createRepository openRepository Backup Restore
     time_Parse time_Format sort_Slice).

(** A call either registers a repository under the counter, advances the
    counter and issues the counter's value as a [C.int], or leaves the
    counter alone and issues nothing. *)
Lemma step_counter (st : Bridge) (c : Call) :
  (eventOf st c = Issued (C_int (nextRepoID st))
   /\ nextRepoID (fst (stepOf st c)) = ResticRepo (nextRepoID st + 1))
  \/ ((forall h, eventOf st c <> Issued h)
      /\ nextRepoID (fst (stepOf st c)) = nextRepoID st).
Proof.
  assert (Hfresh : (ResticRepo (nextRepoID st + 1) =? nextRepoID st)%Z = false)
    by (apply Z.eqb_neq, ResticRepo_succ_neq).
  destruct c as [u b p a s n|u b p a s n|h ps pc ts tc|h id dir|h|h|h];
    unfold event, step.
  - unfold restic_init.
    destruct u, b, p; try (right; rewrite Z.eqb_refl; split; [discriminate|reflexivity]).
    destruct (Init _ _) as [repo|].
    + left. cbn [register fst snd nextRepoID]. rewrite Hfresh. split; reflexivity.
    + right. cbn [fst snd]. rewrite Z.eqb_refl. split; [discriminate|reflexivity].
  - unfold restic_open.
    destruct u, b, p; try (right; rewrite Z.eqb_refl; split; [discriminate|reflexivity]).
    destruct (Open _ _) as [repo|].
    + left. cbn [register fst snd nextRepoID]. rewrite Hfresh. split; reflexivity.
    + right. cbn [fst snd]. rewrite Z.eqb_refl. split; [discriminate|reflexivity].
  - right. destruct (restic_backup _ _ _ _ _ _ _) as [st' [code out]] eqn:E.
    split; [discriminate|].
    unfold restic_backup in E.
    destruct (repositories st !! ResticRepo h); [|now inversion E].
    destruct ps; [|now inversion E].
    destruct (pc <=? 0)%Z; [now inversion E|].
    destruct (Backup _ _) as [repo [sid [err|]]]; now inversion E.
  - right. destruct (restic_restore _ _ _ _ _) as [st' code] eqn:E.
    split; [discriminate|].
    unfold restic_restore in E.
    destruct (repositories st !! ResticRepo h); [|now inversion E].
    destruct id, dir; try now inversion E.
    destruct (Restore _ _ _) as [repo [err|]]; now inversion E.
  - right. destruct (restic_list_snapshots _ _ _ _ _) as [st' [code out]] eqn:E.
    split; [discriminate|].
    unfold restic_list_snapshots in E.
    destruct (repositories st !! ResticRepo h); [|now inversion E].
    destruct (Snapshots _ _ _ _ _) as [snapshots [err|]]; [now inversion E|].
    destruct (length snapshots =? 0)%nat; now inversion E.
  - right. destruct (restic_check _ _) as [st' [code out]] eqn:E.
    split; [discriminate|].
    unfold restic_check in E.
    destruct (repositories st !! ResticRepo h); [|now inversion E].
    destruct (Check _ _) as [report [err|]]; now inversion E.
  - right. unfold restic_close.
    destruct (repositories st !! ResticRepo h); cbn [fst snd].
    + split; [|reflexivity]. intros h'. destruct (_ =? _)%Z; discriminate.
    + split; [|reflexivity]. intros h'. destruct (_ =? _)%Z; discriminate.
Qed.

(** An entry of the table after a call is an entry issued by the call, or
    an entry that was there and that the call did not destroy. *)
Lemma step_entry (st : Bridge) (c : Call) (h : Z) :
  is_C_int h ->
  is_Some (repositories (fst (stepOf st c)) !! ResticRepo h) ->
  eventOf st c = Issued h
  \/ (is_Some (repositories st !! ResticRepo h) /\ eventOf st c <> Destroyed h).
Proof.
  intros Hh.
  assert (Hfresh : (ResticRepo (nextRepoID st + 1) =? nextRepoID st)%Z = false)
    by (apply Z.eqb_neq, ResticRepo_succ_neq).
  assert (Hcreate : forall repo,
    is_Some (<[nextRepoID st := repo]> (repositories st) !! ResticRepo h) ->
    Issued (C_int (nextRepoID st)) = Issued h
    \/ (is_Some (repositories st !! ResticRepo h)
        /\ Issued (C_int (nextRepoID st)) <> Destroyed h)).
  { intros repo Hsome.
    destruct (Z.eq_dec (nextRepoID st) (ResticRepo h)) as [E|E].
    - left. rewrite E, C_int_of_ResticRepo by exact Hh. reflexivity.
    - right. rewrite lookup_insert_ne in Hsome by exact E.
      split; [exact Hsome|discriminate]. }
  destruct c as [u b p a s n|u b p a s n|h0 ps pc ts tc|h0 id dir|h0|h0|h0];
    unfold event, step.
  - unfold restic_init.
    destruct u, b, p;
      try (intros Hsome; right; rewrite Z.eqb_refl; split; [exact Hsome|discriminate]).
    destruct (Init _ _) as [repo|].
    + cbn [register fst snd nextRepoID repositories]. rewrite Hfresh.
      apply Hcreate.
    + cbn [fst snd]. rewrite Z.eqb_refl. intros Hsome.
      right; split; [exact Hsome|discriminate].
  - unfold restic_open.
    destruct u, b, p;
      try (intros Hsome; right; rewrite Z.eqb_refl; split; [exact Hsome|discriminate]).
    destruct (Open _ _) as [repo|].
    + cbn [register fst snd nextRepoID repositories]. rewrite Hfresh.
      apply Hcreate.
    + cbn [fst snd]. rewrite Z.eqb_refl. intros Hsome.
      right; split; [exact Hsome|discriminate].
  - destruct (restic_backup _ _ _ _ _ _ _) as [st' [code out]] eqn:E.
    cbn [fst]. intros Hsome. right. split; [|discriminate].
    unfold restic_backup in E.
    destruct (repositories st !! ResticRepo h0) as [repo0|] eqn:Hlook;
      [|inversion E; now subst].
    destruct ps; [|inversion E; now subst].
    destruct (pc <=? 0)%Z; [inversion E; now subst|].
    assert (Hst : forall repo, is_Some (repositories (store st (ResticRepo h0) repo)
                                          !! ResticRepo h) ->
                               is_Some (repositories st !! ResticRepo h)).
    { intros repo. unfold store; cbn [repositories].
      destruct (Z.eq_dec (ResticRepo h0) (ResticRepo h)) as [Ek|Ek].
      - intros _. rewrite <- Ek, Hlook. eauto.
      - now rewrite lookup_insert_ne by exact Ek. }
    destruct (Backup _ _) as [repo [sid [err|]]]; inversion E; subst;
      eapply Hst; exact Hsome.
  - destruct (restic_restore _ _ _ _ _) as [st' code] eqn:E.
    cbn [fst]. intros Hsome. right. split; [|discriminate].
    unfold restic_restore in E.
    destruct (repositories st !! ResticRepo h0) as [repo0|] eqn:Hlook;
      [|inversion E; now subst].
    assert (Hst : forall repo, is_Some (repositories (store st (ResticRepo h0) repo)
                                          !! ResticRepo h) ->
                               is_Some (repositories st !! ResticRepo h)).
    { intros repo. unfold store; cbn [repositories].
      destruct (Z.eq_dec (ResticRepo h0) (ResticRepo h)) as [Ek|Ek].
      - intros _. rewrite <- Ek, Hlook. eauto.
      - now rewrite lookup_insert_ne by exact Ek. }
    destruct id, dir; try (inversion E; now subst).
    destruct (Restore _ _ _) as [repo [err|]]; inversion E; subst;
      eapply Hst; exact Hsome.
  - destruct (restic_list_snapshots _ _ _ _ _) as [st' [code out]] eqn:E.
    cbn [fst]. intros Hsome. right. split; [|discriminate].
    unfold restic_list_snapshots in E.
    destruct (repositories st !! ResticRepo h0); [|inversion E; now subst].
    destruct (Snapshots _ _ _ _ _) as [snapshots [err|]];
      [inversion E; now subst|].
    destruct (length snapshots =? 0)%nat; inversion E; now subst.
  - destruct (restic_check _ _) as [st' [code out]] eqn:E.
    cbn [fst]. intros Hsome. right. split; [|discriminate].
    unfold restic_check in E.
    destruct (repositories st !! ResticRepo h0); [|inversion E; now subst].
    destruct (Check _ _) as [report [err|]]; inversion E; now subst.
  - unfold restic_close.
    destruct (repositories st !! ResticRepo h0) as [repo0|] eqn:Hlook;
      cbn [fst snd repositories].
    + intros Hsome. right.
      destruct (Z.eq_dec (ResticRepo h0) (ResticRepo h)) as [Ek|Ek].
      * rewrite Ek, lookup_delete_eq in Hsome. now destruct Hsome.
      * rewrite lookup_delete_ne in Hsome by exact Ek.
        split; [exact Hsome|].
        change (RESTIC_OK =? RESTIC_OK)%Z with true. cbn iota.
        intros Hd. inversion Hd. congruence.
    + intros Hsome. right. split; [exact Hsome|].
      change (RESTIC_ERROR_INVALID_PARAMS =? RESTIC_OK)%Z with false.
      discriminate.
Qed.

Lemma run_cons (st : Bridge) (c : Call) (calls : list Call) :
  runOf st (c :: calls)
  = (fst (runOf (fst (stepOf st c)) calls),
     eventOf st c :: snd (runOf (fst (stepOf st c)) calls)).
Proof.
  cbn [run]. now destruct (run _ _ _ _ _ _ _ _ _).
Qed.

(** An entry of the table after a run belongs to a handle that is live
    after the events of the run. *)
Lemma run_entries_live (h : Z) (calls : list Call) :
  is_C_int h ->
  forall st live,
    (is_Some (repositories st !! ResticRepo h) -> live = true) ->
    is_Some (repositories (fst (runOf st calls)) !! ResticRepo h) ->
    liveAfter h (snd (runOf st calls)) live = true.
Proof.
  intros Hh. induction calls as [|c calls IH]; intros st live Hlive.
  - exact Hlive.
  - rewrite run_cons. cbn [fst snd liveAfter]. apply IH.
    intros Hsome. destruct (step_entry st c h Hh Hsome) as [->|[Hold Hnot]].
    + simpl. now rewrite Z.eqb_refl.
    + rewrite (Hlive Hold).
      destruct (eventOf st c) as [h'|h'|]; simpl; try reflexivity.
      * now destruct (h' =? h)%Z.
      * destruct (Z.eqb_spec h' h); [congruence|reflexivity].
Qed.

(** A handle that was never issued, or that was destroyed and not issued
    since, has no entry in the table. *)
Lemma dead_handle_no_entry (calls : list Call) (h : Z) :
  is_C_int h ->
  never_issued h (snd (runOf Bridge_init calls))
  \/ already_destroyed h (snd (runOf Bridge_init calls)) ->
  repositories (fst (runOf Bridge_init calls)) !! ResticRepo h = None.
Proof.
  intros Hh Hdead.
  destruct (repositories (fst (runOf Bridge_init calls)) !! ResticRepo h)
    as [repo|] eqn:Hlook; [|reflexivity].
  exfalso.
  assert (Hlive : liveAfter h (snd (runOf Bridge_init calls)) false = true).
  { apply run_entries_live; [exact Hh| |rewrite Hlook; eauto].
    cbn [Bridge_init repositories]. rewrite lookup_empty.
    intros [x Hx]. discriminate. }
  destruct Hdead as [Hnever|Hdestroyed].
  - rewrite liveAfter_never_issued in Hlive by exact Hnever. discriminate.
  - rewrite liveAfter_already_destroyed in Hlive by exact Hdestroyed.
    discriminate.
Qed.

(** C6.  After any run of calls from the start of the process, for a handle
    value that was never issued or that has been destroyed, [restic_backup],
    [restic_restore], [restic_list_snapshots], [restic_check] and
    [restic_close] return [RESTIC_ERROR_INVALID_PARAMS], write nothing
    through their output pointers and leave the table and the counter as
    they are. *)
Theorem dead_handle_is_invalid_params (calls : list Call) (h : Z) :
  is_C_int h ->
  never_issued h (snd (runOf Bridge_init calls))
  \/ already_destroyed h (snd (runOf Bridge_init calls)) ->
  let st := fst (runOf Bridge_init calls) in
  (forall paths paths_count tags tags_count,
     restic_backup Backup st h paths paths_count tags tags_count
     = (st, (RESTIC_ERROR_INVALID_PARAMS, None)))
  /\ (forall snapshot_id target_dir,
        restic_restore Restore st h snapshot_id target_dir
        = (st, RESTIC_ERROR_INVALID_PARAMS))
  /\ restic_list_snapshots time_Parse time_Format sort_Slice st h
     = (st, (RESTIC_ERROR_INVALID_PARAMS, noOutputs))
  /\ restic_check st h = (st, (RESTIC_ERROR_INVALID_PARAMS, None))
  /\ restic_close st h = (st, RESTIC_ERROR_INVALID_PARAMS).
Proof.
  intros Hh Hdead st.
  pose proof (dead_handle_no_entry calls h Hh Hdead) as Hnone.
  fold st in Hnone.
  unfold restic_backup, restic_restore, restic_list_snapshots, restic_check,
    restic_close.
  rewrite Hnone. repeat split.
Qed.

Lemma ResticRepo_succ (x : Z) :
  ResticRepo (ResticRepo x + 1) = ResticRepo (x + 1).
Proof.
  unfold ResticRepo, wrap_unsigned. apply Zplus_mod_idemp_l.
Qed.

Lemma issued_cons_not_issued (e : Event) (events : list Event) :
  (forall h, e <> Issued h) -> issued (e :: events) = issued events.
Proof.
  intros He. destruct e as [h|h|]; [now destruct (He h)|reflexivity|reflexivity].
Qed.

(** The handles issued by a run that starts with the counter at [1 + k]
    are the values [C.int(1 + k)], [C.int(2 + k)], ... in this order. *)
Lemma run_issued (calls : list Call) :
  forall st k,
    nextRepoID st = ResticRepo (1 + Z.of_nat k) ->
    issued (snd (runOf st calls))
    = map (fun i => C_int (1 + Z.of_nat i))
        (seq k (length (issued (snd (runOf st calls)))))
    /\ nextRepoID (fst (runOf st calls))
       = ResticRepo (1 + Z.of_nat (k + length (issued (snd (runOf st calls))))).
Proof.
  induction calls as [|c calls IH]; intros st k Hk.
  - cbn [run fst snd issued length seq map]. now rewrite Nat.add_0_r.
  - rewrite run_cons. cbn [fst snd].
    destruct (step_counter st c) as [[He Hnext]|[He Hnext]].
    + rewrite He. cbn [issued length seq map].
      destruct (IH (fst (stepOf st c)) (S k)) as [IHissued IHnext].
      { rewrite Hnext, Hk, ResticRepo_succ. f_equal. lia. }
      rewrite <- IHissued, IHnext, Hk, C_int_ResticRepo.
      split; [reflexivity|]. f_equal. lia.
    + rewrite issued_cons_not_issued by exact He.
      apply IH. now rewrite Hnext.
Qed.

(** While fewer than [2^31] handles have been issued since the start of
    the process, the handles issued are 1, 2, 3, ... in this order:
    positive, strictly increasing, none issued twice. *)
Lemma issued_handles_count_up (calls : list Call) :
  (Z.of_nat (length (issued (snd (runOf Bridge_init calls)))) <= INT_MAX)%Z ->
  issued (snd (runOf Bridge_init calls))
  = map (fun i => (1 + Z.of_nat i)%Z)
      (seq 0 (length (issued (snd (runOf Bridge_init calls))))).
Proof.
  intros Hbound.
  destruct (run_issued calls Bridge_init 0 eq_refl) as [Hissued _].
  rewrite Hissued at 1.
  apply map_ext_in. intros i Hi. apply in_seq in Hi.
  apply C_int_id. unfold is_C_int, INT_MIN, INT_MAX in *. lia.
Qed.

(** Once the index has loaded and the index check has found nothing,
    [Check] returns no error, and reports failure as soon as the pack check
    or the reading of the data finds an error. *)
Lemma Check_no_error_after_index (r : repositoryImpl) (depth : string) :
  repo_LoadIndexErr r = None ->
  checker_errs r = [] ->
  snd (Check r depth) = None
  /\ (checker_Packs r <> []
      \/ (depth = CheckDepthReadData /\ checker_ReadData r <> []) ->
      Success (fst (Check r depth)) = false).
Proof.
  intros Hindex Herrs.
  split; [now rewrite Check_after_index|].
  intros Hfound. rewrite Check_after_index by assumption. cbn [fst Success].
  destruct (checker_Packs r) as [|e es]; [|reflexivity].
  destruct Hfound as [Hp|[-> Hd]]; [congruence|].
  rewrite String.eqb_refl.
  destruct (checker_ReadData r); [congruence|reflexivity].
Qed.

(** [restic_check] on such a repository writes the number of pack errors,
    converted to a [C.int]. *)
Lemma restic_check_writes_count (st : Bridge) (h : Z) (r : repositoryImpl) :
  repo_LoadIndexErr r = None ->
  checker_errs r = [] ->
  repositories st !! ResticRepo h = Some r ->
  restic_check st h
  = (st, (RESTIC_OK, Some (C_int (Z.of_nat (length (checker_Packs r)))))).
Proof.
  intros Hindex Herrs Hlook.
  unfold restic_check. rewrite Hlook.
  rewrite (Check_after_index r CheckDepthDefault Hindex Herrs).
  cbn [Errors]. change (String.eqb CheckDepthDefault CheckDepthReadData)
    with false. cbn iota.
  rewrite app_nil_r, length_map. reflexivity.
Qed.

(** Within the range of a [C.int].  When the index loads and the index
    check reports no error, [Check] returns no error, whatever the pack check
    and the reading of the data find, and its report has [Success = false]
    as soon as one of them finds an error.  [restic_check] on a handle of
    such a repository returns [RESTIC_OK] and writes the number of pack
    errors, converted to a [C.int], to [errors_out]; with at least one and
    at most [2^31 - 1] pack errors the value written is greater than 0. *)
Theorem restic_check_ok_despite_errors
    (st : Bridge) (h : Z) (r : repositoryImpl) (depth : string) :
  repo_LoadIndexErr r = None ->
  checker_errs r = [] ->
  snd (Check r depth) = None
  /\ (checker_Packs r <> []
      \/ (depth = CheckDepthReadData /\ checker_ReadData r <> []) ->
      Success (fst (Check r depth)) = false)
  /\ (repositories st !! ResticRepo h = Some r ->
      restic_check st h
      = (st, (RESTIC_OK, Some (C_int (Z.of_nat (length (checker_Packs r))))))
      /\ (checker_Packs r <> [] ->
          (Z.of_nat (length (checker_Packs r)) <= INT_MAX)%Z ->
          (0 < C_int (Z.of_nat (length (checker_Packs r))))%Z)).
Proof.
  intros Hindex Herrs.
  destruct (Check_no_error_after_index r depth Hindex Herrs) as [Herr Hfail].
  split; [exact Herr|]. split; [exact Hfail|].
  intros Hlook. split.
  - now apply restic_check_writes_count.
  - intros Hp Hbound. rewrite C_int_id.
    + destruct (checker_Packs r); [congruence|]. cbn [length]. lia.
    + unfold is_C_int, INT_MIN, INT_MAX in *. lia.
Qed.

End BridgeFacts.

(** *** Runs in the sample world *)

Section SampleWorld.

Variable repo : repositoryImpl.

Local Abbreviation sampleStep :=
  (step (sample_open repo) (sample_open repo) sample_Backup sample_Restore
     parseUTC formatRFC3339 stable_sort_Slice).
Local Abbreviation sampleEvent :=
  (event (sample_open repo) (sample_open repo) sample_Backup sample_Restore
     parseUTC formatRFC3339 stable_sort_Slice).

Lemma sample_open_step (st : Bridge) :
  sampleStep st sample_call_open = register st repo.
Proof. reflexivity. Qed.

Lemma sample_open_event (st : Bridge) :
  sampleEvent st sample_call_open = Issued (C_int (nextRepoID st)).
Proof.
  unfold event. rewrite sample_open_step.
  cbn [register nextRepoID].
  assert (Hfresh : (ResticRepo (nextRepoID st + 1) =? nextRepoID st)%Z = false)
    by (apply Z.eqb_neq, ResticRepo_succ_neq).
  now rewrite Hfresh.
Qed.

Lemma opens_all_issue (n : nat) :
  forall st,
    length (issued (snd (run (sample_open repo) (sample_open repo)
                           sample_Backup sample_Restore parseUTC formatRFC3339
                           stable_sort_Slice st (repeat sample_call_open n))))
    = n.
Proof.
  induction n as [|n IH]; intros st; [reflexivity|].
  cbn [repeat]. rewrite run_cons. cbn [snd].
  rewrite sample_open_event. cbn [issued length]. now rewrite IH.
Qed.

Lemma afterOpens_counter (n : nat) :
  nextRepoID (fst (afterOpens repo n)) = ResticRepo (1 + Z.of_nat n).
Proof.
  unfold afterOpens.
  destruct (run_issued (sample_open repo) (sample_open repo) sample_Backup
              sample_Restore parseUTC formatRFC3339 stable_sort_Slice
              (repeat sample_call_open n) Bridge_init 0 eq_refl) as [_ Hnext].
  rewrite Hnext, opens_all_issue. reflexivity.
Qed.

Lemma afterOpens_issued (n : nat) :
  (Z.of_nat n <= INT_MAX)%Z ->
  issued (snd (afterOpens repo n))
  = map (fun i => (1 + Z.of_nat i)%Z) (seq 0 n).
Proof.
  intros Hn. unfold afterOpens.
  rewrite issued_handles_count_up; rewrite opens_all_issue; [reflexivity|exact Hn].
Qed.

Lemma afterOpens_one :
  fst (afterOpens repo 1)
  = {| repositories := <[1%Z := repo]> ∅; nextRepoID := 2 |}.
Proof. reflexivity. Qed.

End SampleWorld.

Lemma manyOpens_value : Z.of_nat manyOpens = 2147483647%Z.
Proof. unfold manyOpens. apply Z2Nat.id. lia. Qed.

Lemma manyErrors_value : Z.of_nat manyErrors = 4294967296%Z.
Proof. unfold manyErrors. apply Z2Nat.id. lia. Qed.

(** C5, against the code.  In a process that has opened a repository
    [2^31 - 1] times the handles issued are 1, 2, ..., [2^31 - 1] and the
    counter stands at [2^31]; the next [restic_open] registers the repository
    and returns [C.int(2^31)], the negative value -2147483648, which is
    smaller than every handle issued before. *)
Theorem restic_open_issues_negative_handle :
  Z.of_nat manyOpens = 2147483647%Z
  /\ issued (snd (afterOpens (sampleRepository []) manyOpens))
     = map (fun i => (1 + Z.of_nat i)%Z) (seq 0 manyOpens)
  /\ nextRepoID (fst (afterOpens (sampleRepository []) manyOpens))
     = 2147483648%Z
  /\ snd (restic_open (sample_open (sampleRepository []))
            (fst (afterOpens (sampleRepository []) manyOpens))
            (Some "/srv/repo") (Some "local") (Some "secret") None None 1)
     = (-2147483648)%Z
  /\ event (sample_open (sampleRepository [])) (sample_open (sampleRepository []))
       sample_Backup sample_Restore parseUTC formatRFC3339 stable_sort_Slice
       (fst (afterOpens (sampleRepository []) manyOpens)) sample_call_open
     = Issued (-2147483648).
Proof.
  pose proof (afterOpens_counter (sampleRepository []) manyOpens) as Hc.
  rewrite manyOpens_value in Hc.
  change (ResticRepo (1 + 2147483647)) with 2147483648%Z in Hc.
  split; [exact manyOpens_value|].
  split; [apply afterOpens_issued; rewrite manyOpens_value; unfold INT_MAX; lia|].
  split; [exact Hc|].
  revert Hc.
  generalize (fst (afterOpens (sampleRepository []) manyOpens)).
  intros st Hc. split.
  - pose proof (sample_open_step (sampleRepository []) st) as Hs.
    unfold step, sample_call_open in Hs. rewrite Hs.
    cbn [register snd]. rewrite Hc. reflexivity.
  - rewrite sample_open_event, Hc. reflexivity.
Qed.

Lemma dead_handle_is_invalid_params_witness :
  restic_check
    (fst (run (sample_open (sampleRepository [])) (sample_open (sampleRepository []))
            sample_Backup sample_Restore parseUTC formatRFC3339 stable_sort_Slice
            Bridge_init openThenClose)) 1
  = (fst (run (sample_open (sampleRepository [])) (sample_open (sampleRepository []))
            sample_Backup sample_Restore parseUTC formatRFC3339 stable_sort_Slice
            Bridge_init openThenClose),
     (RESTIC_ERROR_INVALID_PARAMS, None))
  /\ restic_close
       (fst (run (sample_open (sampleRepository [])) (sample_open (sampleRepository []))
               sample_Backup sample_Restore parseUTC formatRFC3339 stable_sort_Slice
               Bridge_init openThenClose)) 1
     = (fst (run (sample_open (sampleRepository [])) (sample_open (sampleRepository []))
               sample_Backup sample_Restore parseUTC formatRFC3339 stable_sort_Slice
               Bridge_init openThenClose),
        RESTIC_ERROR_INVALID_PARAMS).
Proof.
  assert (Hrange : is_C_int 1) by (unfold is_C_int, INT_MIN, INT_MAX; lia).
  assert (Hdead :
    never_issued 1
      (snd (run (sample_open (sampleRepository [])) (sample_open (sampleRepository []))
              sample_Backup sample_Restore parseUTC formatRFC3339 stable_sort_Slice
              Bridge_init openThenClose))
    \/ already_destroyed 1
         (snd (run (sample_open (sampleRepository [])) (sample_open (sampleRepository []))
                 sample_Backup sample_Restore parseUTC formatRFC3339 stable_sort_Slice
                 Bridge_init openThenClose))).
  { right. exists [Issued 1], []. split; [vm_compute; reflexivity|].
    simpl. tauto. }
  destruct (dead_handle_is_invalid_params
              (sample_open (sampleRepository [])) (sample_open (sampleRepository []))
              sample_Backup sample_Restore parseUTC formatRFC3339 stable_sort_Slice
              openThenClose 1 Hrange Hdead)
    as (_ & _ & _ & Hcheck & Hclose).
  split; [exact Hcheck|exact Hclose].
Defined.

Lemma restic_check_ok_despite_errors_witness :
  restic_check (fst (afterOpens (repositoryWithPackErrors 2) 1)) 1
  = (fst (afterOpens (repositoryWithPackErrors 2) 1), (RESTIC_OK, Some 2%Z))
  /\ Success (fst (Check (repositoryWithPackErrors 2) CheckDepthDefault)) = false.
Proof.
  destruct (restic_check_ok_despite_errors
              (fst (afterOpens (repositoryWithPackErrors 2) 1)) 1
              (repositoryWithPackErrors 2) CheckDepthDefault eq_refl eq_refl)
    as (_ & Hsuccess & Hbridge).
  split.
  - apply Hbridge. rewrite afterOpens_one.
    change (ResticRepo 1) with 1%Z. apply lookup_insert_eq.
  - apply Hsuccess. left. discriminate.
Defined.

(** C10, against the code.  The index loads, the index check reports no
    error and the pack check finds [2^32] errors: [Check] returns no error
    and a report with [Success = false], and [restic_check] returns
    [RESTIC_OK] and writes [C.int(2^32)], which is 0 and not a value
    greater than 0, to [errors_out]. *)
Theorem restic_check_error_count_wraps :
  Z.of_nat (length (checker_Packs (repositoryWithPackErrors manyErrors)))
  = 4294967296%Z
  /\ snd (Check (repositoryWithPackErrors manyErrors) CheckDepthDefault) = None
  /\ Success (fst (Check (repositoryWithPackErrors manyErrors) CheckDepthDefault))
     = false
  /\ snd (restic_check (fst (afterOpens (repositoryWithPackErrors manyErrors) 1)) 1)
     = (RESTIC_OK, Some 0%Z).
Proof.
  assert (Hlen :
    Z.of_nat (length (checker_Packs (repositoryWithPackErrors manyErrors)))
    = 4294967296%Z).
  { cbn [checker_Packs repositoryWithPackErrors].
    rewrite repeat_length. exact manyErrors_value. }
  destruct (Check_no_error_after_index
              (repositoryWithPackErrors manyErrors) CheckDepthDefault
              eq_refl eq_refl)
    as (Herr & Hsuccess).
  split; [exact Hlen|]. split; [exact Herr|]. split.
  - apply Hsuccess. left. intros Hnil.
    rewrite Hnil in Hlen. discriminate Hlen.
  - rewrite (restic_check_writes_count
               (fst (afterOpens (repositoryWithPackErrors manyErrors) 1)) 1
               (repositoryWithPackErrors manyErrors) eq_refl eq_refl).
    + cbn [snd]. rewrite Hlen. reflexivity.
    + rewrite afterOpens_one.
      change (ResticRepo 1) with 1%Z. apply lookup_insert_eq.
Qed.

(** ** More on path selection *)

Section PathSelectionMore.

Variable Match : string -> string -> bool.
Variable Base : string -> string.

(** X1.  [SelectByName] of [Backup] selects an item exactly when the include
    list is empty or one of its patterns matches the item's base name, and
    no exclude pattern matches the base name.  Only the base name counts:
    two items with the same base name get the same decision. *)
Theorem SelectByName_selected_iff (opts : BackupOptions) (item : string) :
  (SelectByName Match Base opts item = true
   <-> (bo_Includes opts = []
        \/ exists p, In p (bo_Includes opts) /\ Match p (Base item) = true)
       /\ (forall p, In p (bo_Excludes opts) -> Match p (Base item) = false))
  /\ (forall item', Base item' = Base item ->
        SelectByName Match Base opts item' = SelectByName Match Base opts item).
Proof.
  split.
  - rewrite SelectByName_two_phases. unfold twoPhase.
    destruct (bo_Includes opts) as [|i incs] eqn:Hinc; cbn [length Nat.ltb Nat.leb andb].
    + destruct (existsb (matchesBase Match Base item) (bo_Excludes opts)) eqn:Hex;
        cbn [fst].
      * split; [discriminate|]. intros [_ Hno].
        apply existsb_exists in Hex as (p & Hp & Hm).
        unfold matchesBase in Hm. rewrite (Hno p Hp) in Hm. discriminate.
      * split; [|reflexivity]. intros _. split; [now left|].
        intros p Hp. destruct (Match p (Base item)) eqn:Hm; [|reflexivity].
        assert (existsb (matchesBase Match Base item) (bo_Excludes opts) = true)
          as Habs by (apply existsb_exists; exists p; split; assumption).
        congruence.
    + destruct (existsb (matchesBase Match Base item) (i :: incs)) eqn:Hin;
        cbn [negb fst].
      * destruct (existsb (matchesBase Match Base item) (bo_Excludes opts)) eqn:Hex;
          cbn [fst].
        -- split; [discriminate|]. intros [_ Hno].
           apply existsb_exists in Hex as (p & Hp & Hm).
           unfold matchesBase in Hm. rewrite (Hno p Hp) in Hm. discriminate.
        -- split; [|reflexivity]. intros _. split.
           ++ right. apply existsb_exists in Hin as (p & Hp & Hm).
              exists p. split; assumption.
           ++ intros p Hp. destruct (Match p (Base item)) eqn:Hm; [|reflexivity].
              assert (existsb (matchesBase Match Base item) (bo_Excludes opts)
                      = true)
                as Habs by (apply existsb_exists; exists p; split; assumption).
              congruence.
      * split; [discriminate|]. intros [[Habs|(p & Hp & Hm)] _]; [discriminate|].
        assert (existsb (matchesBase Match Base item) (i :: incs) = true)
          as Habs by (apply existsb_exists; exists p; split; assumption).
        congruence.
  - intros item' Hbase. rewrite !SelectByName_two_phases.
    unfold twoPhase, matchesBase. rewrite Hbase. reflexivity.
Qed.

(** X2.  [Restore] installs its filter exactly when the include or the
    exclude list is non-empty, and the filter it installs is [selectFilter]
    on the two lists of the options.  The filter ignores the directory flag
    and never selects an item while closing its subtree. *)
Theorem restoreSelectFilter_installs (opts : RestoreOptions) :
  (restoreSelectFilter Match Base opts = None
   <-> ro_Includes opts = [] /\ ro_Excludes opts = [])
  /\ (forall f, restoreSelectFilter Match Base opts = Some f ->
        f = selectFilter Match Base (ro_Includes opts) (ro_Excludes opts))
  /\ (forall item isDir,
        selectFilter Match Base (ro_Includes opts) (ro_Excludes opts) item isDir
        <> (true, false)
        /\ selectFilter Match Base (ro_Includes opts) (ro_Excludes opts)
             item isDir
           = selectFilter Match Base (ro_Includes opts) (ro_Excludes opts)
               item (negb isDir)).
Proof.
  split; [|split].
  - unfold restoreSelectFilter.
    destruct (ro_Includes opts) as [|i incs], (ro_Excludes opts) as [|e excs];
      cbn; split; try discriminate; try tauto.
    + intros [_ H]; discriminate.
    + intros [H _]; discriminate.
    + intros [H _]; discriminate.
  - intros f. unfold restoreSelectFilter.
    destruct (ro_Includes opts) as [|i incs], (ro_Excludes opts) as [|e excs];
      cbn; intros H; inversion H; reflexivity.
  - intros item isDir. split; [|reflexivity].
    unfold selectFilter.
    destruct (negb _); [discriminate|].
    rewrite restoreExcludeLoop_existsb.
    destruct (existsb _ _); discriminate.
Qed.

End PathSelectionMore.

(** ** More on the snapshot filter *)

Section FilterMore.

Variable time_Parse : string -> option Z.

Lemma hostsLoop_existsb (hostname : string) (hosts : list string) (found : bool) :
  hostsLoop hostname hosts found
  = existsb (String.eqb hostname) hosts || found.
Proof.
  induction hosts as [|host rest IH]; cbn; [reflexivity|].
  destruct (String.eqb hostname host); cbn; [reflexivity|exact IH].
Qed.

Lemma snPathsLoop_existsb (filterPath : string) (snPaths : list string)
    (found : bool) :
  snPathsLoop filterPath snPaths found
  = existsb (fun snPath => strings_Contains snPath filterPath) snPaths || found.
Proof.
  induction snPaths as [|snPath rest IH]; cbn; [reflexivity|].
  destruct (strings_Contains snPath filterPath); cbn; [reflexivity|exact IH].
Qed.

Lemma pathsLoop_existsb (snPaths filterPaths : list string) :
  pathsLoop snPaths filterPaths false
  = existsb (fun filterPath =>
               existsb (fun snPath => strings_Contains snPath filterPath) snPaths)
      filterPaths.
Proof.
  induction filterPaths as [|filterPath rest IH]; cbn; [reflexivity|].
  rewrite snPathsLoop_existsb, orb_false_r.
  destruct (existsb _ snPaths); cbn; [reflexivity|exact IH].
Qed.

Lemma snTagsLoop_existsb (filterTag : string) (snTags : list string)
    (found : bool) :
  snTagsLoop filterTag snTags found
  = existsb (fun snTag => String.eqb snTag filterTag) snTags || found.
Proof.
  induction snTags as [|snTag rest IH]; cbn; [reflexivity|].
  destruct (String.eqb snTag filterTag); cbn; [reflexivity|exact IH].
Qed.

Lemma tagsLoop_existsb (snTags filterTags : list string) :
  tagsLoop snTags filterTags false
  = existsb (fun filterTag =>
               existsb (fun snTag => String.eqb snTag filterTag) snTags)
      filterTags.
Proof.
  induction filterTags as [|filterTag rest IH]; cbn; [reflexivity|].
  rewrite snTagsLoop_existsb, orb_false_r.
  destruct (existsb _ snTags); cbn; [reflexivity|exact IH].
Qed.

(** X3.  [matchesFilter] accepts a snapshot exactly when: the host list is
    empty or holds the snapshot's hostname; the path list is empty or one
    of its entries is a substring of one of the snapshot's paths; the tag
    list is empty or shares a tag with the snapshot; the snapshot is not
    older than a [Since] that parses and not newer than an [Until] that
    parses. *)
Theorem matchesFilter_true_iff (sn : data_Snapshot) (filter : SnapshotFilter) :
  matchesFilter time_Parse sn filter = true
  <-> (sf_Hosts filter = [] \/ In (sn_Hostname sn) (sf_Hosts filter))
      /\ (sf_Paths filter = []
          \/ exists filterPath snPath,
               In filterPath (sf_Paths filter) /\ In snPath (sn_Paths sn)
               /\ strings_Contains snPath filterPath = true)
      /\ (sf_Tags filter = []
          \/ exists tag, In tag (sf_Tags filter) /\ In tag (sn_Tags sn))
      /\ (forall s since, sf_Since filter = Some s ->
            time_Parse s = Some since -> (since <= sn_Time sn)%Z)
      /\ (forall s until, sf_Until filter = Some s ->
            time_Parse s = Some until -> (sn_Time sn <= until)%Z).
Proof.
  unfold matchesFilter.
  rewrite hostsLoop_existsb, orb_false_r, pathsLoop_existsb, tagsLoop_existsb.
  assert (Hhosts :
    ((0 <? length (sf_Hosts filter))%nat
     && negb (existsb (String.eqb (sn_Hostname sn)) (sf_Hosts filter)) = false)
    <-> (sf_Hosts filter = [] \/ In (sn_Hostname sn) (sf_Hosts filter))).
  { destruct (sf_Hosts filter) as [|h hs] eqn:Hh.
    - cbn. split; [now left|reflexivity].
    - cbn [length Nat.ltb Nat.leb andb]. rewrite negb_false_iff, existsb_exists.
      split.
      + intros (x & Hx & Heq). apply String.eqb_eq in Heq. subst x. now right.
      + intros [Habs|Hin]; [discriminate|].
        exists (sn_Hostname sn). split; [exact Hin|apply String.eqb_refl]. }
  assert (Hpaths :
    ((0 <? length (sf_Paths filter))%nat
     && negb (existsb (fun filterPath =>
                existsb (fun snPath => strings_Contains snPath filterPath)
                  (sn_Paths sn)) (sf_Paths filter)) = false)
    <-> (sf_Paths filter = []
         \/ exists filterPath snPath,
              In filterPath (sf_Paths filter) /\ In snPath (sn_Paths sn)
              /\ strings_Contains snPath filterPath = true)).
  { destruct (sf_Paths filter) as [|p ps] eqn:Hp.
    - cbn. split; [now left|reflexivity].
    - cbn [length Nat.ltb Nat.leb andb]. rewrite negb_false_iff, existsb_exists.
      split.
      + intros (x & Hx & Hex). apply existsb_exists in Hex as (y & Hy & Hc).
        right. exists x, y. auto.
      + intros [Habs|(x & y & Hx & Hy & Hc)]; [discriminate|].
        exists x. split; [exact Hx|]. apply existsb_exists. exists y. auto. }
  assert (Htags :
    ((0 <? length (sf_Tags filter))%nat
     && negb (existsb (fun filterTag =>
                existsb (fun snTag => String.eqb snTag filterTag) (sn_Tags sn))
                (sf_Tags filter)) = false)
    <-> (sf_Tags filter = []
         \/ exists tag, In tag (sf_Tags filter) /\ In tag (sn_Tags sn))).
  { destruct (sf_Tags filter) as [|t ts] eqn:Ht.
    - cbn. split; [now left|reflexivity].
    - cbn [length Nat.ltb Nat.leb andb]. rewrite negb_false_iff, existsb_exists.
      split.
      + intros (x & Hx & Hex). apply existsb_exists in Hex as (y & Hy & Heq).
        apply String.eqb_eq in Heq. subst y. right. exists x. auto.
      + intros [Habs|(x & Hx & Hy)]; [discriminate|].
        exists x. split; [exact Hx|]. apply existsb_exists. exists x.
        split; [exact Hy|apply String.eqb_refl]. }
  destruct ((0 <? length (sf_Hosts filter))%nat && _) eqn:H1.
  { split; [discriminate|]. intros (Hh & _).
    apply Hhosts in Hh. discriminate. }
  destruct ((0 <? length (sf_Paths filter))%nat && _) eqn:H2.
  { split; [discriminate|]. intros (_ & Hp & _).
    apply Hpaths in Hp. discriminate. }
  destruct ((0 <? length (sf_Tags filter))%nat && _) eqn:H3.
  { split; [discriminate|]. intros (_ & _ & Ht & _).
    apply Htags in Ht. discriminate. }
  assert (Hh : sf_Hosts filter = [] \/ In (sn_Hostname sn) (sf_Hosts filter))
    by (apply Hhosts; reflexivity).
  assert (Hp : sf_Paths filter = []
         \/ exists filterPath snPath,
              In filterPath (sf_Paths filter) /\ In snPath (sn_Paths sn)
              /\ strings_Contains snPath filterPath = true)
    by (apply Hpaths; reflexivity).
  assert (Ht : sf_Tags filter = []
         \/ exists tag, In tag (sf_Tags filter) /\ In tag (sn_Tags sn))
    by (apply Htags; reflexivity).
  unfold sinceCheck, untilCheck.
  destruct (sf_Since filter) as [s|] eqn:Hs.
  - destruct (time_Parse s) as [since|] eqn:Hps.
    + destruct (sn_Time sn <? since)%Z eqn:Hlt.
      * split; [discriminate|]. intros (_ & _ & _ & Hsince & _).
        specialize (Hsince s since eq_refl Hps). lia.
      * destruct (sf_Until filter) as [u|] eqn:Hu.
        -- destruct (time_Parse u) as [until|] eqn:Hpu.
           ++ destruct (sn_Time sn >? until)%Z eqn:Hgt.
              ** split; [discriminate|]. intros (_ & _ & _ & _ & Huntil).
                 specialize (Huntil u until eq_refl Hpu). lia.
              ** split; [|reflexivity]. intros _.
                 repeat split; try assumption.
                 --- intros s' t' [= <-] Ht'. rewrite Hps in Ht'.
                     injection Ht' as <-. lia.
                 --- intros s' t' [= <-] Ht'. rewrite Hpu in Ht'.
                     injection Ht' as <-. lia.
           ++ split; [|reflexivity]. intros _.
              repeat split; try assumption.
              --- intros s' t' [= <-] Ht'. rewrite Hps in Ht'.
                  injection Ht' as <-. lia.
              --- intros s' t' [= <-] Ht'. congruence.
        -- split; [|reflexivity]. intros _.
           repeat split; try assumption.
           --- intros s' t' [= <-] Ht'. rewrite Hps in Ht'.
               injection Ht' as <-. lia.
           --- intros s' t' Habs. discriminate.
    + destruct (sf_Until filter) as [u|] eqn:Hu.
      * destruct (time_Parse u) as [until|] eqn:Hpu.
        -- destruct (sn_Time sn >? until)%Z eqn:Hgt.
           ++ split; [discriminate|]. intros (_ & _ & _ & _ & Huntil).
              specialize (Huntil u until eq_refl Hpu). lia.
           ++ split; [|reflexivity]. intros _.
              repeat split; try assumption.
              --- intros s' t' [= <-] Ht'. congruence.
              --- intros s' t' [= <-] Ht'. rewrite Hpu in Ht'.
                  injection Ht' as <-. lia.
        -- split; [|reflexivity]. intros _.
           repeat split; try assumption.
           --- intros s' t' [= <-] Ht'. congruence.
           --- intros s' t' [= <-] Ht'. congruence.
      * split; [|reflexivity]. intros _.
        repeat split; try assumption.
        --- intros s' t' [= <-] Ht'. congruence.
        --- intros s' t' Habs. discriminate.
  - destruct (sf_Until filter) as [u|] eqn:Hu.
    + destruct (time_Parse u) as [until|] eqn:Hpu.
      * destruct (sn_Time sn >? until)%Z eqn:Hgt.
        -- split; [discriminate|]. intros (_ & _ & _ & _ & Huntil).
           specialize (Huntil u until eq_refl Hpu). lia.
        -- split; [|reflexivity]. intros _.
           repeat split; try assumption.
           --- intros s' t' Habs. discriminate.
           --- intros s' t' [= <-] Ht'. rewrite Hpu in Ht'.
               injection Ht' as <-. lia.
      * split; [|reflexivity]. intros _.
        repeat split; try assumption.
        --- intros s' t' Habs. discriminate.
        --- intros s' t' [= <-] Ht'. congruence.
    + split; [|reflexivity]. intros _.
      repeat split; try assumption; intros s' t' Habs; discriminate.
Qed.

End FilterMore.

(** ** More on [Forget] *)

Lemma removeSnapshotFile_RemoveErr (r : repositoryImpl) (id : string) :
  repo_RemoveErr (removeSnapshotFile r id) = repo_RemoveErr r.
Proof. reflexivity. Qed.

Lemma fold_removeSnapshotFile_RemoveErr (ids : list string) :
  forall r, repo_RemoveErr (fold_left removeSnapshotFile ids r) = repo_RemoveErr r.
Proof.
  induction ids as [|id rest IH]; intros r; cbn; [reflexivity|].
  now rewrite IH.
Qed.

(** The removal loop appends the ids it removed to [removedIDs], and leaves
    the repository without the files of exactly these ids. *)
Lemma removeLoop_fold (remove : list data_Snapshot) :
  forall r removedIDs,
    exists new,
      removeLoop remove r removedIDs
      = (fold_left removeSnapshotFile new r, (removedIDs ++ new)%list)
      /\ forall id,
           In id new
           <-> exists sn, In sn remove /\ sn_ID sn = id
                          /\ repo_RemoveErr r id = None.
Proof.
  induction remove as [|sn rest IH]; intros r removedIDs; cbn [removeLoop].
  - exists []. rewrite app_nil_r. split; [reflexivity|].
    intros id. split; [intros []|intros (sn & [] & _)].
  - destruct (repo_RemoveErr r (sn_ID sn)) as [err|] eqn:Herr.
    + destruct (IH r removedIDs) as (new & Heq & Hin).
      exists new. split; [exact Heq|].
      intros id. rewrite Hin. split.
      * intros (x & Hx & Hid & Hok). exists x. split; [now right|]. auto.
      * intros (x & [<-|Hx] & Hid & Hok); [congruence|].
        exists x. auto.
    + destruct (IH (removeSnapshotFile r (sn_ID sn))
                  (removedIDs ++ [sn_ID sn])%list) as (new & Heq & Hin).
      exists (sn_ID sn :: new). split.
      * rewrite Heq. cbn [fold_left]. now rewrite <- app_assoc.
      * intros id. cbn [In]. rewrite Hin, removeSnapshotFile_RemoveErr.
        split.
        -- intros [<-|(x & Hx & Hid & Hok)].
           ++ exists sn. split; [now left|]. auto.
           ++ exists x. split; [now right|]. auto.
        -- intros (x & [<-|Hx] & Hid & Hok); [now left|].
           right. exists x. auto.
Qed.

Lemma fold_removeSnapshotFile_app (a b : list string) (r : repositoryImpl) :
  fold_left removeSnapshotFile (a ++ b)%list r
  = fold_left removeSnapshotFile b (fold_left removeSnapshotFile a r).
Proof. apply fold_left_app. Qed.

Lemma fold_removeSnapshotFile_files (ids : list string) :
  forall r,
    repo_SnapshotFiles (fold_left removeSnapshotFile ids r)
    = List.filter (fun f => negb (existsb (String.eqb (fst f)) ids))
        (repo_SnapshotFiles r).
Proof.
  induction ids as [|id rest IH]; intros r; cbn [fold_left existsb].
  - cbn. induction (repo_SnapshotFiles r) as [|f fs IHf]; [reflexivity|].
    cbn. now rewrite <- IHf.
  - rewrite IH. cbn [removeSnapshotFile repo_SnapshotFiles].
    induction (repo_SnapshotFiles r) as [|f fs IHf]; [reflexivity|].
    cbn [List.filter]. destruct (String.eqb (fst f) id) eqn:Heq; cbn.
    + exact IHf.
    + now rewrite IHf.
Qed.

Lemma fold_removeSnapshotFile_packs (ids : list string) :
  forall r,
    repo_PackFiles (fold_left removeSnapshotFile ids r) = repo_PackFiles r.
Proof.
  induction ids as [|id rest IH]; intros r; cbn; [reflexivity|].
  now rewrite IH.
Qed.

Section RetentionMore.

Variable Duration : Type.
Variable zeroDuration : Duration.
Variable data_ParseDuration : string -> Duration + error.
Variable data_GroupSnapshots :
  list data_Snapshot -> list (list data_Snapshot) * option error.
Variable data_ApplyPolicy :
  list data_Snapshot -> data_ExpirePolicy Duration ->
  list data_Snapshot * list data_Snapshot.

Local Abbreviation policyFor :=
  (internalPolicy Duration zeroDuration data_ParseDuration).
Local Abbreviation loopOver :=
  (forgetGroups Duration zeroDuration data_ParseDuration data_ApplyPolicy).
Local Abbreviation forgetIn :=
  (Forget Duration zeroDuration data_ParseDuration data_GroupSnapshots
     data_ApplyPolicy).

(** With a policy that converts, the loop over the groups returns no error;
    it removes the files of the ids it appends, and these are the ids of
    the removal sets of the groups with a non-empty keep set whose removal
    succeeds. *)
Lemma forgetGroups_fold (policy : ForgetPolicy) (p : data_ExpirePolicy Duration) :
  policyFor policy = inl p ->
  forall groups r removedIDs,
    exists new,
      loopOver policy groups r removedIDs
      = (fold_left removeSnapshotFile new r, ((removedIDs ++ new)%list, None))
      /\ forall id,
           In id new
           <-> exists g sn,
                 In g groups /\ fst (data_ApplyPolicy g p) <> []
                 /\ In sn (snd (data_ApplyPolicy g p)) /\ sn_ID sn = id
                 /\ repo_RemoveErr r id = None.
Proof.
  intros Hp. induction groups as [|group rest IH]; intros r removedIDs;
    cbn [forgetGroups].
  - exists []. rewrite app_nil_r. split; [reflexivity|].
    intros id. split; [intros []|intros (g & sn & [] & _)].
  - rewrite Hp. destruct (data_ApplyPolicy group p) as [keep remove] eqn:Happly.
    destruct ((length keep =? 0)%nat && (0 <? length remove)%nat) eqn:Hskip.
    + destruct (IH r removedIDs) as (new & Heq & Hin).
      exists new. split; [exact Heq|].
      intros id. rewrite Hin. split.
      * intros (g & sn & Hg & Hrest). exists g, sn. split; [now right|exact Hrest].
      * intros (g & sn & [<-|Hg] & Hkeep & Hrest).
        -- rewrite Happly in Hkeep. cbn in Hkeep.
           apply andb_true_iff in Hskip as [Hk _].
           destruct keep; [congruence|discriminate].
        -- exists g, sn. auto.
    + destruct (removeLoop_fold remove r removedIDs) as (new1 & Heq1 & Hin1).
      rewrite Heq1.
      destruct (IH (fold_left removeSnapshotFile new1 r)
                  (removedIDs ++ new1)%list) as (new2 & Heq2 & Hin2).
      exists (new1 ++ new2)%list. split.
      * rewrite Heq2, fold_removeSnapshotFile_app, app_assoc. reflexivity.
      * intros id. rewrite in_app_iff, Hin1, Hin2.
        rewrite fold_removeSnapshotFile_RemoveErr. split.
        -- intros [(sn & Hsn & Hid & Hok)|(g & sn & Hg & Hrest)].
           ++ exists group, sn. rewrite Happly. cbn.
              repeat split; try assumption; [now left|].
              intros ->. cbn in Hskip.
              destruct remove; [destruct Hsn|discriminate].
           ++ exists g, sn. split; [now right|exact Hrest].
        -- intros (g & sn & [<-|Hg] & Hkeep & Hsn & Hid & Hok).
           ++ left. rewrite Happly in Hsn. exists sn. auto.
           ++ right. exists g, sn. auto.
Qed.

(** With a policy that does not convert, the loop fails at the first
    group, before anything is removed. *)
Lemma forgetGroups_bad_policy (policy : ForgetPolicy) (err : error) :
  policyFor policy = inr err ->
  forall groups r removedIDs,
    loopOver policy groups r removedIDs
    = match groups with
      | [] => (r, (removedIDs, None))
      | _ :: _ => (r, ([], Some err))
      end.
Proof.
  intros Hp [|group rest] r removedIDs; cbn [forgetGroups]; [reflexivity|].
  now rewrite Hp.
Qed.

(** X4.  Whenever [Forget] returns an error, it has removed nothing: the
    repository is as it was and no id is reported. *)
Theorem Forget_error_removes_nothing (r : repositoryImpl) (policy : ForgetPolicy) :
  snd (snd (forgetIn r policy)) <> None ->
  fst (forgetIn r policy) = r /\ fst (snd (forgetIn r policy)) = [].
Proof.
  unfold Forget. destruct (Empty policy); [intros _; split; reflexivity|].
  destruct (repo_ListSnapshotsErr r); [intros _; split; reflexivity|].
  destruct (data_GroupSnapshots _) as [groups [err|]];
    [intros _; split; reflexivity|].
  destruct (policyFor policy) as [p|err] eqn:Hp.
  - destruct (forgetGroups_fold policy p Hp groups r []) as (new & Heq & _).
    rewrite Heq. cbn. congruence.
  - rewrite (forgetGroups_bad_policy policy err Hp).
    destruct groups; cbn; [congruence|]. intros _. split; reflexivity.
Qed.

(** X5.  After [Forget], the repository is the one before without the
    snapshot files of the ids reported as removed: exactly these files are
    gone, in the same order as before, and the pack files are untouched. *)
Theorem Forget_removes_reported_files (r : repositoryImpl) (policy : ForgetPolicy) :
  fst (forgetIn r policy)
  = fold_left removeSnapshotFile (fst (snd (forgetIn r policy))) r
  /\ repo_SnapshotFiles (fst (forgetIn r policy))
     = List.filter
         (fun f => negb (existsb (String.eqb (fst f))
                           (fst (snd (forgetIn r policy)))))
         (repo_SnapshotFiles r)
  /\ repo_PackFiles (fst (forgetIn r policy)) = repo_PackFiles r.
Proof.
  assert (Hfold : fst (forgetIn r policy)
                  = fold_left removeSnapshotFile (fst (snd (forgetIn r policy))) r).
  { unfold Forget. destruct (Empty policy); [reflexivity|].
    destruct (repo_ListSnapshotsErr r); [reflexivity|].
    destruct (data_GroupSnapshots _) as [groups [err|]]; [reflexivity|].
    destruct (policyFor policy) as [p|err] eqn:Hp.
    - destruct (forgetGroups_fold policy p Hp groups r []) as (new & Heq & _).
      rewrite Heq. reflexivity.
    - rewrite (forgetGroups_bad_policy policy err Hp).
      destruct groups; reflexivity. }
  split; [exact Hfold|]. split.
  - rewrite Hfold. apply fold_removeSnapshotFile_files.
  - rewrite Hfold. apply fold_removeSnapshotFile_packs.
Qed.

(** X6.  When the listing, the grouping and the conversion of the policy
    succeed, [Forget] returns no error and reports exactly the ids of the
    snapshots that the policy marks for removal in a group where it keeps
    at least one snapshot, and whose removal from the repository succeeds.
    A removal that fails is left out and does not stop the others. *)
Theorem Forget_reports_exactly
    (r : repositoryImpl) (policy : ForgetPolicy)
    (p : data_ExpirePolicy Duration) (groups : list (list data_Snapshot)) :
  Empty policy = false ->
  repo_ListSnapshotsErr r = None ->
  data_GroupSnapshots (loadAllSnapshots (repo_SnapshotFiles r) [])
  = (groups, None) ->
  policyFor policy = inl p ->
  snd (snd (forgetIn r policy)) = None
  /\ forall id,
       In id (fst (snd (forgetIn r policy)))
       <-> exists g sn,
             In g groups /\ fst (data_ApplyPolicy g p) <> []
             /\ In sn (snd (data_ApplyPolicy g p)) /\ sn_ID sn = id
             /\ repo_RemoveErr r id = None.
Proof.
  intros Hempty Hlist Hgroups Hp. unfold Forget.
  rewrite Hempty, Hlist, Hgroups.
  destruct (forgetGroups_fold policy p Hp groups r []) as (new & Heq & Hin).
  rewrite Heq. cbn. split; [reflexivity|exact Hin].
Qed.

(** X7.  A [KeepWithin] that does not parse is noticed only when there is a
    group to apply the policy to: with no group [Forget] succeeds and
    removes nothing, with at least one group it returns the error of the
    duration and removes nothing. *)
Theorem Forget_unparsed_KeepWithin
    (r : repositoryImpl) (policy : ForgetPolicy) (s : string) (err : error)
    (groups : list (list data_Snapshot)) :
  KeepWithin policy = Some s ->
  data_ParseDuration s = inr err ->
  repo_ListSnapshotsErr r = None ->
  data_GroupSnapshots (loadAllSnapshots (repo_SnapshotFiles r) [])
  = (groups, None) ->
  forgetIn r policy
  = (r, ([], match groups with
             | [] => None
             | _ :: _ =>
                 Some ("invalid keep-within duration " ++ quoted s ++ ": " ++ err)
             end)).
Proof.
  intros Hwithin Hparse Hlist Hgroups. unfold Forget.
  assert (Hempty : Empty policy = false).
  { unfold Empty. rewrite Hwithin.
    now rewrite !andb_false_r. }
  rewrite Hempty, Hlist, Hgroups.
  rewrite (forgetGroups_bad_policy policy
             ("invalid keep-within duration " ++ quoted s ++ ": " ++ err)).
  - destruct groups; reflexivity.
  - unfold internalPolicy. now rewrite Hwithin, Hparse.
Qed.

End RetentionMore.

Lemma Forget_error_removes_nothing_witness :
  fst (Forget Z 0%Z parseDays spec_GroupSnapshots (spec_ApplyPolicy sampleNow)
         mixedRepository keepWithinSoon) = mixedRepository
  /\ fst (snd (Forget Z 0%Z parseDays spec_GroupSnapshots
                 (spec_ApplyPolicy sampleNow) mixedRepository keepWithinSoon))
     = [].
Proof.
  apply (Forget_error_removes_nothing Z 0%Z parseDays spec_GroupSnapshots
           (spec_ApplyPolicy sampleNow) mixedRepository keepWithinSoon).
  vm_compute. discriminate.
Defined.

(** In the repository that refuses to delete the older snapshot of [h2],
    [keepLastOne] marks that snapshot for removal; nothing is reported and
    no error is returned. *)
Lemma Forget_reports_exactly_witness :
  snd (snd (Forget Z 0%Z parseDays spec_GroupSnapshots
              (spec_ApplyPolicy sampleNow) stubbornRepository keepLastOne))
  = None
  /\ forall id,
       In id (fst (snd (Forget Z 0%Z parseDays spec_GroupSnapshots
                          (spec_ApplyPolicy sampleNow) stubbornRepository
                          keepLastOne)))
       <-> exists g sn,
             In g [otherHostSnapshots]
             /\ fst (spec_ApplyPolicy sampleNow g lastOneExpirePolicy) <> []
             /\ In sn (snd (spec_ApplyPolicy sampleNow g lastOneExpirePolicy))
             /\ sn_ID sn = id
             /\ repo_RemoveErr stubbornRepository id = None.
Proof.
  exact (Forget_reports_exactly Z 0%Z parseDays spec_GroupSnapshots
           (spec_ApplyPolicy sampleNow) stubbornRepository keepLastOne
           lastOneExpirePolicy [otherHostSnapshots]
           eq_refl eq_refl eq_refl eq_refl).
Defined.

Example Forget_stubborn_reports_nothing :
  Forget Z 0%Z parseDays spec_GroupSnapshots (spec_ApplyPolicy sampleNow)
    stubbornRepository keepLastOne
  = (stubbornRepository, ([], None)).
Proof. vm_compute. reflexivity. Qed.

Lemma Forget_unparsed_KeepWithin_witness :
  Forget Z 0%Z parseDays spec_GroupSnapshots (spec_ApplyPolicy sampleNow)
    (sampleRepository []) keepWithinSoon
  = (sampleRepository [], ([], None))
  /\ Forget Z 0%Z parseDays spec_GroupSnapshots (spec_ApplyPolicy sampleNow)
       mixedRepository keepWithinSoon
     = (mixedRepository,
        ([], Some ("invalid keep-within duration " ++ quoted "soon" ++ ": "
                   ++ "invalid duration soon"))).
Proof.
  split.
  - exact (Forget_unparsed_KeepWithin Z 0%Z parseDays spec_GroupSnapshots
             (spec_ApplyPolicy sampleNow) (sampleRepository []) keepWithinSoon
             "soon" "invalid duration soon" []
             eq_refl eq_refl eq_refl eq_refl).
  - exact (Forget_unparsed_KeepWithin Z 0%Z parseDays spec_GroupSnapshots
             (spec_ApplyPolicy sampleNow) mixedRepository keepWithinSoon
             "soon" "invalid duration soon"
             [tenSnapshots; otherHostSnapshots]
             eq_refl eq_refl eq_refl eq_refl).
Defined.

(** ** More on [Check] *)

Lemma errsLoop_spec (errs : list error) :
  forall report,
    errsLoop errs report
    = {| Errors := (Errors report ++ errs)%list;
         Warnings := Warnings report;
         Success := match errs with
                    | [] => Success report
                    | _ :: _ => false
                    end |}.
Proof.
  induction errs as [|err rest IH]; intros report; cbn [errsLoop].
  - rewrite app_nil_r. now destruct report.
  - rewrite IH. cbn. rewrite <- app_assoc. cbn. now destruct rest.
Qed.

(** X8.  In every report that [Check] returns, [Success] is true exactly
    when [Errors] is empty, and a report returned with an error is never a
    success. *)
Theorem Check_success_iff_no_errors (r : repositoryImpl) (depth : string) :
  (Success (fst (Check r depth)) = true <-> Errors (fst (Check r depth)) = [])
  /\ (snd (Check r depth) <> None -> Success (fst (Check r depth)) = false).
Proof.
  destruct (repo_LoadIndexErr r) as [err|] eqn:Hindex.
  { unfold Check. rewrite Hindex. cbn. split; [|reflexivity].
    split; discriminate. }
  destruct (checker_errs r) as [|e errs] eqn:Herrs.
  - rewrite (Check_after_index r depth Hindex Herrs). cbn [fst snd Success Errors].
    split; [|congruence].
    destruct (checker_Packs r) as [|pk pks]; cbn.
    + destruct (String.eqb depth CheckDepthReadData).
      * destruct (checker_ReadData r); cbn; split; congruence.
      * split; reflexivity.
    + split; discriminate.
  - unfold Check. rewrite Hindex, Herrs. cbn [length Nat.ltb Nat.leb].
    rewrite hintsLoop_spec, errsLoop_spec. cbn.
    split; [|reflexivity]. split; discriminate.
Qed.

(** X9.  Only the depth [read_data] reads pack data: with any other depth,
    [full] included, [Check] returns what it returns for [default]; with
    [read_data] and an index that passes, the errors are those of
    [default] followed by the data errors. *)
Theorem Check_depth (r : repositoryImpl) (depth : string) :
  (depth <> CheckDepthReadData -> Check r depth = Check r CheckDepthDefault)
  /\ Check r CheckDepthFull = Check r CheckDepthDefault
  /\ (snd (Check r CheckDepthReadData) = None ->
      Errors (fst (Check r CheckDepthReadData))
      = (Errors (fst (Check r CheckDepthDefault))
         ++ map (String.append "data error: ") (checker_ReadData r))%list
      /\ Warnings (fst (Check r CheckDepthReadData))
         = Warnings (fst (Check r CheckDepthDefault))).
Proof.
  split; [|split].
  - intros Hdepth. unfold Check.
    destruct (String.eqb depth CheckDepthReadData) eqn:Heq.
    + apply String.eqb_eq in Heq. contradiction.
    + reflexivity.
  - reflexivity.
  - destruct (repo_LoadIndexErr r) as [err|] eqn:Hindex.
    { unfold Check. rewrite Hindex. discriminate. }
    destruct (checker_errs r) as [|e errs] eqn:Herrs.
    + rewrite !(Check_after_index r _ Hindex Herrs). cbn. intros _.
      rewrite app_nil_r. split; reflexivity.
    + unfold Check. rewrite Hindex, Herrs. discriminate.
Qed.

(** X10.  When the index loads and its check reports errors, [Check]
    returns the error [index check failed] with exactly these errors in
    the report and every hint as a warning; the packs are not checked. *)
Theorem Check_stops_at_index_errors (r : repositoryImpl) (depth : string) :
  repo_LoadIndexErr r = None ->
  checker_errs r <> [] ->
  Check r depth
  = ({| Errors := checker_errs r;
        Warnings := checker_hints r;
        Success := false |},
     Some "index check failed").
Proof.
  intros Hindex Herrs. unfold Check. rewrite Hindex.
  destruct (checker_errs r) as [|e errs] eqn:He; [congruence|].
  cbn [length Nat.ltb Nat.leb].
  rewrite hintsLoop_spec, errsLoop_spec. reflexivity.
Qed.

Lemma Check_depth_witness :
  Check repositoryWithDataErrors "quick"
  = Check repositoryWithDataErrors CheckDepthDefault
  /\ Errors (fst (Check repositoryWithDataErrors CheckDepthReadData))
     = (Errors (fst (Check repositoryWithDataErrors CheckDepthDefault))
        ++ map (String.append "data error: ")
             (checker_ReadData repositoryWithDataErrors))%list.
Proof.
  split.
  - apply (proj1 (Check_depth repositoryWithDataErrors "quick")).
    vm_compute. discriminate.
  - apply (proj2 (proj2 (Check_depth repositoryWithDataErrors "quick"))).
    reflexivity.
Defined.

Lemma Check_stops_at_index_errors_witness :
  Check repositoryWithIndexError CheckDepthReadData
  = ({| Errors := ["index is damaged"];
        Warnings := ["index is old"];
        Success := false |},
     Some "index check failed").
Proof.
  apply (Check_stops_at_index_errors repositoryWithIndexError CheckDepthReadData).
  - reflexivity.
  - vm_compute. discriminate.
Defined.

(** ** More on the C bridge *)

(** The conversion of a [C.int] to a key of the table loses nothing. *)
Lemma ResticRepo_inj (a b : Z) :
  is_C_int a -> is_C_int b -> ResticRepo a = ResticRepo b -> a = b.
Proof.
  intros Ha Hb Heq.
  rewrite <- (C_int_of_ResticRepo a Ha), <- (C_int_of_ResticRepo b Hb).
  now rewrite Heq.
Qed.

Lemma ResticRepo_small (x : Z) :
  (0 <= x <= INT_MAX + 1)%Z -> ResticRepo x = x.
Proof.
  unfold ResticRepo, wrap_unsigned, INT_MAX. intros H.
  apply Z.mod_small. lia.
Qed.

Section BridgeMore.

Variable createRepository : Config -> option repositoryImpl.
Variable openRepository : Config -> option repositoryImpl.
Variable Backup :
  repositoryImpl -> BackupOptions -> repositoryImpl * (string * option error).
Variable Restore :
  repositoryImpl -> string -> RestoreOptions -> repositoryImpl * option error.
Variable time_Parse : string -> option Z.
Variable time_Format : Z -> Z -> string.
Variable sort_Slice :
  (data_Snapshot -> data_Snapshot -> bool) -> list data_Snapshot ->
  list data_Snapshot.

Lemma register_registered (st : Bridge) (repo : repositoryImpl) :
  (1 <= nextRepoID st <= INT_MAX)%Z ->
  registered st (fst (register st repo)) (snd (register st repo)) repo.
Proof.
  intros Hrange. unfold register, registered. cbn [fst snd repositories nextRepoID].
  assert (Hc : C_int (nextRepoID st) = nextRepoID st).
  { apply C_int_id. unfold is_C_int, INT_MIN, INT_MAX in *. lia. }
  assert (Hk : ResticRepo (nextRepoID st) = nextRepoID st).
  { apply ResticRepo_small. lia. }
  rewrite Hc, Hk. repeat split.
  - lia.
  - apply lookup_insert_eq.
  - apply ResticRepo_small. lia.
  - intros h Hh Hne. apply lookup_insert_ne. intros Heq. apply Hne.
    apply ResticRepo_inj; [exact Hh| |].
    + unfold is_C_int, INT_MIN, INT_MAX in *. lia.
    + now rewrite Hk.
Qed.

(** X11.  While the counter is between 1 and [INT_MAX], [restic_init] and
    [restic_open] have two outcomes.  If an argument is [nil], or [Init]
    (resp. [Open]) fails, the call returns [RESTIC_ERROR_INVALID_PARAMS],
    resp. [RESTIC_ERROR_REPO_NOT_FOUND] ([RESTIC_ERROR_INVALID_PASSWORD]
    for [restic_open]), and the table and the counter are as they were.
    Otherwise the call returns the counter's value, a positive handle
    under which the table now holds the repository, and the entries of all
    other handles are as they were. *)
Theorem create_outcomes (st : Bridge)
    (repo_url backend password access_key secret_key : option string)
    (parallelism : Z) :
  (1 <= nextRepoID st <= INT_MAX)%Z ->
  let config :=
    match repo_url, backend, password with
    | Some u, Some b, Some p =>
        Some (makeConfig u b p access_key secret_key parallelism)
    | _, _, _ => None
    end in
  let initialised := restic_init createRepository st repo_url backend password
                       access_key secret_key parallelism in
  let opened := restic_open openRepository st repo_url backend password
                  access_key secret_key parallelism in
  match config with
  | None =>
      initialised = (st, RESTIC_ERROR_INVALID_PARAMS)
      /\ opened = (st, RESTIC_ERROR_INVALID_PARAMS)
  | Some cfg =>
      match Init createRepository cfg with
      | None => initialised = (st, RESTIC_ERROR_REPO_NOT_FOUND)
      | Some repo => registered st (fst initialised) (snd initialised) repo
      end
      /\ match Open openRepository cfg with
         | None => opened = (st, RESTIC_ERROR_INVALID_PASSWORD)
         | Some repo => registered st (fst opened) (snd opened) repo
         end
  end.
Proof.
  intros Hrange. cbn zeta. unfold restic_init, restic_open.
  destruct repo_url as [u|], backend as [b|], password as [p|];
    try (split; reflexivity).
  split.
  - destruct (Init createRepository _) as [repo|]; [|reflexivity].
    now apply register_registered.
  - destruct (Open openRepository _) as [repo|]; [|reflexivity].
    now apply register_registered.
Qed.

(** X12.  [restic_close] on a handle with an entry returns [RESTIC_OK],
    removes that entry and no other, and leaves the counter alone; the
    handle is dead afterwards: a second [restic_close] returns
    [RESTIC_ERROR_INVALID_PARAMS] and changes nothing. *)
Theorem restic_close_releases (st : Bridge) (h : Z) :
  is_C_int h ->
  is_Some (repositories st !! ResticRepo h) ->
  snd (restic_close st h) = RESTIC_OK
  /\ nextRepoID (fst (restic_close st h)) = nextRepoID st
  /\ repositories (fst (restic_close st h)) !! ResticRepo h = None
  /\ restic_close (fst (restic_close st h)) h
     = (fst (restic_close st h), RESTIC_ERROR_INVALID_PARAMS)
  /\ (forall h', is_C_int h' -> h' <> h ->
        repositories (fst (restic_close st h)) !! ResticRepo h'
        = repositories st !! ResticRepo h').
Proof.
  intros Hh [repo Hrepo].
  assert (Hclose : restic_close st h
                   = ({| repositories := delete (ResticRepo h) (repositories st);
                         nextRepoID := nextRepoID st |}, RESTIC_OK)).
  { unfold restic_close. now rewrite Hrepo. }
  rewrite Hclose. cbn [fst snd repositories nextRepoID].
  assert (Hgone : delete (ResticRepo h) (repositories st) !! ResticRepo h = None)
    by apply lookup_delete_eq.
  repeat split.
  - exact Hgone.
  - unfold restic_close. cbn [repositories]. now rewrite Hgone.
  - intros h' Hh' Hne. apply lookup_delete_ne. intros Heq. apply Hne.
    symmetry. now apply ResticRepo_inj.
Qed.

(** X13.  Only [restic_init], [restic_open] and [restic_close] change which
    handles have an entry: [restic_list_snapshots] and [restic_check] leave
    the table and the counter as they are, and [restic_backup] and
    [restic_restore] leave the counter and the set of keys as they are. *)
Theorem handle_operations_keep_handles (st : Bridge) (h : Z) :
  fst (restic_list_snapshots time_Parse time_Format sort_Slice st h) = st
  /\ fst (restic_check st h) = st
  /\ (forall paths paths_count tags tags_count,
        let st' := fst (restic_backup Backup st h paths paths_count
                          tags tags_count) in
        nextRepoID st' = nextRepoID st
        /\ forall key, is_Some (repositories st' !! key)
                       <-> is_Some (repositories st !! key))
  /\ (forall snapshot_id target_dir,
        let st' := fst (restic_restore Restore st h snapshot_id target_dir) in
        nextRepoID st' = nextRepoID st
        /\ forall key, is_Some (repositories st' !! key)
                       <-> is_Some (repositories st !! key)).
Proof.
  assert (Hstore : forall repo repo',
    repositories st !! ResticRepo h = Some repo ->
    forall key,
      is_Some (repositories (store st (ResticRepo h) repo') !! key)
      <-> is_Some (repositories st !! key)).
  { intros repo repo' Hrepo key. unfold store. cbn [repositories].
    destruct (decide (key = ResticRepo h)) as [->|Hne].
    - rewrite lookup_insert_eq, Hrepo. split; eauto.
    - now rewrite lookup_insert_ne by congruence. }
  split; [|split; [|split]].
  - unfold restic_list_snapshots.
    destruct (repositories st !! ResticRepo h) as [repo|]; [|reflexivity].
    destruct (Snapshots _ _ _ repo emptyFilter) as [snapshots [err|]];
      [reflexivity|].
    destruct (length snapshots =? 0)%nat; reflexivity.
  - unfold restic_check.
    destruct (repositories st !! ResticRepo h) as [repo|]; [|reflexivity].
    destruct (Check repo CheckDepthDefault) as [report [err|]]; reflexivity.
  - intros paths paths_count tags tags_count. cbn zeta. unfold restic_backup.
    destruct (repositories st !! ResticRepo h) as [repo|] eqn:Hrepo;
      [|split; [reflexivity|tauto]].
    destruct paths as [cPaths|]; [|split; [reflexivity|tauto]].
    destruct (paths_count <=? 0)%Z; [split; [reflexivity|tauto]|].
    destruct (Backup repo _) as [repo' [snapshotID [err|]]];
      cbn [fst]; (split; [reflexivity|now apply Hstore with repo]).
  - intros snapshot_id target_dir. cbn zeta. unfold restic_restore.
    destruct (repositories st !! ResticRepo h) as [repo|] eqn:Hrepo;
      [|split; [reflexivity|tauto]].
    destruct snapshot_id as [id|]; [|split; [reflexivity|tauto]].
    destruct target_dir as [dir|]; [|split; [reflexivity|tauto]].
    destruct (Restore repo id _) as [repo' [err|]];
      cbn [fst]; (split; [reflexivity|now apply Hstore with repo]).
Qed.

End BridgeMore.

Lemma create_outcomes_witness :
  registered Bridge_init
    (fst (restic_open (sample_open (sampleRepository tenSnapshots)) Bridge_init
            (Some "/srv/repo") (Some "local") (Some "secret") None None 1))
    (snd (restic_open (sample_open (sampleRepository tenSnapshots)) Bridge_init
            (Some "/srv/repo") (Some "local") (Some "secret") None None 1))
    (sampleRepository tenSnapshots)
  /\ restic_init (sample_open (sampleRepository tenSnapshots)) Bridge_init
       (Some "/srv/repo") (Some "local") (Some "") None None 1
     = (Bridge_init, RESTIC_ERROR_REPO_NOT_FOUND).
Proof.
  assert (Hrange : (1 <= nextRepoID Bridge_init <= INT_MAX)%Z)
    by (cbn; unfold INT_MAX; lia).
  split.
  - exact (proj2 (create_outcomes (sample_open (sampleRepository tenSnapshots))
                    (sample_open (sampleRepository tenSnapshots)) Bridge_init
                    (Some "/srv/repo") (Some "local") (Some "secret") None None 1
                    Hrange)).
  - exact (proj1 (create_outcomes (sample_open (sampleRepository tenSnapshots))
                    (sample_open (sampleRepository tenSnapshots)) Bridge_init
                    (Some "/srv/repo") (Some "local") (Some "") None None 1
                    Hrange)).
Defined.

Lemma restic_close_releases_witness :
  snd (restic_close bridgeWithTen 1) = RESTIC_OK
  /\ restic_close (fst (restic_close bridgeWithTen 1)) 1
     = (fst (restic_close bridgeWithTen 1), RESTIC_ERROR_INVALID_PARAMS).
Proof.
  assert (Hh : is_C_int 1) by (unfold is_C_int, INT_MIN, INT_MAX; lia).
  assert (Hlive : is_Some (repositories bridgeWithTen !! ResticRepo 1))
    by (exists (sampleRepository tenSnapshots); reflexivity).
  destruct (restic_close_releases bridgeWithTen 1 Hh Hlive)
    as (Hok & _ & _ & Hagain & _).
  split; [exact Hok|exact Hagain].
Defined.

(** ** The example command line *)

Lemma startsWith_prefix (repoURL prefix : string) :
  startsWith repoURL prefix = String.prefix prefix repoURL.
Proof.
  unfold startsWith. revert repoURL.
  induction prefix as [|c prefix IH]; intros [|d repoURL]; cbn;
    try reflexivity.
  - destruct (Ascii.eqb_spec d c) as [->|Hne].
    + rewrite <- IH.
      destruct (Ascii.ascii_dec c c) as [_|Habs]; [|contradiction].
      change (String.length prefix <=? String.length repoURL)%nat
        with (Nat.leb (String.length prefix) (String.length repoURL)).
      reflexivity.
    + destruct (Ascii.ascii_dec c d) as [Heq|_]; [congruence|].
      now rewrite andb_false_r.
Qed.

Lemma prefix_app (prefix repoURL : string) :
  String.prefix prefix repoURL = true ->
  exists rest, repoURL = prefix ++ rest.
Proof.
  revert repoURL. induction prefix as [|c prefix IH]; intros repoURL H.
  - exists repoURL. reflexivity.
  - destruct repoURL as [|d repoURL]; [discriminate|]. cbn in H.
    destruct (Ascii.ascii_dec c d) as [->|_]; [|discriminate].
    destruct (IH repoURL H) as [rest ->]. exists rest. reflexivity.
Qed.

Lemma prefix_of_app (prefix rest : string) :
  String.prefix prefix (prefix ++ rest) = true.
Proof.
  induction prefix as [|c prefix IH]; [now destruct rest|].
  simpl. destruct (Ascii.ascii_dec c c) as [_|Habs]; [exact IH|contradiction].
Qed.

(** X21.  [detectBackend] names the backend after the scheme the URL
    starts with: a URL that starts with one of the seven prefixes [s3:],
    [azure:], [gs:], [b2:], [sftp:], [swift:], [rest:] gets the kind of its
    prefix ([gcs] for [gs:]), whatever follows; every result other than
    [local] comes from such a prefix, so a URL with another scheme, or with
    none, is taken to be a local path. *)
Theorem detectBackend_by_prefix (repoURL : string) :
  (forall prefix kind rest,
     In (prefix, kind) knownPrefixes ->
     detectBackend (prefix ++ rest) = kind)
  /\ (detectBackend repoURL <> BackendLocal ->
      exists prefix rest,
        In (prefix, detectBackend repoURL) knownPrefixes
        /\ repoURL = prefix ++ rest).
Proof.
  split.
  - intros prefix kind rest Hin. cbn [knownPrefixes In] in Hin.
    repeat (destruct Hin as [[= <- <-]|Hin];
            [unfold detectBackend; rewrite !startsWith_prefix;
             rewrite prefix_of_app; reflexivity|]).
    destruct Hin.
  - unfold detectBackend. rewrite !startsWith_prefix.
    destruct ((0 <? String.length repoURL)%nat && _); [congruence|].
    repeat match goal with
    | |- context [String.prefix ?p repoURL] =>
        destruct (String.prefix p repoURL) eqn:?
    end;
    try congruence;
    intros _;
    match goal with
    | H : String.prefix ?p repoURL = true |- _ =>
        destruct (prefix_app p repoURL H) as [rest ->];
        exists p, rest; split; [cbn; tauto|reflexivity]
    end.
Qed.

Example detectBackend_rclone : detectBackend "rclone:remote:repo" = BackendLocal.
Proof. reflexivity. Qed.

Example detectBackend_drive : detectBackend "C:\repo" = BackendLocal.
Proof. reflexivity. Qed.

(** ** Handles in range, and [restic_check] *)

Section BridgeRuns.

Variable createRepository : Config -> option repositoryImpl.
Variable openRepository : Config -> option repositoryImpl.
Variable Backup :
  repositoryImpl -> BackupOptions -> repositoryImpl * (string * option error).
Variable Restore :
  repositoryImpl -> string -> RestoreOptions -> repositoryImpl * option error.
Variable time_Parse : string -> option Z.
Variable time_Format : Z -> Z -> string.
Variable sort_Slice :
  (data_Snapshot -> data_Snapshot -> bool) -> list data_Snapshot ->
  list data_Snapshot.

Local Abbreviation runFrom :=
  (run createRepository openRepository Backup Restore
     time_Parse time_Format sort_Slice).

(** X22.  In a run of the bridge from its initial state in which at most
    [INT_MAX] handles are issued, the handles issued are 1, 2, 3, ... in
    this order: each is positive, each is greater than the ones before it,
    and none is issued twice, whether or not handles are closed in
    between. *)
Theorem handles_in_range (calls : list Call) :
  (Z.of_nat (length (issued (snd (runFrom Bridge_init calls)))) <= INT_MAX)%Z ->
  let handles := issued (snd (runFrom Bridge_init calls)) in
  (forall i h, handles !! i = Some h -> h = (1 + Z.of_nat i)%Z)
  /\ Forall (fun h => 0 < h)%Z handles
  /\ StronglySorted Z.lt handles
  /\ NoDup handles.
Proof.
  intros Hbound. cbn zeta.
  destruct (run_issued createRepository openRepository Backup Restore
              time_Parse time_Format sort_Slice calls Bridge_init 0 eq_refl)
    as [Hissued _].
  set (n := length (issued (snd (runFrom Bridge_init calls)))) in *.
  assert (Hmap : issued (snd (runFrom Bridge_init calls))
                 = map (fun i => (1 + Z.of_nat i)%Z) (seq 0 n)).
  { rewrite Hissued. apply map_ext_in. intros i Hi.
    apply in_seq in Hi. apply C_int_id.
    unfold is_C_int, INT_MIN, INT_MAX in *. lia. }
  rewrite Hmap. clear Hmap Hissued Hbound.
  assert (Hsorted : forall k m,
    StronglySorted Z.lt (map (fun i => (1 + Z.of_nat i)%Z) (seq k m))).
  { intros k m. revert k. induction m as [|m IH]; intros k; cbn [seq map].
    - constructor.
    - constructor; [apply IH|].
      apply List.Forall_forall. intros x Hx. apply in_map_iff in Hx
        as (i & <- & Hi). apply in_seq in Hi. lia. }
  split; [|split; [|split]].
  - intros i h Hi. rewrite list_lookup_fmap in Hi.
    destruct (seq 0 n !! i) as [j|] eqn:Hj; [|discriminate].
    apply lookup_seq in Hj as [-> _]. cbn in Hi. now injection Hi as <-.
  - apply List.Forall_forall. intros x Hx.
    apply in_map_iff in Hx as (i & <- & _). lia.
  - apply Hsorted.
  - apply NoDup_fmap_2; [|apply NoDup_seq].
    intros i j Hij. lia.
Qed.

(** X23.  [restic_check] on a handle with an entry: it returns
    [RESTIC_OK] exactly when the index loads and the index check reports no
    error, and then writes the number of pack errors, as a [C.int], to
    [errors_out]; otherwise it returns [RESTIC_ERROR_UNKNOWN] and writes
    nothing.  Hints never change the outcome, and the table is as it
    was. *)
Theorem restic_check_outcomes (st : Bridge) (h : Z) (repo : repositoryImpl) :
  repositories st !! ResticRepo h = Some repo ->
  restic_check st h
  = (st,
     match repo_LoadIndexErr repo, checker_errs repo with
     | None, [] =>
         (RESTIC_OK, Some (C_int (Z.of_nat (length (checker_Packs repo)))))
     | _, _ => (RESTIC_ERROR_UNKNOWN, None)
     end).
Proof.
  intros Hrepo.
  destruct (repo_LoadIndexErr repo) as [err|] eqn:Hindex.
  - unfold restic_check, Check. now rewrite Hrepo, Hindex.
  - destruct (checker_errs repo) as [|e errs] eqn:Herrs.
    + now apply restic_check_writes_count.
    + unfold restic_check, Check. rewrite Hrepo, Hindex, Herrs. reflexivity.
Qed.

End BridgeRuns.

Lemma handles_in_range_witness :
  NoDup (issued (snd (afterOpens (sampleRepository tenSnapshots) 3))).
Proof.
  apply (handles_in_range (sample_open (sampleRepository tenSnapshots))
           (sample_open (sampleRepository tenSnapshots))
           sample_Backup sample_Restore parseUTC formatRFC3339 stable_sort_Slice
           (repeat sample_call_open 3)).
  vm_compute. discriminate.
Defined.

Lemma restic_check_outcomes_witness :
  restic_check
    {| repositories := <[1%Z := repositoryWithoutIndex]> ∅; nextRepoID := 2 |} 1
  = ({| repositories := <[1%Z := repositoryWithoutIndex]> ∅; nextRepoID := 2 |},
     (RESTIC_ERROR_UNKNOWN, None)).
Proof.
  exact (restic_check_outcomes
           {| repositories := <[1%Z := repositoryWithoutIndex]> ∅;
              nextRepoID := 2 |} 1 repositoryWithoutIndex eq_refl).
Defined.

(** ** The memory handed across the bridge *)

Lemma uptoNUL_noNUL (s rest : string) :
  noNUL s = true -> uptoNUL (s ++ String Ascii.zero rest) = s.
Proof.
  induction s as [|c s IH]; [reflexivity|].
  change (noNUL (String c s))
    with (negb (Ascii.eqb c Ascii.zero) && noNUL s).
  change (uptoNUL (String c s ++ String Ascii.zero rest))
    with (if Ascii.eqb c Ascii.zero then EmptyString
          else String c (uptoNUL (s ++ String Ascii.zero rest))).
  destruct (Ascii.eqb c Ascii.zero); cbn [negb andb]; [discriminate|].
  intros Hs. now rewrite IH.
Qed.

Section CMemoryFacts.

Variable C_malloc : CHeap -> Z.
Variable uninitialised : nat -> list Z.

(** [malloc] returns the address of a block that is not in use, never
    [NULL], and a block of [n] slots has [n] slots. *)
Hypothesis malloc_fresh : forall heap : CHeap, heap !! C_malloc heap = None.
Hypothesis malloc_not_NULL : forall heap : CHeap, C_malloc heap <> NULL.
Hypothesis uninitialised_length : forall n, length (uninitialised n) = n.

Local Abbreviation nul := (String Ascii.zero EmptyString).

Lemma CString_then_free (heap : CHeap) (s : string) :
  let r := C_CString C_malloc heap s in
  heap !! snd r = None
  /\ snd r <> NULL
  /\ readCString (fst r) (snd r) = Some (uptoNUL (s ++ nul))
  /\ restic_free_string (fst r) (snd r) = Some heap.
Proof.
  cbn zeta. unfold C_CString, allocate. cbn [fst snd].
  split; [apply malloc_fresh|]. split; [apply malloc_not_NULL|]. split.
  - unfold readCString. now rewrite lookup_insert_eq.
  - unfold restic_free_string, C_free.
    destruct (Z.eqb_spec (C_malloc heap) NULL) as [Heq|_].
    + now apply malloc_not_NULL in Heq.
    + rewrite lookup_insert_eq. f_equal. apply delete_insert_id, malloc_fresh.
Qed.

Lemma storeCString_spec (heap : CHeap) (array : Z) (s : string)
    (done todo : list Z) (x : Z) :
  inBounds (length done) = true ->
  heap !! array = Some (CPointers (done ++ x :: todo)) ->
  exists p,
    heap !! p = None /\ p <> NULL /\ p <> array
    /\ storeCString C_malloc heap array (length done) s
       = Some (<[array := CPointers (done ++ p :: todo)]>
                 (<[p := CChars (s ++ nul)]> heap)).
Proof.
  intros Hbounds Harray. exists (C_malloc heap).
  assert (Hne : C_malloc heap <> array).
  { intros Heq. pose proof (malloc_fresh heap) as Hf. rewrite Heq in Hf.
    congruence. }
  split; [apply malloc_fresh|]. split; [apply malloc_not_NULL|].
  split; [exact Hne|].
  unfold storeCString, C_CString, allocate, writeSlot. rewrite Hbounds.
  rewrite lookup_insert_ne by exact Hne. rewrite Harray.
  rewrite length_app. cbn [length].
  destruct (Nat.ltb_spec (length done) (length done + S (length todo)));
    [|lia].
  rewrite insert_app_r_alt by lia. rewrite Nat.sub_diag. reflexivity.
Qed.

(** The loop that fills the arrays, while its index stays below
    [1 << 30]: what it allocates is new, not [NULL] and pairwise distinct;
    slot [i] onwards of each array points to the strings of the snapshots;
    everything else is as it was. *)
Lemma fillArrays_spec (ia ta ha : Z) (snapshots : list Snapshot) :
  ia <> ta -> ia <> ha -> ta <> ha ->
  forall (heap : CHeap) (di dt dh ti tt th : list Z),
    heap !! ia = Some (CPointers (di ++ ti)) ->
    heap !! ta = Some (CPointers (dt ++ tt)) ->
    heap !! ha = Some (CPointers (dh ++ th)) ->
    length dt = length di -> length dh = length di ->
    length snapshots <= length ti ->
    length snapshots <= length tt ->
    length snapshots <= length th ->
    (Z.of_nat (length di + length snapshots) <= arrayLimit)%Z ->
    exists heap' pi pt ph,
      fillArrays C_malloc snapshots (length di) heap ia ta ha = Some heap'
      /\ heap' !! ia
         = Some (CPointers (di ++ pi ++ drop (length snapshots) ti))
      /\ heap' !! ta
         = Some (CPointers (dt ++ pt ++ drop (length snapshots) tt))
      /\ heap' !! ha
         = Some (CPointers (dh ++ ph ++ drop (length snapshots) th))
      /\ NoDup (pi ++ pt ++ ph)
      /\ (forall p, p ∈ (pi ++ pt ++ ph)%list ->
            heap !! p = None /\ p <> NULL)
      /\ Forall2 (fun p s => heap' !! p = Some (CChars (ID s ++ nul)))
           pi snapshots
      /\ Forall2 (fun p s => heap' !! p = Some (CChars (Time s ++ nul)))
           pt snapshots
      /\ Forall2 (fun p s => heap' !! p = Some (CChars (Hostname s ++ nul)))
           ph snapshots
      /\ (forall a, a ∉ (pi ++ pt ++ ph)%list ->
            a <> ia -> a <> ta -> a <> ha -> heap' !! a = heap !! a).
Proof.
  intros Hit Hih Hth.
  induction snapshots as [|s rest IH];
    intros heap di dt dh ti tt th Hia Hta Hha Hdt Hdh Hli Hlt Hlh Hbound.
  - exists heap, [], [], []. cbn [fillArrays length drop app].
    rewrite !drop_0.
    split; [reflexivity|]. do 3 (split; [assumption|]).
    split; [apply NoDup_nil_2|].
    split; [intros q Hq; inversion Hq|].
    do 3 (split; [apply Forall2_nil_2|]).
    reflexivity.
  - destruct ti as [|xi ti]; [cbn in Hli; lia|].
    destruct tt as [|xt tt]; [cbn in Hlt; lia|].
    destruct th as [|xh th]; [cbn in Hlh; lia|].
    cbn [length] in Hli, Hlt, Hlh, Hbound.
    assert (Hbi : inBounds (length di) = true).
    { unfold inBounds. apply Z.ltb_lt. clear - Hbound. lia. }
    assert (Hbt : inBounds (length dt) = true) by (rewrite Hdt; exact Hbi).
    assert (Hbh : inBounds (length dh) = true) by (rewrite Hdh; exact Hbi).
    cbn [fillArrays].
    destruct (storeCString_spec heap ia (ID s) di ti xi Hbi Hia)
      as (p1 & Hp1 & Hn1 & Ha1 & ->).
    set (heap1 := <[ia := CPointers (di ++ p1 :: ti)]>
                    (<[p1 := CChars (ID s ++ nul)]> heap)).
    assert (Hta1 : heap1 !! ta = Some (CPointers (dt ++ xt :: tt))).
    { unfold heap1. rewrite lookup_insert_ne by congruence.
      rewrite lookup_insert_ne by congruence. exact Hta. }
    rewrite <- Hdt.
    destruct (storeCString_spec heap1 ta (Time s) dt tt xt Hbt Hta1)
      as (p2 & Hp2 & Hn2 & Ha2 & ->).
    set (heap2 := <[ta := CPointers (dt ++ p2 :: tt)]>
                    (<[p2 := CChars (Time s ++ nul)]> heap1)).
    assert (Hp2' : heap !! p2 = None /\ p2 <> ia /\ p2 <> p1).
    { unfold heap1 in Hp2.
      apply lookup_insert_None in Hp2 as [Hp2 Hx].
      apply lookup_insert_None in Hp2 as [Hp2 Hy]. auto. }
    destruct Hp2' as (Hp2h & Hp2a & Hp21).
    assert (Hha2 : heap2 !! ha = Some (CPointers (dh ++ xh :: th))).
    { unfold heap2, heap1.
      rewrite lookup_insert_ne by congruence.
      rewrite lookup_insert_ne by congruence.
      rewrite lookup_insert_ne by congruence.
      rewrite lookup_insert_ne by congruence. exact Hha. }
    rewrite Hdt, <- Hdh.
    destruct (storeCString_spec heap2 ha (Hostname s) dh th xh Hbh Hha2)
      as (p3 & Hp3 & Hn3 & Ha3 & ->).
    set (heap3 := <[ha := CPointers (dh ++ p3 :: th)]>
                    (<[p3 := CChars (Hostname s ++ nul)]> heap2)).
    assert (Hp3' : heap !! p3 = None /\ p3 <> ia /\ p3 <> ta
                   /\ p3 <> p1 /\ p3 <> p2).
    { unfold heap2, heap1 in Hp3.
      apply lookup_insert_None in Hp3 as [Hp3 Hx1].
      apply lookup_insert_None in Hp3 as [Hp3 Hx2].
      apply lookup_insert_None in Hp3 as [Hp3 Hx3].
      apply lookup_insert_None in Hp3 as [Hp3 Hx4]. auto 10. }
    destruct Hp3' as (Hp3h & Hp3a & Hp3t & Hp31 & Hp32).
    assert (Hframe3 : forall a, a <> ia -> a <> ta -> a <> ha ->
              a <> p1 -> a <> p2 -> a <> p3 -> heap3 !! a = heap !! a).
    { intros a H1 H2 H3 H4 H5 H6. unfold heap3, heap2, heap1.
      repeat (rewrite lookup_insert_ne by congruence). reflexivity. }
    assert (Hia3 : heap3 !! ia = Some (CPointers ((di ++ [p1]) ++ ti))).
    { unfold heap3, heap2.
      repeat (rewrite lookup_insert_ne by congruence).
      unfold heap1. rewrite lookup_insert_eq. now rewrite <- app_assoc. }
    assert (Hta3 : heap3 !! ta = Some (CPointers ((dt ++ [p2]) ++ tt))).
    { unfold heap3.
      repeat (rewrite lookup_insert_ne by congruence).
      unfold heap2. rewrite lookup_insert_eq. now rewrite <- app_assoc. }
    assert (Hha3 : heap3 !! ha = Some (CPointers ((dh ++ [p3]) ++ th))).
    { unfold heap3. rewrite lookup_insert_eq. now rewrite <- app_assoc. }
    assert (Hs1 : heap3 !! p1 = Some (CChars (ID s ++ nul))).
    { unfold heap3, heap2.
      repeat (rewrite lookup_insert_ne by congruence).
      unfold heap1. rewrite lookup_insert_ne by congruence.
      apply lookup_insert_eq. }
    assert (Hs2 : heap3 !! p2 = Some (CChars (Time s ++ nul))).
    { unfold heap3.
      repeat (rewrite lookup_insert_ne by congruence).
      unfold heap2. rewrite lookup_insert_ne by congruence.
      apply lookup_insert_eq. }
    assert (Hs3 : heap3 !! p3 = Some (CChars (Hostname s ++ nul))).
    { unfold heap3. rewrite lookup_insert_ne by congruence.
      apply lookup_insert_eq. }
    assert (Hlen1 : length (di ++ [p1]) = S (length dh)).
    { rewrite length_app. cbn [length]. clear -Hdh. lia. }
    assert (Hlen2 : length (dt ++ [p2]) = length (di ++ [p1])).
    { rewrite !length_app. cbn [length]. clear -Hdt. lia. }
    assert (Hlen3 : length (dh ++ [p3]) = length (di ++ [p1])).
    { rewrite !length_app. cbn [length]. clear -Hdh. lia. }
    assert (Hli' : length rest <= length ti) by (clear -Hli; lia).
    assert (Hlt' : length rest <= length tt) by (clear -Hlt; lia).
    assert (Hlh' : length rest <= length th) by (clear -Hlh; lia).
    assert (Hbound' :
      (Z.of_nat (length (di ++ [p1]) + length rest) <= arrayLimit)%Z).
    { rewrite length_app. cbn [length]. clear - Hbound. lia. }
    destruct (IH heap3 (di ++ [p1])%list (dt ++ [p2])%list (dh ++ [p3])%list
                ti tt th Hia3 Hta3 Hha3 Hlen2 Hlen3 Hli' Hlt' Hlh' Hbound')
      as (heap' & pi & pt & ph & Hfill & Hia' & Hta' & Hha' & Hnodup & Hnew
          & Hids & Htimes & Hhosts & Hframe).
    rewrite Hlen1 in Hfill.
    assert (Hout : forall p, p ∈ (pi ++ pt ++ ph)%list ->
              p <> p1 /\ p <> p2 /\ p <> p3 /\ p <> ia /\ p <> ta /\ p <> ha).
    { intros p Hp. destruct (Hnew p Hp) as [Hnone _].
      repeat split; intros ->; congruence. }
    exists heap', (p1 :: pi), (p2 :: pt), (p3 :: ph).
    split; [exact Hfill|].
    split; [rewrite Hia', <- app_assoc; reflexivity|].
    split; [rewrite Hta', <- app_assoc; reflexivity|].
    split; [rewrite Hha', <- app_assoc; reflexivity|].
    split.
    { assert (Hperm : ((p1 :: pi) ++ (p2 :: pt) ++ p3 :: ph)%list
                      ≡ₚ (p1 :: p2 :: p3 :: pi ++ pt ++ ph)%list).
      { cbn [app]. apply perm_skip.
        rewrite <- Permutation_middle. apply perm_skip.
        rewrite app_assoc, <- Permutation_middle, <- app_assoc. reflexivity. }
      rewrite Hperm.
      repeat apply NoDup_cons_2; try exact Hnodup.
        + intros Hin. apply elem_of_cons in Hin as [->|Hin]; [congruence|].
          apply elem_of_cons in Hin as [->|Hin]; [congruence|].
          apply Hout in Hin. tauto.
        + intros Hin. apply elem_of_cons in Hin as [->|Hin]; [congruence|].
          apply Hout in Hin. tauto.
        + intros Hin. apply Hout in Hin. tauto. }
    split.
    { intros p Hp.
      assert (Hcases : p = p1 \/ p = p2 \/ p = p3 \/ p ∈ (pi ++ pt ++ ph)%list).
      { cbn [app] in Hp. apply elem_of_cons in Hp as [->|Hp]; [tauto|].
        apply elem_of_app in Hp as [Hp|Hp]; [right; right; right|].
        - apply elem_of_app. tauto.
        - apply elem_of_cons in Hp as [->|Hp]; [tauto|].
          apply elem_of_app in Hp as [Hp|Hp].
          + right; right; right. apply elem_of_app. right.
            apply elem_of_app. tauto.
          + apply elem_of_cons in Hp as [->|Hp]; [tauto|].
            right; right; right. apply elem_of_app. right.
            apply elem_of_app. tauto. }
      destruct Hcases as [->|[->|[->|Hin]]]; try (split; assumption).
      destruct (Hnew p Hin) as [Hnone Hnn]. split; [|exact Hnn].
      destruct (Hout p Hin) as (? & ? & ? & ? & ? & ?).
      rewrite <- Hnone. symmetry. now apply Hframe3. }
    assert (Hkeep : forall p, p = p1 \/ p = p2 \/ p = p3 ->
              heap' !! p = heap3 !! p).
    { intros p Hp. apply Hframe.
      - intros Hin. apply Hout in Hin. destruct Hin as (? & ? & ? & _).
        destruct Hp as [-> | [-> | ->]]; congruence.
      - destruct Hp as [-> | [-> | ->]]; congruence.
      - destruct Hp as [-> | [-> | ->]]; congruence.
      - destruct Hp as [-> | [-> | ->]]; congruence. }
    split; [constructor; [rewrite Hkeep by tauto; exact Hs1|exact Hids]|].
    split; [constructor; [rewrite Hkeep by tauto; exact Hs2|exact Htimes]|].
    split; [constructor; [rewrite Hkeep by tauto; exact Hs3|exact Hhosts]|].
    intros a Hnot Hai Hat Hah.
    assert (Hnot' : a <> p1 /\ a <> p2 /\ a <> p3 /\ a ∉ (pi ++ pt ++ ph)%list).
    { repeat split; try (intros ->; apply Hnot; cbn [app]).
      - apply elem_of_cons. tauto.
      - apply elem_of_cons. right. apply elem_of_app. right.
        apply elem_of_cons. tauto.
      - apply elem_of_cons. right. apply elem_of_app. right.
        apply elem_of_cons. right. apply elem_of_app. right.
        apply elem_of_cons. tauto.
      - intros Hin. apply Hnot. cbn [app]. apply elem_of_cons. right.
        apply elem_of_app in Hin as [Hin|Hin]; [apply elem_of_app; tauto|].
        apply elem_of_app. right. apply elem_of_cons. right.
        apply elem_of_app in Hin as [Hin|Hin]; [apply elem_of_app; tauto|].
        apply elem_of_app. right. apply elem_of_cons. right. exact Hin. }
    destruct Hnot' as (? & ? & ? & Hnin).
    rewrite Hframe by assumption. now apply Hframe3.
Qed.

Lemma lookup_freed_in (heap : CHeap) (a : Z) (ps : list Z) (x : Z) :
  x = a \/ x ∈ ps -> delete a (foldr delete heap ps) !! x = None.
Proof.
  intros [->|Hin]; [apply lookup_delete_eq|].
  destruct (decide (x = a)) as [->|Hne]; [apply lookup_delete_eq|].
  rewrite lookup_delete_ne by congruence. now apply lookup_foldr_delete.
Qed.

Lemma lookup_freed_out (heap : CHeap) (a : Z) (ps : list Z) (x : Z) :
  x <> a -> x ∉ ps -> delete a (foldr delete heap ps) !! x = heap !! x.
Proof.
  intros Hne Hnotin. rewrite lookup_delete_ne by congruence.
  now apply lookup_foldr_delete_not_elem_of.
Qed.

(** The loop that frees the strings of an array frees each of them once,
    while its index stays below [1 << 30]. *)
Lemma freeSlots_spec (a : Z) (ps : list Z) :
  forall (heap : CHeap) (pre post : list Z),
    heap !! a = Some (CPointers (pre ++ ps ++ post)) ->
    NoDup ps ->
    (forall p, p ∈ ps -> p <> NULL /\ p <> a /\ is_Some (heap !! p)) ->
    (Z.of_nat (length pre + length ps) <= arrayLimit)%Z ->
    freeSlots heap a (length pre) (length ps) = Some (foldr delete heap ps).
Proof.
  induction ps as [|p ps IH]; intros heap pre post Ha Hnd Hps Hbound;
    cbn [length freeSlots foldr]; [reflexivity|].
  cbn [length] in Hbound.
  assert (Hb : inBounds (length pre) = true).
  { unfold inBounds. apply Z.ltb_lt. clear - Hbound. lia. }
  rewrite Hb.
  rewrite <- app_comm_cons in Ha.
  unfold readSlot. rewrite Ha.
  rewrite (list_lookup_middle pre (ps ++ post) p (length pre) eq_refl).
  destruct (Hps p) as (Hn & Hpa & [obj Hobj]); [apply elem_of_cons; tauto|].
  destruct (Z.eqb_spec p NULL) as [Heq|_]; [contradiction|].
  unfold C_free. rewrite Hobj.
  apply NoDup_cons in Hnd as [Hnotin Hnd].
  assert (Hlen : S (length pre) = length (pre ++ [p])).
  { rewrite length_app. cbn [length]. lia. }
  rewrite Hlen. rewrite (IH (delete p heap) (pre ++ [p])%list post).
  - f_equal. symmetry. apply delete_foldr_delete.
  - rewrite lookup_delete_ne by congruence. rewrite Ha.
    now rewrite <- app_assoc.
  - exact Hnd.
  - intros q Hq. destruct (Hps q) as (Hqn & Hqa & Hq').
    { apply elem_of_cons. tauto. }
    repeat split; try assumption.
    rewrite lookup_delete_ne; [exact Hq'|]. intros ->. contradiction.
  - rewrite length_app. cbn [length]. clear - Hbound. lia.
Qed.

Lemma freeArray_spec (heap : CHeap) (a : Z) (ps : list Z) :
  a <> NULL ->
  heap !! a = Some (CPointers ps) ->
  NoDup ps ->
  (forall p, p ∈ ps -> p <> NULL /\ p <> a /\ is_Some (heap !! p)) ->
  (Z.of_nat (length ps) <= arrayLimit)%Z ->
  freeArray heap a (Z.of_nat (length ps))
  = Some (delete a (foldr delete heap ps)).
Proof.
  intros Hn Ha Hnd Hps Hbound. unfold freeArray.
  destruct (Z.eqb_spec a NULL) as [Heq|_]; [contradiction|].
  rewrite Nat2Z.id.
  assert (Hfree : freeSlots heap a 0 (length ps) = Some (foldr delete heap ps)).
  { apply (freeSlots_spec a ps heap [] []); try assumption.
    now rewrite app_nil_r. }
  rewrite Hfree. unfold C_free. rewrite lookup_foldr_delete_not_elem_of.
  - now rewrite Ha.
  - intros Hin. apply Hps in Hin. tauto.
Qed.

Lemma Forall2_present {A : Type} (heap : CHeap) (f : A -> CObject)
    (ps : list Z) (l : list A) :
  Forall2 (fun p x => heap !! p = Some (f x)) ps l ->
  forall p, p ∈ ps -> is_Some (heap !! p).
Proof.
  induction 1 as [|p x ps l Hp _ IH]; intros q Hq.
  - inversion Hq.
  - apply elem_of_cons in Hq as [->|Hq]; [eauto|now apply IH].
Qed.

(** Freeing the arrays of a listing of up to [1 << 30] snapshots gives
    back the memory in which the listing was made. *)
Lemma free_listing (heap heap' : CHeap) (arrays : SnapshotArrays)
    (snapshots : list Snapshot) :
  (Z.of_nat (length snapshots) <= arrayLimit)%Z ->
  holdsListing heap heap' arrays snapshots ->
  restic_free_snapshot_arrays heap' (sa_ids arrays) (sa_times arrays)
    (sa_hostnames arrays) (Z.of_nat (length snapshots))
  = Some heap.
Proof.
  intros Hbound
    (pi & pt & ph & Hia & Hta & Hha & Hnd & Hnew & Hids & Htimes
     & Hhosts & Hframe). cbn zeta in *.
  set (ia := sa_ids arrays) in *. set (ta := sa_times arrays) in *.
  set (ha := sa_hostnames arrays) in *.
  pose proof (Forall2_length _ _ _ Hids) as Hli.
  pose proof (Forall2_length _ _ _ Htimes) as Hlt.
  pose proof (Forall2_length _ _ _ Hhosts) as Hlh.
  apply NoDup_cons in Hnd as [Hia_out Hnd].
  apply NoDup_cons in Hnd as [Hta_out Hnd].
  apply NoDup_cons in Hnd as [Hha_out Hnd].
  apply NoDup_app in Hnd as (Hndi & Hdisj1 & Hnd).
  apply NoDup_app in Hnd as (Hndt & Hdisj2 & Hndh).
  assert (Hblock : forall p, p ∈ (pi ++ pt ++ ph)%list ->
            p <> NULL /\ p <> ia /\ p <> ta /\ p <> ha).
  { intros p Hp. split.
    - apply (Hnew p). do 3 (apply elem_of_cons; right). exact Hp.
    - repeat split; intros ->.
      + apply Hia_out. do 2 (apply elem_of_cons; right). exact Hp.
      + apply Hta_out. apply elem_of_cons; right. exact Hp.
      + apply Hha_out. exact Hp. }
  assert (Hian : ia <> NULL).
  { apply (Hnew ia). apply elem_of_cons. tauto. }
  assert (Htan : ta <> NULL).
  { apply (Hnew ta). apply elem_of_cons. right. apply elem_of_cons. tauto. }
  assert (Hhan : ha <> NULL).
  { apply (Hnew ha). do 2 (apply elem_of_cons; right). apply elem_of_cons.
    tauto. }
  assert (Hiata : ia <> ta).
  { intros Heq. apply Hia_out. rewrite Heq. apply elem_of_cons. tauto. }
  assert (Hiaha : ia <> ha).
  { intros Heq. apply Hia_out. rewrite Heq. apply elem_of_cons. right.
    apply elem_of_cons. tauto. }
  assert (Htaha : ta <> ha).
  { intros Heq. apply Hta_out. rewrite Heq. apply elem_of_cons. tauto. }
  assert (Hpt_out : forall p, p ∈ pt -> p ∉ pi).
  { intros p Hp Hin. apply (Hdisj1 p Hin). apply elem_of_app. tauto. }
  assert (Hph_out : forall p, p ∈ ph -> (p ∉ pi) /\ (p ∉ pt)).
  { intros p Hp. split; intros Hin.
    - apply (Hdisj1 p Hin). apply elem_of_app. tauto.
    - apply (Hdisj2 p Hin). exact Hp. }
  set (heap1 := delete ia (foldr delete heap' pi)).
  set (heap2 := delete ta (foldr delete heap1 pt)).
  assert (E1 : freeArray heap' ia (Z.of_nat (length snapshots)) = Some heap1).
  { rewrite <- Hli. apply freeArray_spec; try assumption;
      [|rewrite Hli; exact Hbound].
    intros p Hp. destruct (Hblock p) as (? & ? & _).
    { apply elem_of_app. tauto. }
    repeat split; try assumption.
    now apply (Forall2_present heap' _ pi snapshots Hids). }
  assert (E2 : freeArray heap1 ta (Z.of_nat (length snapshots)) = Some heap2).
  { rewrite <- Hlt. apply freeArray_spec; try assumption;
      [| |rewrite Hlt; exact Hbound].
    - unfold heap1. rewrite lookup_freed_out; [exact Hta | congruence |].
      intros Hin. destruct (Hblock ta) as (_ & _ & Habs & _); [|congruence].
      apply elem_of_app. tauto.
    - intros p Hp. destruct (Hblock p) as (? & ? & ? & _).
      { apply elem_of_app. right. apply elem_of_app. tauto. }
      repeat split; try assumption.
      unfold heap1.
      rewrite lookup_freed_out; [|assumption|now apply Hpt_out].
      now apply (Forall2_present heap' _ pt snapshots Htimes). }
  assert (E3 : freeArray heap2 ha (Z.of_nat (length snapshots))
               = Some (delete ha (foldr delete heap2 ph))).
  { rewrite <- Hlh. apply freeArray_spec; try assumption;
      [| |rewrite Hlh; exact Hbound].
    - unfold heap2, heap1.
      rewrite lookup_freed_out; [|congruence|].
      + rewrite lookup_freed_out; [exact Hha | congruence |].
        intros Hin. destruct (Hblock ha) as (_ & _ & _ & Habs); [|congruence].
        apply elem_of_app. tauto.
      + intros Hin. destruct (Hblock ha) as (_ & _ & _ & Habs); [|congruence].
        apply elem_of_app. right. apply elem_of_app. tauto.
    - intros p Hp. destruct (Hblock p) as (? & ? & ? & ?).
      { apply elem_of_app. right. apply elem_of_app. tauto. }
      destruct (Hph_out p Hp) as [Hn1 Hn2].
      repeat split; try assumption.
      unfold heap2, heap1.
      rewrite lookup_freed_out by assumption.
      rewrite lookup_freed_out by assumption.
      now apply (Forall2_present heap' _ ph snapshots Hhosts). }
  unfold restic_free_snapshot_arrays. rewrite E1, E2, E3.
  f_equal. apply map_eq. intros x.
  destruct (decide (x = ha \/ x ∈ ph)) as [Hx|Hx].
  { rewrite lookup_freed_in by exact Hx. symmetry. apply (Hnew x).
    destruct Hx as [->|Hx].
    - do 2 (apply elem_of_cons; right). apply elem_of_cons. tauto.
    - do 3 (apply elem_of_cons; right). apply elem_of_app. right.
      apply elem_of_app. tauto. }
  rewrite lookup_freed_out by tauto. unfold heap2.
  destruct (decide (x = ta \/ x ∈ pt)) as [Hy|Hy].
  { rewrite lookup_freed_in by exact Hy. symmetry. apply (Hnew x).
    destruct Hy as [->|Hy].
    - apply elem_of_cons; right. apply elem_of_cons. tauto.
    - do 3 (apply elem_of_cons; right). apply elem_of_app. right.
      apply elem_of_app. tauto. }
  rewrite lookup_freed_out by tauto. unfold heap1.
  destruct (decide (x = ia \/ x ∈ pi)) as [Hz|Hz].
  { rewrite lookup_freed_in by exact Hz. symmetry. apply (Hnew x).
    destruct Hz as [->|Hz].
    - apply elem_of_cons. tauto.
    - do 3 (apply elem_of_cons; right). apply elem_of_app. tauto. }
  rewrite lookup_freed_out by tauto.
  apply Hframe. intros Hin.
  apply elem_of_cons in Hin as [->|Hin]; [tauto|].
  apply elem_of_cons in Hin as [->|Hin]; [tauto|].
  apply elem_of_cons in Hin as [->|Hin]; [tauto|].
  apply elem_of_app in Hin as [Hin|Hin]; [tauto|].
  apply elem_of_app in Hin as [Hin|Hin]; tauto.
Qed.

(** The second half of [restic_list_snapshots] leaves a listing, for up to
    [1 << 30] snapshots. *)
Lemma writeSnapshots_spec (heap : CHeap) (snapshots : list Snapshot) :
  (Z.of_nat (length snapshots) <= arrayLimit)%Z ->
  exists heap' arrays,
    writeSnapshots C_malloc uninitialised heap snapshots = Some (heap', arrays)
    /\ sa_count arrays = C_int (Z.of_nat (length snapshots))
    /\ holdsListing heap heap' arrays snapshots.
Proof.
  intros Hbound.
  unfold writeSnapshots, C_malloc_pointers, allocate.
  set (n := length snapshots).
  set (ia := C_malloc heap).
  set (heap1 := <[ia := CPointers (uninitialised n)]> heap).
  set (ta := C_malloc heap1).
  set (heap2 := <[ta := CPointers (uninitialised n)]> heap1).
  set (ha := C_malloc heap2).
  set (heap3 := <[ha := CPointers (uninitialised n)]> heap2).
  assert (Hia : heap !! ia = None) by apply malloc_fresh.
  assert (Hta : heap1 !! ta = None) by apply malloc_fresh.
  assert (Hha : heap2 !! ha = None) by apply malloc_fresh.
  unfold heap1 in Hta. apply lookup_insert_None in Hta as [Hta Hta1].
  unfold heap2, heap1 in Hha. apply lookup_insert_None in Hha as [Hha Hha2].
  apply lookup_insert_None in Hha as [Hha Hha1].
  assert (H3i : heap3 !! ia = Some (CPointers ([] ++ uninitialised n))).
  { unfold heap3, heap2, heap1.
    repeat (rewrite lookup_insert_ne by congruence). apply lookup_insert_eq. }
  assert (H3t : heap3 !! ta = Some (CPointers ([] ++ uninitialised n))).
  { unfold heap3, heap2.
    repeat (rewrite lookup_insert_ne by congruence). apply lookup_insert_eq. }
  assert (H3h : heap3 !! ha = Some (CPointers ([] ++ uninitialised n))).
  { unfold heap3. apply lookup_insert_eq. }
  destruct (fillArrays_spec ia ta ha snapshots) with
    (heap := heap3) (di := @nil Z) (dt := @nil Z) (dh := @nil Z)
    (ti := uninitialised n) (tt := uninitialised n) (th := uninitialised n)
    as (heap' & pi & pt & ph & Hfill & Hia' & Hta' & Hha' & Hnodup & Hnew
        & Hids & Htimes & Hhosts & Hframe);
    try congruence; try reflexivity;
    try (rewrite uninitialised_length; reflexivity);
    try exact Hbound.
  cbn [length] in Hfill. rewrite Hfill.
  exists heap'. eexists. split; [reflexivity|]. split; [reflexivity|].
  assert (Hdrop : drop (length snapshots) (uninitialised n) = []).
  { apply drop_ge. rewrite uninitialised_length. reflexivity. }
  rewrite Hdrop, app_nil_r in Hia', Hta', Hha'. cbn [app] in Hia', Hta', Hha'.
  assert (Hout : forall p, p ∈ (pi ++ pt ++ ph)%list ->
            p <> ia /\ p <> ta /\ p <> ha /\ heap !! p = None /\ p <> NULL).
  { intros p Hp. destruct (Hnew p Hp) as [Hnone Hnn].
    unfold heap3, heap2, heap1 in Hnone.
    apply lookup_insert_None in Hnone as [Hnone ?].
    apply lookup_insert_None in Hnone as [Hnone ?].
    apply lookup_insert_None in Hnone as [Hnone ?].
    repeat split; try congruence; assumption. }
  exists pi, pt, ph. cbn zeta. cbn [sa_ids sa_times sa_hostnames].
  split; [exact Hia'|]. split; [exact Hta'|]. split; [exact Hha'|].
  split.
  { repeat apply NoDup_cons_2; try exact Hnodup.
    - intros Hin. apply elem_of_cons in Hin as [Heq|Hin]; [congruence|].
      apply elem_of_cons in Hin as [Heq|Hin]; [congruence|].
      apply Hout in Hin. tauto.
    - intros Hin. apply elem_of_cons in Hin as [Heq|Hin]; [congruence|].
      apply Hout in Hin. tauto.
    - intros Hin. apply Hout in Hin. tauto. }
  split.
  { intros p Hp.
    apply elem_of_cons in Hp as [->|Hp]; [split; [exact Hia|apply malloc_not_NULL]|].
    apply elem_of_cons in Hp as [->|Hp]; [split; [exact Hta|apply malloc_not_NULL]|].
    apply elem_of_cons in Hp as [->|Hp]; [split; [exact Hha|apply malloc_not_NULL]|].
    apply Hout in Hp. tauto. }
  split; [exact Hids|]. split; [exact Htimes|]. split; [exact Hhosts|].
  intros a Ha.
  assert (Ha' : a <> ia /\ a <> ta /\ a <> ha /\ a ∉ (pi ++ pt ++ ph)%list).
  { repeat split; try (intros ->; apply Ha).
    - apply elem_of_cons. tauto.
    - apply elem_of_cons. right. apply elem_of_cons. tauto.
    - do 2 (apply elem_of_cons; right). apply elem_of_cons. tauto.
    - intros Hin. apply Ha. do 3 (apply elem_of_cons; right). exact Hin. }
  destruct Ha' as (? & ? & ? & ?).
  rewrite Hframe by assumption. unfold heap3, heap2, heap1.
  repeat (rewrite lookup_insert_ne by congruence). reflexivity.
Qed.

(** The loop of the wrapper reads the strings of a listing. *)
Lemma readSnapshots_spec (heap : CHeap) (ia ta ha : Z)
    (snapshots : list Snapshot) :
  forall (pi pt ph prei pret preh posti postt posth : list Z),
    heap !! ia = Some (CPointers (prei ++ pi ++ posti)) ->
    heap !! ta = Some (CPointers (pret ++ pt ++ postt)) ->
    heap !! ha = Some (CPointers (preh ++ ph ++ posth)) ->
    length pret = length prei -> length preh = length prei ->
    (forall p, p ∈ (pi ++ pt ++ ph)%list -> p <> NULL) ->
    Forall2 (fun p s => heap !! p = Some (CChars (ID s ++ nul))) pi snapshots ->
    Forall2 (fun p s => heap !! p = Some (CChars (Time s ++ nul)))
      pt snapshots ->
    Forall2 (fun p s => heap !! p = Some (CChars (Hostname s ++ nul)))
      ph snapshots ->
    readSnapshots heap ia ta ha (length prei) (length snapshots)
    = Some (map (fun s =>
                   {| cpp_id := uptoNUL (ID s ++ nul);
                      cpp_time := uptoNUL (Time s ++ nul);
                      cpp_hostname := uptoNUL (Hostname s ++ nul) |})
              snapshots).
Proof.
  induction snapshots as [|s rest IH];
    intros pi pt ph prei pret preh posti postt posth Hia Hta Hha Hlt Hlh
      Hnn Hids Htimes Hhosts; [reflexivity|].
  inversion Hids as [|p1 s1 pi' rest1 Hp1 Hids']; subst.
  inversion Htimes as [|p2 s2 pt' rest2 Hp2 Htimes']; subst.
  inversion Hhosts as [|p3 s3 ph' rest3 Hp3 Hhosts']; subst.
  rewrite <- app_comm_cons in Hia, Hta, Hha.
  cbn [length readSnapshots map]. unfold readSlot. rewrite Hia, Hta, Hha.
  rewrite (list_lookup_middle prei (pi' ++ posti) p1 (length prei) eq_refl).
  rewrite (list_lookup_middle pret (pt' ++ postt) p2 (length prei))
    by (symmetry; exact Hlt).
  rewrite (list_lookup_middle preh (ph' ++ posth) p3 (length prei))
    by (symmetry; exact Hlh).
  assert (Hread : forall p bytes, p <> NULL ->
            heap !! p = Some (CChars bytes) ->
            stringOrEmpty heap p = Some (uptoNUL bytes)).
  { intros p bytes Hp0 Hp. unfold stringOrEmpty, readCString.
    destruct (Z.eqb_spec p NULL) as [Heq|_]; [contradiction|].
    now rewrite Hp. }
  assert (Hn1 : p1 <> NULL).
  { apply Hnn. cbn [app]. apply elem_of_cons. tauto. }
  assert (Hn2 : p2 <> NULL).
  { apply Hnn. apply elem_of_app. right. cbn [app]. apply elem_of_cons.
    tauto. }
  assert (Hn3 : p3 <> NULL).
  { apply Hnn. apply elem_of_app. right. apply elem_of_app. right.
    apply elem_of_cons. tauto. }
  rewrite (Hread p1 _ Hn1 Hp1), (Hread p2 _ Hn2 Hp2), (Hread p3 _ Hn3 Hp3).
  assert (Hlen : S (length prei) = length (prei ++ [p1])).
  { rewrite length_app. cbn [length]. lia. }
  rewrite Hlen.
  rewrite (IH pi' pt' ph' (prei ++ [p1])%list (pret ++ [p2])%list
             (preh ++ [p3])%list posti postt posth);
    try assumption; try (rewrite <- app_assoc; assumption);
    try (rewrite !length_app; cbn [length]; lia).
  - reflexivity.
  - intros p Hp. apply Hnn. cbn [app]. apply elem_of_cons. right.
    apply elem_of_app in Hp as [Hp|Hp]; [apply elem_of_app; tauto|].
    apply elem_of_app. right. apply elem_of_cons. right.
    apply elem_of_app in Hp as [Hp|Hp]; [apply elem_of_app; tauto|].
    apply elem_of_app. right. apply elem_of_cons. right. exact Hp.
Qed.

Lemma read_listing (heap heap' : CHeap) (arrays : SnapshotArrays)
    (snapshots : list Snapshot) :
  holdsListing heap heap' arrays snapshots ->
  readSnapshots heap' (sa_ids arrays) (sa_times arrays) (sa_hostnames arrays)
    0 (length snapshots)
  = Some (map (fun s =>
                 {| cpp_id := uptoNUL (ID s ++ nul);
                    cpp_time := uptoNUL (Time s ++ nul);
                    cpp_hostname := uptoNUL (Hostname s ++ nul) |})
            snapshots).
Proof.
  intros (pi & pt & ph & Hia & Hta & Hha & Hnd & Hnew & Hids & Htimes
          & Hhosts & Hframe). cbn zeta in *.
  apply (readSnapshots_spec heap' _ _ _ snapshots pi pt ph [] [] [] [] [] []);
    try assumption; try reflexivity;
    try (cbn [app]; rewrite app_nil_r; assumption).
  intros p Hp. apply (Hnew p). do 3 (apply elem_of_cons; right). exact Hp.
Qed.

(** X17.  [restic_get_error_message] returns a string the caller owns: a
    new block, not [NULL], that [restic_free_string] releases, after which
    the memory is as before the call.  The text is [Unknown error] exactly
    for the codes other than 0, -1, -2, -3, -4 and -5;
    [RESTIC_ERROR_UNKNOWN] has no text of its own. *)
Theorem restic_get_error_message_owned (heap : CHeap) (error_code : Z) :
  let r := restic_get_error_message C_malloc heap error_code in
  heap !! snd r = None
  /\ snd r <> NULL
  /\ restic_free_string (fst r) (snd r) = Some heap
  /\ exists message,
       readCString (fst r) (snd r) = Some message
       /\ (message = "Unknown error"
           <-> ~ In error_code
                 [RESTIC_OK; RESTIC_ERROR_INVALID_PARAMS;
                  RESTIC_ERROR_REPO_NOT_FOUND; RESTIC_ERROR_INVALID_PASSWORD;
                  RESTIC_ERROR_BACKUP_FAILED; RESTIC_ERROR_RESTORE_FAILED]).
Proof.
  cbn zeta. unfold restic_get_error_message.
  repeat match goal with
  | |- context [Z.eqb error_code ?c] =>
      destruct (Z.eqb_spec error_code c)
  end;
  match goal with
  | |- context [C_CString C_malloc heap ?s] =>
      destruct (CString_then_free heap s) as (Hnew & Hnn & Hread & Hfree);
      split; [exact Hnew|]; split; [exact Hnn|]; split; [exact Hfree|];
      exists s; split;
      [ rewrite Hread; f_equal; apply uptoNUL_noNUL; reflexivity |]
  end;
  try (split; [discriminate|]; intros Hout; exfalso; apply Hout;
       cbn [In]; intuition congruence).
  split; [|reflexivity]. intros _ Hin. cbn [In] in Hin.
  intuition congruence.
Qed.

Variable time_Parse : string -> option Z.
Variable time_Format : Z -> Z -> string.
Variable sort_Slice :
  (data_Snapshot -> data_Snapshot -> bool) -> list data_Snapshot ->
  list data_Snapshot.

Local Abbreviation snapshotsOf repo :=
  (fst (Snapshots time_Parse time_Format sort_Slice repo emptyFilter)).

Lemma Snapshots_no_error (repo : repositoryImpl) :
  repo_ListSnapshotsErr repo = None ->
  Snapshots time_Parse time_Format sort_Slice repo emptyFilter
  = (snapshotsOf repo, None).
Proof. intros Hlist. unfold Snapshots. now rewrite Hlist. Qed.

(** A listing and the call that frees it, on a handle whose repository
    lists its snapshot files. *)
Lemma listing_then_free (st : Bridge) (heap : CHeap) (h : Z)
    (repo : repositoryImpl) (out : SnapshotArrays) :
  repositories st !! ResticRepo h = Some repo ->
  repo_ListSnapshotsErr repo = None ->
  (Z.of_nat (length (snapshotsOf repo)) <= arrayLimit)%Z ->
  sa_ids out = NULL -> sa_times out = NULL -> sa_hostnames out = NULL ->
  exists heap' arrays,
    restic_list_snapshots_alloc C_malloc uninitialised
      time_Parse time_Format sort_Slice st heap h out
    = Some (heap', (RESTIC_OK, arrays))
    /\ sa_count arrays = Z.of_nat (length (snapshotsOf repo))
    /\ match snapshotsOf repo with
       | [] => heap' = heap /\ sa_ids arrays = NULL
               /\ sa_times arrays = NULL /\ sa_hostnames arrays = NULL
       | _ :: _ => holdsListing heap heap' arrays (snapshotsOf repo)
       end
    /\ restic_free_snapshot_arrays heap' (sa_ids arrays) (sa_times arrays)
         (sa_hostnames arrays) (sa_count arrays)
       = Some heap.
Proof.
  intros Hrepo Hlist Hbound Hi Ht Hh.
  unfold restic_list_snapshots_alloc.
  rewrite Hrepo, (Snapshots_no_error repo Hlist).
  destruct (snapshotsOf repo) as [|s rest] eqn:Hsn.
  - cbn [length Nat.eqb]. eexists. eexists. split; [reflexivity|].
    cbn [sa_count sa_ids sa_times sa_hostnames length Z.of_nat].
    split; [reflexivity|]. split; [repeat split; assumption|].
    rewrite Hi, Ht, Hh. reflexivity.
  - cbn [length Nat.eqb].
    destruct (writeSnapshots_spec heap (s :: rest) Hbound)
      as (heap' & arrays & Hwrite & Hcount & Hlayout).
    cbn [length] in Hwrite. rewrite Hwrite.
    exists heap', arrays. split; [reflexivity|].
    assert (Hc : sa_count arrays = Z.of_nat (length (s :: rest))).
    { rewrite Hcount. apply C_int_id.
      unfold is_C_int, INT_MIN, INT_MAX, arrayLimit in *. lia. }
    split; [exact Hc|]. split; [exact Hlayout|].
    rewrite Hc. now apply free_listing.
Qed.

(** X18.  On a handle whose repository lists its snapshot files, with at
    most 2^30 snapshots, the number up to which the loops of the bridge
    stay inside their arrays, and the caller's three array variables
    [NULL] before the call, [restic_list_snapshots] returns [RESTIC_OK] and
    the number of snapshots in [count_out]; with at least one snapshot the
    memory then holds the listing in blocks that are all new, and nothing
    that was in memory is touched.  [restic_free_snapshot_arrays], called
    with the four values written, frees each of these blocks once and
    leaves the memory exactly as it was before the listing. *)
Theorem list_then_free_restores_memory (st : Bridge) (heap : CHeap) (h : Z)
    (repo : repositoryImpl) (out : SnapshotArrays) :
  repositories st !! ResticRepo h = Some repo ->
  repo_ListSnapshotsErr repo = None ->
  (Z.of_nat (length (snapshotsOf repo)) <= arrayLimit)%Z ->
  sa_ids out = NULL -> sa_times out = NULL -> sa_hostnames out = NULL ->
  exists heap' arrays,
    restic_list_snapshots_alloc C_malloc uninitialised
      time_Parse time_Format sort_Slice st heap h out
    = Some (heap', (RESTIC_OK, arrays))
    /\ sa_count arrays = Z.of_nat (length (snapshotsOf repo))
    /\ match snapshotsOf repo with
       | [] => heap' = heap /\ sa_ids arrays = NULL
               /\ sa_times arrays = NULL /\ sa_hostnames arrays = NULL
       | _ :: _ => holdsListing heap heap' arrays (snapshotsOf repo)
       end
    /\ restic_free_snapshot_arrays heap' (sa_ids arrays) (sa_times arrays)
         (sa_hostnames arrays) (sa_count arrays)
       = Some heap.
Proof.
  intros Hrepo Hlist Hbound Hi Ht Hh.
  now apply listing_then_free.
Qed.

(** X19.  [Repository::listSnapshots] of the C++ wrapper, on a handle whose
    repository lists its snapshot files, with at most 2^30 snapshots, whose
    ids, times and hostnames hold no NUL byte: it returns the
    snapshots of [Snapshots] with the empty filter, in the same order, each
    with its short id, time and hostname, and leaves the memory exactly as
    it found it. *)
Theorem Repository_listSnapshots_returns_all (st : Bridge) (heap : CHeap)
    (h : Z) (repo : repositoryImpl) :
  repositories st !! ResticRepo h = Some repo ->
  repo_ListSnapshotsErr repo = None ->
  (Z.of_nat (length (snapshotsOf repo)) <= arrayLimit)%Z ->
  (forall s, In s (snapshotsOf repo) ->
     noNUL (ID s) = true /\ noNUL (Time s) = true
     /\ noNUL (Hostname s) = true) ->
  Repository_listSnapshots C_malloc uninitialised
    time_Parse time_Format sort_Slice st heap h
  = Some (heap, inl (map toCpp (snapshotsOf repo))).
Proof.
  intros Hrepo Hlist Hbound Hclean. unfold Repository_listSnapshots.
  destruct (listing_then_free st heap h repo
              {| sa_ids := NULL; sa_times := NULL; sa_hostnames := NULL;
                 sa_count := 0 |} Hrepo Hlist Hbound eq_refl eq_refl eq_refl)
    as (heap' & arrays & Hcall & Hcount & Hshape & Hfree).
  rewrite Hcall. cbn [negb Z.eqb RESTIC_OK].
  rewrite Hcount in *.
  destruct (Z.ltb_spec (Z.of_nat (length (snapshotsOf repo))) 0) as [Hneg|_];
    [lia|].
  rewrite Nat2Z.id.
  assert (Hsame :
    map (fun s => {| cpp_id := uptoNUL (ID s ++ nul);
                     cpp_time := uptoNUL (Time s ++ nul);
                     cpp_hostname := uptoNUL (Hostname s ++ nul) |})
      (snapshotsOf repo)
    = map toCpp (snapshotsOf repo)).
  { apply map_ext_in. intros s Hs. destruct (Hclean s Hs) as (H1 & H2 & H3).
    unfold toCpp. now rewrite !uptoNUL_noNUL. }
  destruct (snapshotsOf repo) as [|s rest] eqn:Hsn.
  - destruct Hshape as (-> & Hi & Ht & Hh). rewrite Hi, Ht, Hh.
    reflexivity.
  - rewrite (read_listing heap heap' arrays (s :: rest) Hshape).
    rewrite Hfree, Hsame. reflexivity.
Qed.

(** X20.  When the bridge refuses the call, [Repository::listSnapshots]
    throws a [ResticException] with the code and the text of
    [restic_get_error_message] for it: [Invalid parameters] for a handle
    without entry, [Unknown error] when the listing fails.  The memory is
    as it was: the text has been freed. *)
Theorem Repository_listSnapshots_throws (st : Bridge) (heap : CHeap) (h : Z) :
  (repositories st !! ResticRepo h = None ->
   Repository_listSnapshots C_malloc uninitialised
     time_Parse time_Format sort_Slice st heap h
   = Some (heap, inr (ResticException RESTIC_ERROR_INVALID_PARAMS
                        "Invalid parameters")))
  /\ (forall repo,
        repositories st !! ResticRepo h = Some repo ->
        repo_ListSnapshotsErr repo <> None ->
        Repository_listSnapshots C_malloc uninitialised
          time_Parse time_Format sort_Slice st heap h
        = Some (heap, inr (ResticException RESTIC_ERROR_UNKNOWN
                             "Unknown error"))).
Proof.
  assert (Hthrow : forall code s,
    restic_get_error_message C_malloc heap code = C_CString C_malloc heap s ->
    noNUL s = true ->
    throwResticException C_malloc heap code
    = Some (heap, ResticException code s)).
  { intros code s Hmsg Hs. unfold throwResticException. rewrite Hmsg.
    destruct (CString_then_free heap s) as (Hnew & Hnn & Hread & Hfree).
    destruct (C_CString C_malloc heap s) as [heap' p] eqn:Hc.
    cbn [fst snd] in *. unfold stringOrEmpty.
    destruct (Z.eqb_spec p NULL) as [Heq|_]; [contradiction|].
    rewrite Hread, Hfree. now rewrite uptoNUL_noNUL. }
  split.
  - intros Hnone. unfold Repository_listSnapshots, restic_list_snapshots_alloc.
    rewrite Hnone. cbn [negb Z.eqb RESTIC_ERROR_INVALID_PARAMS RESTIC_OK].
    now rewrite (Hthrow RESTIC_ERROR_INVALID_PARAMS "Invalid parameters").
  - intros repo Hrepo Herr.
    unfold Repository_listSnapshots, restic_list_snapshots_alloc.
    rewrite Hrepo. unfold Snapshots.
    destruct (repo_ListSnapshotsErr repo) as [err|]; [|congruence].
    cbn [negb Z.eqb RESTIC_ERROR_UNKNOWN RESTIC_OK].
    now rewrite (Hthrow RESTIC_ERROR_UNKNOWN "Unknown error").
Qed.

(** What [sort.Slice] promises, for every [less]. *)
Hypothesis sort_Slice_permutes :
  forall less l, Permutation (sort_Slice less l) l.
Hypothesis sort_Slice_sorts :
  forall less l, transitiveOrdering less -> sortedBy less (sort_Slice less l).

(** X14.  [restic_list_snapshots] on a handle whose repository lists its
    snapshot files and has at most 2^30 snapshots that load, the number up
    to which the loop stays inside its arrays: it returns [RESTIC_OK] and
    hands out every snapshot that loads, as [sort.Slice] leaves them under
    the [less] of [Snapshots], that is with no snapshot before a newer one.
    [count_out] receives their number.  With no snapshot nothing else is
    written; otherwise the three arrays are new blocks whose slots point,
    snapshot by snapshot in that order, to new strings with the short id,
    the time in the layout of RFC 3339, shown in the zone the snapshot
    stores, and the hostname, and the rest of the memory is untouched. *)
Theorem restic_list_snapshots_lists_all (st : Bridge) (heap : CHeap) (h : Z)
    (repo : repositoryImpl) (out : SnapshotArrays) :
  repositories st !! ResticRepo h = Some repo ->
  repo_ListSnapshotsErr repo = None ->
  (Z.of_nat (length (loadedSnapshots repo)) <= arrayLimit)%Z ->
  let listed := sort_Slice newerFirst (loadedSnapshots repo) in
  Permutation listed (loadedSnapshots repo)
  /\ StronglySorted notOlder listed
  /\ exists heap' arrays,
       restic_list_snapshots_alloc C_malloc uninitialised
         time_Parse time_Format sort_Slice st heap h out
       = Some (heap', (RESTIC_OK, arrays))
       /\ sa_count arrays = Z.of_nat (length (loadedSnapshots repo))
       /\ match listed with
          | [] =>
              heap' = heap /\ sa_ids arrays = sa_ids out
              /\ sa_times arrays = sa_times out
              /\ sa_hostnames arrays = sa_hostnames out
          | _ :: _ =>
              holdsListing heap heap' arrays
                (map (fun sn =>
                        {| ID := ID_Str (sn_ID sn);
                           Time := time_Format (sn_Time sn) (sn_Zone sn);
                           Tree := ID_Str (sn_Tree sn);
                           Paths := sn_Paths sn;
                           Hostname := sn_Hostname sn;
                           Username := sn_Username sn;
                           Tags := sn_Tags sn;
                           Parent := option_map ID_Str (sn_Parent sn) |})
                   listed)
          end.
Proof.
  intros Hrepo Hlist Hbound listed.
  assert (Hperm : Permutation listed (loadedSnapshots repo))
    by apply sort_Slice_permutes.
  split; [exact Hperm|].
  split; [apply sortedBy_newerFirst, sort_Slice_sorts, newerFirst_ordering|].
  assert (Hfilter : forall all,
    List.filter (fun sn => matchesFilter time_Parse sn emptyFilter) all = all).
  { induction all as [|sn rest IH]; [reflexivity|].
    cbn [List.filter]. rewrite matchesFilter_empty. now rewrite IH. }
  assert (Hsn : snapshotsOf repo = map (convertSnapshot time_Format) listed).
  { unfold Snapshots. rewrite Hlist. cbn [fst]. unfold listedSnapshots.
    rewrite loadAllSnapshots_omap, filterLoop_filter. cbn [app].
    fold (loadedSnapshots repo). rewrite Hfilter.
    unfold applyLimit. cbn [sf_Limit emptyFilter Z.ltb Z.compare andb].
    reflexivity. }
  pose proof (Permutation_length Hperm) as Hlen.
  unfold restic_list_snapshots_alloc.
  rewrite Hrepo, (Snapshots_no_error repo Hlist), Hsn.
  fold (convertSnapshot time_Format).
  destruct listed as [|sn rest].
  - cbn [map length Nat.eqb]. eexists. eexists. split; [reflexivity|].
    cbn [sa_count sa_ids sa_times sa_hostnames].
    cbn [length] in Hlen. rewrite <- Hlen.
    split; [reflexivity|]. repeat split; reflexivity.
  - assert (Hb : (Z.of_nat (length (map (convertSnapshot time_Format)
                                      (sn :: rest))) <= arrayLimit)%Z).
    { rewrite length_map, Hlen. exact Hbound. }
    destruct (writeSnapshots_spec heap
                (map (convertSnapshot time_Format) (sn :: rest)) Hb)
      as (heap' & arrays & Hwrite & Hcount & Hlayout).
    cbn [map length Nat.eqb] in Hwrite |- *. rewrite Hwrite.
    exists heap', arrays. split; [reflexivity|]. split; [|exact Hlayout].
    rewrite Hcount, length_map, Hlen. apply C_int_id.
    unfold is_C_int, INT_MIN, INT_MAX, arrayLimit in *. lia.
Qed.

End CMemoryFacts.

(** The allocator that takes the address after the highest one in use
    returns the address of no block in use, and never [NULL]. *)
Lemma bumpAllocator_fresh (heap : CHeap) :
  heap !! bumpAllocator heap = None /\ bumpAllocator heap <> NULL.
Proof.
  assert (Hmax : forall l : list Z, (0 <= foldr Z.max 0 l)%Z
                 /\ forall k, k ∈ l -> (k <= foldr Z.max 0 l)%Z).
  { induction l as [|x l [IH0 IH]]; cbn [foldr].
    - split; [lia|]. intros k Hk. inversion Hk.
    - split; [lia|]. intros k Hk.
      apply elem_of_cons in Hk as [->|Hk]; [lia|].
      specialize (IH k Hk). lia. }
  destruct (Hmax (map fst (map_to_list heap))) as [H0 Hle].
  unfold bumpAllocator, NULL. split; [|lia].
  destruct (heap !! (1 + foldr Z.max 0 (map fst (map_to_list heap)))%Z)
    as [obj|] eqn:Hlook; [|reflexivity].
  apply elem_of_map_to_list in Hlook.
  assert (Hin : (1 + foldr Z.max 0 (map fst (map_to_list heap)))%Z
                ∈ map fst (map_to_list heap)).
  { apply list_elem_of_fmap. eexists. split; [|exact Hlook]. reflexivity. }
  apply Hle in Hin. lia.
Qed.

Lemma staleSlots_length (n : nat) : length (staleSlots n) = n.
Proof. apply repeat_length. Qed.

Lemma restic_get_error_message_owned_witness :
  restic_free_string
    (fst (restic_get_error_message bumpAllocator busyHeap
            RESTIC_ERROR_UNKNOWN))
    (snd (restic_get_error_message bumpAllocator busyHeap
            RESTIC_ERROR_UNKNOWN))
  = Some busyHeap.
Proof.
  exact (proj1 (proj2 (proj2
           (restic_get_error_message_owned bumpAllocator
              (fun heap => proj1 (bumpAllocator_fresh heap))
              (fun heap => proj2 (bumpAllocator_fresh heap))
              busyHeap RESTIC_ERROR_UNKNOWN)))).
Defined.

Lemma tenSnapshots_listed_clean :
  forall s,
    In s (fst (Snapshots parseUTC formatRFC3339 stable_sort_Slice
                 (sampleRepository tenSnapshots) emptyFilter)) ->
    noNUL (ID s) = true /\ noNUL (Time s) = true /\ noNUL (Hostname s) = true.
Proof.
  intros s Hs. vm_compute in Hs.
  repeat (destruct Hs as [<-|Hs]; [vm_compute; auto|]).
  destruct Hs.
Qed.

Lemma tenSnapshots_listed_count :
  (Z.of_nat (length (fst (Snapshots parseUTC formatRFC3339 stable_sort_Slice
                            (sampleRepository tenSnapshots) emptyFilter)))
   <= arrayLimit)%Z.
Proof. vm_compute. discriminate. Qed.

Lemma tenSnapshots_loaded_count :
  (Z.of_nat (length (loadedSnapshots (sampleRepository tenSnapshots)))
   <= arrayLimit)%Z.
Proof. vm_compute. discriminate. Qed.

Lemma restic_list_snapshots_lists_all_witness :
  let listed :=
    stable_sort_Slice newerFirst
      (loadedSnapshots (sampleRepository tenSnapshots)) in
  Permutation listed (loadedSnapshots (sampleRepository tenSnapshots))
  /\ StronglySorted notOlder listed
  /\ exists heap' arrays,
       restic_list_snapshots_alloc bumpAllocator staleSlots
         parseUTC formatRFC3339 stable_sort_Slice bridgeWithTen busyHeap 1
         {| sa_ids := NULL; sa_times := NULL; sa_hostnames := NULL;
            sa_count := 0 |}
       = Some (heap', (RESTIC_OK, arrays))
       /\ sa_count arrays
          = Z.of_nat (length (loadedSnapshots (sampleRepository tenSnapshots)))
       /\ match listed with
          | [] =>
              heap' = busyHeap /\ sa_ids arrays = NULL
              /\ sa_times arrays = NULL /\ sa_hostnames arrays = NULL
          | _ :: _ =>
              holdsListing busyHeap heap' arrays
                (map (fun sn =>
                        {| ID := ID_Str (sn_ID sn);
                           Time := formatRFC3339 (sn_Time sn) (sn_Zone sn);
                           Tree := ID_Str (sn_Tree sn);
                           Paths := sn_Paths sn;
                           Hostname := sn_Hostname sn;
                           Username := sn_Username sn;
                           Tags := sn_Tags sn;
                           Parent := option_map ID_Str (sn_Parent sn) |})
                   listed)
          end.
Proof.
  apply (restic_list_snapshots_lists_all bumpAllocator staleSlots
           (fun heap => proj1 (bumpAllocator_fresh heap))
           (fun heap => proj2 (bumpAllocator_fresh heap))
           staleSlots_length
           parseUTC formatRFC3339 stable_sort_Slice
           stable_sort_Slice_permutes stable_sort_Slice_sorts
           bridgeWithTen busyHeap 1 (sampleRepository tenSnapshots)
           {| sa_ids := NULL; sa_times := NULL; sa_hostnames := NULL;
              sa_count := 0 |}
           eq_refl eq_refl tenSnapshots_loaded_count).
Defined.

Lemma list_then_free_restores_memory_witness :
  exists heap' arrays,
    restic_list_snapshots_alloc bumpAllocator staleSlots
      parseUTC formatRFC3339 stable_sort_Slice bridgeWithTen busyHeap 1
      {| sa_ids := NULL; sa_times := NULL; sa_hostnames := NULL;
         sa_count := 0 |}
    = Some (heap', (RESTIC_OK, arrays))
    /\ restic_free_snapshot_arrays heap' (sa_ids arrays) (sa_times arrays)
         (sa_hostnames arrays) (sa_count arrays)
       = Some busyHeap.
Proof.
  destruct (list_then_free_restores_memory bumpAllocator staleSlots
              (fun heap => proj1 (bumpAllocator_fresh heap))
              (fun heap => proj2 (bumpAllocator_fresh heap))
              staleSlots_length
              parseUTC formatRFC3339 stable_sort_Slice bridgeWithTen busyHeap 1
              (sampleRepository tenSnapshots)
              {| sa_ids := NULL; sa_times := NULL; sa_hostnames := NULL;
                 sa_count := 0 |}
              eq_refl eq_refl tenSnapshots_listed_count
              eq_refl eq_refl eq_refl)
    as (heap' & arrays & Hcall & _ & _ & Hfree).
  exists heap', arrays. split; [exact Hcall|exact Hfree].
Defined.

Lemma Repository_listSnapshots_returns_all_witness :
  Repository_listSnapshots bumpAllocator staleSlots
    parseUTC formatRFC3339 stable_sort_Slice bridgeWithTen busyHeap 1
  = Some (busyHeap,
          inl (map toCpp
                 (fst (Snapshots parseUTC formatRFC3339 stable_sort_Slice
                         (sampleRepository tenSnapshots) emptyFilter)))).
Proof.
  exact (Repository_listSnapshots_returns_all bumpAllocator staleSlots
           (fun heap => proj1 (bumpAllocator_fresh heap))
           (fun heap => proj2 (bumpAllocator_fresh heap))
           staleSlots_length
           parseUTC formatRFC3339 stable_sort_Slice bridgeWithTen busyHeap 1
           (sampleRepository tenSnapshots)
           eq_refl eq_refl tenSnapshots_listed_count
           tenSnapshots_listed_clean).
Defined.

Lemma Repository_listSnapshots_throws_witness :
  Repository_listSnapshots bumpAllocator staleSlots
    parseUTC formatRFC3339 stable_sort_Slice bridgeWithTen busyHeap 2
  = Some (busyHeap,
          inr (ResticException RESTIC_ERROR_INVALID_PARAMS
                 "Invalid parameters")).
Proof.
  exact (proj1 (Repository_listSnapshots_throws bumpAllocator staleSlots
                  (fun heap => proj1 (bumpAllocator_fresh heap))
                  (fun heap => proj2 (bumpAllocator_fresh heap))
                  parseUTC formatRFC3339 stable_sort_Slice bridgeWithTen busyHeap 2)
           eq_refl).
Defined.

(** ** The bridge with and without the memory of C

    A call that returns in the model with memory returns the code, and
    leaves the table, of the model without it. *)

Section ModelsAgree.

Variable C_malloc : CHeap -> Z.
Variable uninitialised : nat -> list Z.
Variable Backup :
  repositoryImpl -> BackupOptions -> repositoryImpl * (string * option error).
Variable time_Parse : string -> option Z.
Variable time_Format : Z -> Z -> string.
Variable sort_Slice :
  (data_Snapshot -> data_Snapshot -> bool) -> list data_Snapshot ->
  list data_Snapshot.

Lemma readStrings_length (heap : CHeap) (array : Z) (n : nat) :
  forall (i : nat) (strings : list string),
    readStrings heap array i n = Some strings -> length strings = n.
Proof.
  induction n as [|n IH]; intros i strings; cbn [readStrings].
  - now intros [= <-].
  - destruct (readSlot heap array i) as [c|]; [|discriminate].
    destruct (C_GoString heap c) as [s|]; [|discriminate].
    destruct (readStrings heap array (S i) n) as [rest|] eqn:Hrest;
      [|discriminate].
    intros [= <-]. cbn [length]. f_equal. now apply (IH (S i)).
Qed.

Lemma goStrings_all (heap : CHeap) (array count : Z) (strings : list string) :
  goStrings heap array count = Some strings ->
  firstn (Z.to_nat count) strings = strings.
Proof.
  unfold goStrings. destruct (arrayLimit <? count)%Z; [discriminate|].
  intros Hread. apply firstn_all2.
  rewrite (readStrings_length _ _ _ _ _ Hread). lia.
Qed.

(** A call of [restic_list_snapshots] that returns, returns the code of
    the model without memory. *)
Lemma restic_list_snapshots_alloc_code (st : Bridge) (heap heap' : CHeap)
    (h : Z) (out arrays : SnapshotArrays) (code : Z) :
  restic_list_snapshots_alloc C_malloc uninitialised
    time_Parse time_Format sort_Slice st heap h out
  = Some (heap', (code, arrays)) ->
  restic_list_snapshots time_Parse time_Format sort_Slice st h
  = (st, (code, snd (snd (restic_list_snapshots time_Parse time_Format
                            sort_Slice st h)))).
Proof.
  unfold restic_list_snapshots_alloc, restic_list_snapshots.
  destruct (repositories st !! ResticRepo h) as [repo|];
    [|now intros [= <- <- <-]].
  destruct (Snapshots _ _ _ repo emptyFilter) as [snapshots [err|]];
    [now intros [= <- <- <-]|].
  destruct (length snapshots =? 0)%nat; [now intros [= <- <- <-]|].
  destruct (writeSnapshots _ _ heap snapshots) as [[heap1 out1]|];
    [|discriminate].
  now intros [= <- <- <-].
Qed.

(** A call of [restic_backup] that returns, leaves the state and returns
    the code of the model without memory, called on the strings that the
    call reads. *)
Lemma restic_backup_alloc_code (st st' : Bridge) (heap heap' : CHeap)
    (h paths paths_count tags tags_count out out' code : Z) :
  restic_backup_alloc C_malloc Backup st heap h paths paths_count
    tags tags_count out
  = Some (st', heap', (code, out')) ->
  let strings (array count : Z) :=
    if (array =? NULL)%Z then None
    else Some (default [] (goStrings heap array count)) in
  let r := restic_backup Backup st h (strings paths paths_count) paths_count
             (strings tags tags_count) tags_count in
  fst r = st' /\ fst (snd r) = code.
Proof.
  cbn zeta. unfold restic_backup_alloc, restic_backup.
  destruct (repositories st !! ResticRepo h) as [repo|];
    [|now intros [= <- <- <- <-]].
  destruct (Z.eqb_spec paths NULL) as [->|Hp];
    [now intros [= <- <- <- <-]|].
  cbn [orb].
  destruct (paths_count <=? 0)%Z; [now intros [= <- <- <- <-]|].
  destruct (goStrings heap paths paths_count) as [pathSlice|] eqn:Hpaths;
    [|discriminate].
  cbn [default from_option id]. rewrite (goStrings_all _ _ _ _ Hpaths).
  assert (Htags : forall tagSlice,
    (if ((0 <? tags_count) && negb (tags =? NULL))%Z
     then goStrings heap tags tags_count else Some []) = Some tagSlice ->
    match (if (tags =? NULL)%Z then None
           else Some (default [] (goStrings heap tags tags_count))) with
    | Some cTags =>
        if (0 <? tags_count)%Z then firstn (Z.to_nat tags_count) cTags else []
    | None => []
    end = tagSlice).
  { intros tagSlice. destruct (tags =? NULL)%Z.
    - rewrite andb_false_r. now intros [= <-].
    - rewrite andb_true_r. destruct (0 <? tags_count)%Z; [|now intros [= <-]].
      intros Hread. rewrite Hread. cbn [default from_option id].
      exact (goStrings_all _ _ _ _ Hread). }
  destruct (if ((0 <? tags_count) && negb (tags =? NULL))%Z
            then goStrings heap tags tags_count else Some [])
    as [tagSlice|] eqn:Hread; [|discriminate].
  rewrite (Htags tagSlice eq_refl).
  destruct (Backup repo _) as [repo' [snapshotID [err|]]].
  - now intros [= <- <- <- <-].
  - destruct (C_CString C_malloc heap snapshotID). now intros [= <- <- <- <-].
Qed.

End ModelsAgree.

(** ** [Backup] *)

Section BackupFacts.

Variable Match : string -> string -> bool.
Variable Base : string -> string.
Variable restic_ParseID : string -> string + error.
Variable data_LoadSnapshot : repositoryImpl -> string -> data_Snapshot + error.
Variable os_Hostname : string + error.
Variable filepath_Abs : string -> string + error.
Variable time_Now : Z * Z.
Variable arch_Snapshot :
  repositoryImpl -> (string -> bool) -> list string ->
  archiver_SnapshotOptions -> repositoryImpl * (string + error).

Local Abbreviation backup :=
  (Backup Match Base restic_ParseID data_LoadSnapshot os_Hostname
     filepath_Abs time_Now arch_Snapshot).

(** The loop over the paths returns the resolved paths in order when every
    path resolves, and otherwise the error of the first that does not. *)
Lemma resolvePaths_spec (paths : list string) :
  forall resolvedPaths,
    match resolvePaths filepath_Abs paths resolvedPaths with
    | inl resolved =>
        exists absPaths,
          resolved = (resolvedPaths ++ absPaths)%list
          /\ Forall2 (fun path absPath => filepath_Abs path = inl absPath)
               paths absPaths
    | inr e =>
        exists before path after err,
          paths = (before ++ path :: after)%list
          /\ Forall (fun p => exists a, filepath_Abs p = inl a) before
          /\ filepath_Abs path = inr err
          /\ e = "failed to resolve path " ++ quoted path ++ ": " ++ err
    end.
Proof.
  induction paths as [|path rest IH]; intros resolvedPaths; cbn [resolvePaths].
  - exists []. split; [now rewrite app_nil_r|constructor].
  - destruct (filepath_Abs path) as [absPath|err] eqn:Habs.
    + specialize (IH (resolvedPaths ++ [absPath])%list).
      destruct (resolvePaths filepath_Abs rest _) as [resolved|e].
      * destruct IH as (absPaths & -> & Hall).
        exists (absPath :: absPaths). split.
        -- now rewrite <- app_assoc.
        -- now constructor.
      * destruct IH as (before & p & after & err & -> & Hbefore & Hp & ->).
        exists (path :: before), p, after, err.
        repeat split; try assumption.
        constructor; [eauto|exact Hbefore].
    + exists [], path, rest, err. repeat split; try assumption. constructor.
Qed.

(** X24.  [Backup] runs the archiver only when every path of the options
    resolves, and then on the absolute paths, in the order of the options;
    if a path does not resolve, [Backup] returns the error of the first
    such path and leaves the repository alone.  A call with no paths, with
    an index that does not load or with a parent that is not found ends
    before any path is resolved. *)
Theorem Backup_resolves_paths (r : repositoryImpl) (opts : BackupOptions)
    (parentSnapshot : option data_Snapshot) :
  bo_Paths opts <> [] ->
  repo_LoadIndexErr r = None ->
  findParent restic_ParseID data_LoadSnapshot r opts = inl parentSnapshot ->
  (exists absPaths select snapshotOpts,
     Forall2 (fun path absPath => filepath_Abs path = inl absPath)
       (bo_Paths opts) absPaths
     /\ (forall item, select item = SelectByName Match Base opts item)
     /\ so_Tags snapshotOpts = bo_Tags opts
     /\ so_ParentSnapshot snapshotOpts = parentSnapshot
     /\ backup r opts
        = match arch_Snapshot r select absPaths snapshotOpts with
          | (r', inr err) => (r', ("", Some ("backup failed: " ++ err)))
          | (r', inl snapshotID) => (r', (ID_Str snapshotID, None))
          end)
  \/ (exists before path after err,
        bo_Paths opts = (before ++ path :: after)%list
        /\ Forall (fun p => exists a, filepath_Abs p = inl a) before
        /\ filepath_Abs path = inr err
        /\ backup r opts
           = (r, ("", Some ("failed to resolve path " ++ quoted path ++ ": "
                            ++ err)))).
Proof.
  intros Hpaths Hindex Hparent. unfold Backup.
  destruct (bo_Paths opts) as [|p ps] eqn:Hp; [congruence|].
  cbn [length Nat.eqb]. rewrite Hindex, Hparent.
  pose proof (resolvePaths_spec (p :: ps) []) as Hspec.
  destruct (resolvePaths filepath_Abs (p :: ps) []) as [resolved|e].
  - left. destruct Hspec as (absPaths & -> & Hall). cbn [app].
    exists absPaths, (SelectByName Match Base opts),
      {| so_Tags := bo_Tags opts;
         so_Hostname := match os_Hostname with
                        | inl h => h
                        | inr _ => "unknown"
                        end;
         so_Excludes := bo_Excludes opts;
         so_BackupStart := fst time_Now;
         so_Time := snd time_Now;
         so_ParentSnapshot := parentSnapshot;
         so_ProgramVersion := "resticlib" |}.
    split; [exact Hall|]. split; [reflexivity|].
    split; [reflexivity|]. split; [reflexivity|]. reflexivity.
  - right. destruct Hspec as (before & path & after & err & Heq & Hb & Ha & ->).
    exists before, path, after, err. auto.
Qed.

End BackupFacts.

Lemma Backup_resolves_paths_witness :
  Backup filepath_Match filepath_Base (fun id => inl id)
    (fun _ _ => inr "not found") (inl "h1") absWithoutCwd (0%Z, 0%Z)
    sample_Snapshot (sampleRepository tenSnapshots) backupThreePaths
  = (sampleRepository tenSnapshots,
     ("", Some ("failed to resolve path " ++ quoted "data" ++ ": "
                ++ "getwd: no such file or directory"))).
Proof.
  destruct (Backup_resolves_paths filepath_Match filepath_Base
              (fun id => inl id) (fun _ _ => inr "not found") (inl "h1")
              absWithoutCwd (0%Z, 0%Z) sample_Snapshot
              (sampleRepository tenSnapshots) backupThreePaths None)
    as [(absPaths & _ & _ & Hall & _)|(before & path & after & err & Hp & Hb
                                       & Ha & Hres)].
  - discriminate.
  - reflexivity.
  - reflexivity.
  - exfalso. cbn in Hall.
    inversion Hall as [|? ? ? ? _ Hrest]; subst.
    inversion Hrest as [|? ? ? ? Hdata _]; subst. discriminate.
  - reflexivity.
Defined.

(** ** The library behind the bridge *)

Section BridgeOverLibrary.

Variable Match : string -> string -> bool.
Variable Base : string -> string.
Variable restic_ParseID : string -> string + error.
Variable data_LoadSnapshot : repositoryImpl -> string -> data_Snapshot + error.
Variable os_Hostname : string + error.
Variable filepath_Abs : string -> string + error.
Variable time_Now : Z * Z.
Variable arch_Snapshot :
  repositoryImpl -> (string -> bool) -> list string ->
  archiver_SnapshotOptions -> repositoryImpl * (string + error).
Variable res_RestoreTo :
  repositoryImpl -> data_Snapshot -> restorer_Options ->
  option (string -> bool -> bool * bool) -> string ->
  repositoryImpl * (Z + error).
Variable C_malloc : CHeap -> Z.

Local Abbreviation libBackup :=
  (Backup Match Base restic_ParseID data_LoadSnapshot os_Hostname
     filepath_Abs time_Now arch_Snapshot).
Local Abbreviation libRestore :=
  (Restore Match Base restic_ParseID data_LoadSnapshot res_RestoreTo).

(** The loop that copies the strings of an array reads them in order. *)
Lemma readStrings_spec (heap : CHeap) (array : Z) (strings : list string) :
  forall pre slots rest : list Z,
    heap !! array = Some (CPointers (pre ++ slots ++ rest)) ->
    Forall2 (fun p s => C_GoString heap p = Some s) slots strings ->
    readStrings heap array (length pre) (length strings) = Some strings.
Proof.
  induction strings as [|s strings IH]; intros pre slots rest Harray Hall;
    [reflexivity|].
  inversion Hall as [|p s' slots' strings' Hp Hrest]; subst.
  rewrite <- app_comm_cons in Harray.
  cbn [length readStrings]. unfold readSlot. rewrite Harray.
  rewrite (list_lookup_middle pre (slots' ++ rest) p (length pre) eq_refl).
  rewrite Hp.
  assert (Hlen : S (length pre) = length (pre ++ [p])).
  { rewrite length_app. cbn [length]. lia. }
  rewrite Hlen, (IH (pre ++ [p])%list slots' rest);
    [reflexivity| |exact Hrest].
  rewrite <- app_assoc. exact Harray.
Qed.

Lemma goStrings_spec (heap : CHeap) (array : Z) (strings : list string) :
  holdsStrings heap array strings ->
  (Z.of_nat (length strings) <= arrayLimit)%Z ->
  goStrings heap array (Z.of_nat (length strings)) = Some strings.
Proof.
  intros (slots & rest & Harray & Hall) Hbound. unfold goStrings.
  destruct (Z.ltb_spec arrayLimit (Z.of_nat (length strings))) as [Hlt|_];
    [lia|].
  rewrite Nat2Z.id.
  exact (readStrings_spec heap array strings [] slots rest Harray Hall).
Qed.

(** X15.  A backup through [restic_backup] cannot leave anything out.  The
    handle has an entry; [paths] is not [NULL] and points to an array with
    the strings of [paths_count] paths, at least one and at most 2^30, the
    number up to which the slice taken of the array exists; [tags_count]
    tags, at most 2^30, are given likewise, or none.  When the index loads
    and the paths resolve, the archiver is run on the absolute paths and the
    tags with a selection function that accepts every item, with no
    excludes and no parent snapshot.  If it fails, the code is
    [RESTIC_ERROR_BACKUP_FAILED], and the memory and the caller's variable
    are as they were; otherwise the code is [RESTIC_OK] and the caller's
    variable points to a string allocated for the short id of the
    snapshot. *)
Theorem restic_backup_selects_everything (st : Bridge) (heap : CHeap) (h : Z)
    (repo : repositoryImpl) (paths tags snapshot_id_out : Z)
    (pathSlice tagSlice absPaths : list string) :
  repositories st !! ResticRepo h = Some repo ->
  paths <> NULL ->
  holdsStrings heap paths pathSlice ->
  (0 < Z.of_nat (length pathSlice) <= arrayLimit)%Z ->
  (tagSlice <> [] -> tags <> NULL /\ holdsStrings heap tags tagSlice) ->
  (Z.of_nat (length tagSlice) <= arrayLimit)%Z ->
  repo_LoadIndexErr repo = None ->
  resolvePaths filepath_Abs pathSlice [] = inl absPaths ->
  exists select snapshotOpts,
    (forall item, select item = true)
    /\ so_Excludes snapshotOpts = []
    /\ so_ParentSnapshot snapshotOpts = None
    /\ so_Tags snapshotOpts = tagSlice
    /\ restic_backup_alloc C_malloc libBackup st heap h
         paths (Z.of_nat (length pathSlice))
         tags (Z.of_nat (length tagSlice)) snapshot_id_out
       = match arch_Snapshot repo select absPaths snapshotOpts with
         | (repo', inr _) =>
             Some (store st (ResticRepo h) repo', heap,
                   (RESTIC_ERROR_BACKUP_FAILED, snapshot_id_out))
         | (repo', inl snapshotID) =>
             Some (store st (ResticRepo h) repo',
                   fst (C_CString C_malloc heap (ID_Str snapshotID)),
                   (RESTIC_OK,
                    snd (C_CString C_malloc heap (ID_Str snapshotID))))
         end.
Proof.
  intros Hrepo Hpaths Hholds Hcount Htags Htcount Hindex Hresolve.
  set (backupOpts :=
         {| bo_Paths := pathSlice; bo_Tags := tagSlice;
            bo_Excludes := []; bo_Includes := [];
            bo_ParentID := None; bo_DryRun := false |}).
  exists (SelectByName Match Base backupOpts),
    {| so_Tags := tagSlice;
       so_Hostname := match os_Hostname with
                      | inl host => host
                      | inr _ => "unknown"
                      end;
       so_Excludes := [];
       so_BackupStart := fst time_Now;
       so_Time := snd time_Now;
       so_ParentSnapshot := None;
       so_ProgramVersion := "resticlib" |}.
  split; [reflexivity|]. do 3 (split; [reflexivity|]).
  unfold restic_backup_alloc. rewrite Hrepo.
  destruct (Z.eqb_spec paths NULL) as [Heq|_]; [contradiction|].
  destruct (Z.leb_spec (Z.of_nat (length pathSlice)) 0) as [Hle|_]; [lia|].
  cbn [orb].
  rewrite (goStrings_spec heap paths pathSlice Hholds) by lia.
  assert (Hread :
    (if ((0 <? Z.of_nat (length tagSlice)) && negb (tags =? NULL))%Z
     then goStrings heap tags (Z.of_nat (length tagSlice))
     else Some []) = Some tagSlice).
  { destruct tagSlice as [|t ts]; [reflexivity|].
    destruct Htags as [Hnn Hth]; [discriminate|].
    destruct (Z.eqb_spec tags NULL) as [Heq|_]; [contradiction|].
    destruct (Z.ltb_spec 0 (Z.of_nat (length (t :: ts)))) as [_|Hle];
      [|cbn [length] in Hle; lia].
    cbn [andb negb]. now apply goStrings_spec. }
  rewrite Hread. fold backupOpts.
  assert (Hlen : (length (bo_Paths backupOpts) =? 0)%nat = false).
  { cbn [bo_Paths backupOpts]. apply Nat.eqb_neq. lia. }
  unfold Backup. rewrite Hlen, Hindex.
  cbn [findParent bo_ParentID bo_Tags bo_Excludes bo_Paths backupOpts].
  rewrite Hresolve.
  destruct (arch_Snapshot repo _ absPaths _) as [repo' [snapshotID|err]];
    [|reflexivity].
  destruct (C_CString C_malloc heap (ID_Str snapshotID)); reflexivity.
Qed.

(** X16.  A restore through [restic_restore] restores everything and
    overwrites: when the handle has an entry, the snapshot is found and
    the index loads, the restorer is run on the target directory with
    [OverwriteAlways], without [Delete], without [DryRun] and with no
    filter installed.  The code returned is [RESTIC_OK] or
    [RESTIC_ERROR_RESTORE_FAILED]. *)
Theorem restic_restore_restores_everything (st : Bridge) (h : Z)
    (repo : repositoryImpl) (snapshot_id target_dir id : string)
    (sn : data_Snapshot) :
  repositories st !! ResticRepo h = Some repo ->
  restic_ParseID snapshot_id = inl id ->
  data_LoadSnapshot repo id = inl sn ->
  repo_LoadIndexErr repo = None ->
  restic_restore libRestore st h (Some snapshot_id) (Some target_dir)
  = match res_RestoreTo repo sn
            {| rs_DryRun := false; rs_Overwrite := OverwriteAlways;
               rs_Delete := false |} None target_dir with
    | (repo', inr _) =>
        (store st (ResticRepo h) repo', RESTIC_ERROR_RESTORE_FAILED)
    | (repo', inl _) => (store st (ResticRepo h) repo', RESTIC_OK)
    end.
Proof.
  intros Hrepo Hparse Hload Hindex.
  unfold restic_restore. rewrite Hrepo. unfold Restore.
  rewrite Hparse, Hload, Hindex.
  cbn [ro_DryRun ro_Overwrite ro_Delete ro_TargetDir restoreSelectFilter
       ro_Includes ro_Excludes length Nat.ltb Nat.leb orb].
  destruct (res_RestoreTo repo sn _ None target_dir) as [repo' [n|err]];
    reflexivity.
Qed.

End BridgeOverLibrary.

Lemma backupHeap_paths : holdsStrings backupHeap 10 ["/srv"; "data"].
Proof.
  exists [11%Z; 12%Z], []. split; [reflexivity|].
  constructor; [reflexivity|]. constructor; [reflexivity|]. constructor.
Qed.

Lemma backupHeap_tags : holdsStrings backupHeap 20 ["nightly"].
Proof.
  exists [21%Z], []. split; [reflexivity|].
  constructor; [reflexivity|]. constructor.
Qed.

Lemma restic_backup_selects_everything_witness :
  exists select snapshotOpts,
    (forall item, select item = true)
    /\ so_Excludes snapshotOpts = []
    /\ so_ParentSnapshot snapshotOpts = None
    /\ so_Tags snapshotOpts = ["nightly"]
    /\ restic_backup_alloc bumpAllocator
         (Backup filepath_Match filepath_Base (fun id => inl id) loadListed
            (inl "h1") absInWork (0%Z, 0%Z) sample_Snapshot)
         bridgeWithTen backupHeap 1 10 2 20 1 NULL
       = match sample_Snapshot (sampleRepository tenSnapshots) select
                 ["/srv"; "/work/data"] snapshotOpts with
         | (repo', inr _) =>
             Some (store bridgeWithTen (ResticRepo 1) repo', backupHeap,
                   (RESTIC_ERROR_BACKUP_FAILED, NULL))
         | (repo', inl snapshotID) =>
             Some (store bridgeWithTen (ResticRepo 1) repo',
                   fst (C_CString bumpAllocator backupHeap
                          (ID_Str snapshotID)),
                   (RESTIC_OK,
                    snd (C_CString bumpAllocator backupHeap
                           (ID_Str snapshotID))))
         end.
Proof.
  apply (restic_backup_selects_everything filepath_Match filepath_Base
           (fun id => inl id) loadListed (inl "h1") absInWork (0%Z, 0%Z)
           sample_Snapshot bumpAllocator bridgeWithTen backupHeap 1
           (sampleRepository tenSnapshots) 10 20 NULL
           ["/srv"; "data"] ["nightly"] ["/srv"; "/work/data"]).
  - reflexivity.
  - discriminate.
  - exact backupHeap_paths.
  - cbn [length]. unfold arrayLimit. lia.
  - intros _. split; [discriminate|exact backupHeap_tags].
  - cbn [length]. unfold arrayLimit. lia.
  - reflexivity.
  - reflexivity.
Defined.

Lemma restic_restore_restores_everything_witness :
  restic_restore
    (Restore filepath_Match filepath_Base (fun id => inl id) loadListed
       sample_RestoreTo)
    bridgeWithTen 1 (Some (sampleID 3)) (Some "/tmp/restore")
  = (store bridgeWithTen (ResticRepo 1) (sampleRepository tenSnapshots),
     RESTIC_OK).
Proof.
  apply (restic_restore_restores_everything filepath_Match filepath_Base
           (fun id => inl id) loadListed sample_RestoreTo bridgeWithTen 1
           (sampleRepository tenSnapshots) (sampleID 3) "/tmp/restore"
           (sampleID 3)
           (sampleSnapshot 3 (newYear2024 + Z.of_nat 3 * 3600 * second)%Z
              "h1" ["/data"] [])).
  - reflexivity.
  - reflexivity.
  - vm_compute. reflexivity.
  - reflexivity.
Defined.

(** ** Live handles *)

Section LiveHandles.

Variable createRepository : Config -> option repositoryImpl.
Variable openRepository : Config -> option repositoryImpl.
Variable Backup :
  repositoryImpl -> BackupOptions -> repositoryImpl * (string * option error).
Variable Restore :
  repositoryImpl -> string -> RestoreOptions -> repositoryImpl * option error.
Variable time_Parse : string -> option Z.
Variable time_Format : Z -> Z -> string.
Variable sort_Slice :
  (data_Snapshot -> data_Snapshot -> bool) -> list data_Snapshot ->
  list data_Snapshot.

Local Abbreviation stepIn :=
  (step createRepository openRepository Backup Restore
     time_Parse time_Format sort_Slice).
Local Abbreviation eventIn :=
  (event createRepository openRepository Backup Restore
     time_Parse time_Format sort_Slice).
Local Abbreviation runIn :=
  (run createRepository openRepository Backup Restore
     time_Parse time_Format sort_Slice).

Lemma store_keeps_entry (st : Bridge) (key : Z) (repo : repositoryImpl)
    (k : Z) :
  is_Some (repositories st !! k) ->
  is_Some (repositories (store st key repo) !! k).
Proof.
  intros Hsome. unfold store. cbn [repositories].
  destruct (Z.eq_dec key k) as [->|Hne].
  - rewrite lookup_insert_eq. eauto.
  - now rewrite lookup_insert_ne by exact Hne.
Qed.

(** A call leaves an entry to the handle it issues (while the counter is a
    [C.int]) and to every handle that had one, unless it destroys it. *)
Lemma step_keeps_live (st : Bridge) (c : Call) (h : Z) :
  is_C_int h ->
  handleInRange c ->
  (eventIn st c = Issued h -> (0 <= nextRepoID st <= INT_MAX)%Z) ->
  eventIn st c = Issued h
  \/ (is_Some (repositories st !! ResticRepo h) /\ eventIn st c <> Destroyed h) ->
  is_Some (repositories (fst (stepIn st c)) !! ResticRepo h).
Proof.
  intros Hh Htyped Hrange.
  assert (Hfresh : (ResticRepo (nextRepoID st + 1) =? nextRepoID st)%Z = false)
    by (apply Z.eqb_neq, ResticRepo_succ_neq).
  assert (Hcreate : forall repo,
    (Issued (C_int (nextRepoID st)) = Issued h ->
     (0 <= nextRepoID st <= INT_MAX)%Z) ->
    Issued (C_int (nextRepoID st)) = Issued h
    \/ (is_Some (repositories st !! ResticRepo h)
        /\ Issued (C_int (nextRepoID st)) <> Destroyed h) ->
    is_Some (<[nextRepoID st := repo]> (repositories st) !! ResticRepo h)).
  { intros repo Hr [Hissued|[Hold _]].
    - specialize (Hr Hissued). injection Hissued as Heq.
      assert (Hn : nextRepoID st = h).
      { rewrite <- Heq. symmetry. apply C_int_id.
        unfold is_C_int, INT_MIN, INT_MAX in *. lia. }
      assert (Hk : ResticRepo h = h).
      { unfold ResticRepo, wrap_unsigned. apply Z.mod_small.
        unfold INT_MAX in *. lia. }
      rewrite Hk, Hn, lookup_insert_eq. eauto.
    - destruct (Z.eq_dec (nextRepoID st) (ResticRepo h)) as [->|Hne].
      + rewrite lookup_insert_eq. eauto.
      + now rewrite lookup_insert_ne by exact Hne. }
  destruct c as [u b p a s n|u b p a s n|h0 ps pc ts tc|h0 id dir|h0|h0|h0];
    unfold event, step in *.
  - unfold restic_init in *.
    destruct u, b, p;
      try (cbn [fst snd] in *; rewrite Z.eqb_refl;
           intros [Habs|[Hold _]]; [discriminate|exact Hold]).
    destruct (Init _ _) as [repo|].
    + cbn [register fst snd nextRepoID repositories] in *.
      rewrite Hfresh in *. now apply Hcreate.
    + cbn [fst snd] in *. rewrite Z.eqb_refl.
      intros [Habs|[Hold _]]; [discriminate|exact Hold].
  - unfold restic_open in *.
    destruct u, b, p;
      try (cbn [fst snd] in *; rewrite Z.eqb_refl;
           intros [Habs|[Hold _]]; [discriminate|exact Hold]).
    destruct (Open _ _) as [repo|].
    + cbn [register fst snd nextRepoID repositories] in *.
      rewrite Hfresh in *. now apply Hcreate.
    + cbn [fst snd] in *. rewrite Z.eqb_refl.
      intros [Habs|[Hold _]]; [discriminate|exact Hold].
  - clear Hrange. unfold restic_backup.
    destruct (repositories st !! ResticRepo h0) as [repo0|];
      [|cbn [fst]; intros [Habs|[Hold _]]; [discriminate|exact Hold]].
    destruct ps;
      [|cbn [fst]; intros [Habs|[Hold _]]; [discriminate|exact Hold]].
    destruct (pc <=? 0)%Z;
      [cbn [fst]; intros [Habs|[Hold _]]; [discriminate|exact Hold]|].
    destruct (Backup _ _) as [repo [sid [err|]]]; cbn [fst];
      (intros [Habs|[Hold _]]; [discriminate|now apply store_keeps_entry]).
  - clear Hrange. unfold restic_restore.
    destruct (repositories st !! ResticRepo h0) as [repo0|];
      [|cbn [fst]; intros [Habs|[Hold _]]; [discriminate|exact Hold]].
    destruct id, dir;
      try (cbn [fst]; intros [Habs|[Hold _]]; [discriminate|exact Hold]).
    destruct (Restore _ _ _) as [repo [err|]]; cbn [fst];
      (intros [Habs|[Hold _]]; [discriminate|now apply store_keeps_entry]).
  - clear Hrange. unfold restic_list_snapshots.
    destruct (repositories st !! ResticRepo h0);
      [|cbn [fst]; intros [Habs|[Hold _]]; [discriminate|exact Hold]].
    destruct (Snapshots _ _ _ _ _) as [snapshots [err|]];
      [cbn [fst]; intros [Habs|[Hold _]]; [discriminate|exact Hold]|].
    destruct (length snapshots =? 0)%nat; cbn [fst];
      (intros [Habs|[Hold _]]; [discriminate|exact Hold]).
  - clear Hrange. unfold restic_check.
    destruct (repositories st !! ResticRepo h0);
      [|cbn [fst]; intros [Habs|[Hold _]]; [discriminate|exact Hold]].
    destruct (Check _ _) as [report [err|]]; cbn [fst];
      (intros [Habs|[Hold _]]; [discriminate|exact Hold]).
  - clear Hrange. unfold restic_close.
    destruct (repositories st !! ResticRepo h0) as [repo0|];
      cbn [fst snd repositories].
    + change (RESTIC_OK =? RESTIC_OK)%Z with true. cbn iota.
      intros [Habs|[Hold Hnot]]; [discriminate|].
      rewrite lookup_delete_ne; [exact Hold|].
      intros Heq. apply Hnot. f_equal.
      assert (Hh0 : is_C_int h0) by (apply Htyped; reflexivity).
      rewrite <- (C_int_of_ResticRepo h0 Hh0), <- (C_int_of_ResticRepo h Hh).
      now rewrite Heq.
    + intros [Habs|[Hold _]]; [|exact Hold].
      change (RESTIC_ERROR_INVALID_PARAMS =? RESTIC_OK)%Z with false in Habs.
      discriminate.
Qed.

Lemma updateLive_true (h : Z) (e : Event) (live : bool) :
  updateLive h e live = true ->
  e = Issued h \/ (live = true /\ e <> Destroyed h).
Proof.
  destruct e as [h'|h'|]; cbn [updateLive].
  - destruct (Z.eqb_spec h' h) as [->|Hne]; [now left|].
    intros ->. right. split; [reflexivity|discriminate].
  - destruct (Z.eqb_spec h' h) as [->|Hne]; [discriminate|].
    intros ->. right. split; [reflexivity|]. intros [= ->]. contradiction.
  - intros ->. right. split; [reflexivity|discriminate].
Qed.

(** Along a run in which the counter stays a [C.int], a handle that is
    live has an entry. *)
Lemma run_live_entries (h : Z) (calls : list Call) :
  is_C_int h ->
  forall st live k,
    Forall handleInRange calls ->
    nextRepoID st = (1 + Z.of_nat k)%Z ->
    (Z.of_nat (k + length (issued (snd (runIn st calls)))) <= INT_MAX)%Z ->
    (live = true -> is_Some (repositories st !! ResticRepo h)) ->
    liveAfter h (snd (runIn st calls)) live = true ->
    is_Some (repositories (fst (runIn st calls)) !! ResticRepo h).
Proof.
  intros Hh. induction calls as [|c calls IH];
    intros st live k Htyped Hnext Hbound Hlive.
  - exact Hlive.
  - rewrite run_cons in *. cbn [fst snd liveAfter] in *.
    apply List.Forall_cons_iff in Htyped as [Hc Htyped].
    intros Hafter.
    destruct (step_counter createRepository openRepository Backup Restore
                time_Parse time_Format sort_Slice st c)
      as [[Hevent Hnext']|[Hevent Hnext']].
    + rewrite Hevent in Hbound. cbn [issued length] in Hbound.
      assert (Hk : (0 <= nextRepoID st <= INT_MAX)%Z) by lia.
      apply (IH (fst (stepIn st c)) (updateLive h (eventIn st c) live) (S k));
        try assumption.
      * rewrite Hnext', Hnext. unfold ResticRepo, wrap_unsigned.
        rewrite Z.mod_small; [lia|]. unfold INT_MAX in *. lia.
      * lia.
      * intros Hup. apply step_keeps_live; try assumption.
        -- intros _. exact Hk.
        -- apply updateLive_true in Hup as [He|[Hl Hne]]; [now left|].
           right. split; [now apply Hlive|exact Hne].
    + assert (Hsame : issued (eventIn st c :: snd (runIn (fst (stepIn st c)) calls))
                      = issued (snd (runIn (fst (stepIn st c)) calls))).
      { now apply issued_cons_not_issued. }
      rewrite Hsame in Hbound.
      apply (IH (fst (stepIn st c)) (updateLive h (eventIn st c) live) k);
        try assumption.
      * now rewrite Hnext'.
      * intros Hup. apply step_keeps_live; try assumption.
        -- intros He. now apply Hevent in He.
        -- apply updateLive_true in Hup as [He|[Hl Hne]]; [now left|].
           right. split; [now apply Hlive|exact Hne].
Qed.

(** X25.  In a run of the bridge from its initial state in which at most
    [INT_MAX] handles are issued, a handle has an entry in the table
    exactly when it is live: it was issued by [restic_init] or
    [restic_open] and no [restic_close] has returned [RESTIC_OK] for it
    since.  So a live handle is never refused as unknown, and a handle
    stays usable until it is closed, whatever is done with the other
    handles. *)
Theorem live_handle_has_entry (calls : list Call) (h : Z) :
  is_C_int h ->
  Forall handleInRange calls ->
  (Z.of_nat (length (issued (snd (runIn Bridge_init calls)))) <= INT_MAX)%Z ->
  liveAfter h (snd (runIn Bridge_init calls)) false = true
  <-> is_Some (repositories (fst (runIn Bridge_init calls)) !! ResticRepo h).
Proof.
  intros Hh Htyped Hbound. split.
  - apply (run_live_entries h calls Hh Bridge_init false 0);
      try assumption; try reflexivity. discriminate.
  - apply run_entries_live; [exact Hh|].
    cbn [Bridge_init repositories]. rewrite lookup_empty.
    intros [x Hx]. discriminate.
Qed.

End LiveHandles.

Lemma live_handle_has_entry_witness :
  is_Some (repositories
             (fst (run (sample_open (sampleRepository tenSnapshots))
                     (sample_open (sampleRepository tenSnapshots))
                     sample_Backup sample_Restore parseUTC formatRFC3339
                     stable_sort_Slice Bridge_init openCloseOpen))
           !! ResticRepo 2).
Proof.
  apply (live_handle_has_entry (sample_open (sampleRepository tenSnapshots))
           (sample_open (sampleRepository tenSnapshots))
           sample_Backup sample_Restore parseUTC formatRFC3339 stable_sort_Slice
           openCloseOpen 2).
  - unfold is_C_int, INT_MIN, INT_MAX. lia.
  - unfold openCloseOpen.
    apply List.Forall_cons; [intros h' Hh'; discriminate|].
    apply List.Forall_cons; [intros h' Hh'; discriminate|].
    apply List.Forall_cons.
    { intros h' [= <-]. unfold is_C_int, INT_MIN, INT_MAX. lia. }
    apply List.Forall_cons; [intros h' Hh'; discriminate|].
    apply List.Forall_nil.
  - vm_compute. discriminate.
  - vm_compute. reflexivity.
Defined.

(** ** The C++ wrapper's [Repository] *)

Section CppRepositoryFacts.

Variable C_malloc : CHeap -> Z.
Hypothesis malloc_is_fresh : forall heap : CHeap, heap !! C_malloc heap = None.
Hypothesis malloc_is_not_NULL : forall heap : CHeap, C_malloc heap <> NULL.

Variable createRepository : Config -> option repositoryImpl.
Variable openRepository : Config -> option repositoryImpl.

Lemma throwResticException_text (heap : CHeap) (code : Z) (text : string) :
  restic_get_error_message C_malloc heap code = C_CString C_malloc heap text ->
  noNUL text = true ->
  throwResticException C_malloc heap code
  = Some (heap, ResticException code text).
Proof.
  intros Hmsg Htext. unfold throwResticException. rewrite Hmsg.
  destruct (CString_then_free C_malloc malloc_is_fresh malloc_is_not_NULL
              heap text) as (Hnew & Hnn & Hread & Hfree).
  destruct (C_CString C_malloc heap text) as [heap' p] eqn:Hc.
  cbn [fst snd] in *. unfold stringOrEmpty.
  destruct (Z.eqb_spec p NULL) as [Heq|_]; [contradiction|].
  rewrite Hread, Hfree. now rewrite uptoNUL_noNUL.
Qed.

(** X26.  The constructor of the wrapper's [Repository], while the counter
    of the bridge is between 1 and [INT_MAX] and the table has no entry
    under it yet.  The location, the backend and the password reach the
    library as their bytes before the first NUL, and so do the two keys,
    which are passed on only when both strings are non-empty.  If [Init]
    (resp. [Open]) succeeds on this configuration, the object holds the
    counter's value as its handle and the table holds the repository under
    it; the destructor then removes that entry again, so that the table is
    as before the constructor.  If it fails, the constructor throws
    [ResticException] with [RESTIC_ERROR_REPO_NOT_FOUND] and
    [Repository not found or invalid password] (resp.
    [RESTIC_ERROR_INVALID_PASSWORD] and [Invalid password]), whatever made
    it fail, and the table, the counter and the memory are as they
    were. *)
Theorem Repository_constructor (st : Bridge) (heap : CHeap)
    (config : cpp_Config) (init_repo : bool) :
  (1 <= nextRepoID st <= INT_MAX)%Z ->
  repositories st !! nextRepoID st = None ->
  let cfg :=
    makeConfig (c_str (cpp_repoUrl config)) (c_str (cpp_backend config))
      (c_str (cpp_password config)) (c_str_or_null (cpp_accessKey config))
      (c_str_or_null (cpp_secretKey config)) (cpp_parallelism config) in
  match (if init_repo then Init createRepository cfg
         else Open openRepository cfg) with
  | Some repo =>
      exists st',
        Repository_new C_malloc createRepository openRepository
          st heap config init_repo
        = Some (st', heap, inl (nextRepoID st))
        /\ repositories st' !! ResticRepo (nextRepoID st) = Some repo
        /\ Repository_delete st' (nextRepoID st)
           = {| repositories := repositories st;
                nextRepoID := (nextRepoID st + 1)%Z |}
  | None =>
      Repository_new C_malloc createRepository openRepository
        st heap config init_repo
      = Some (st, heap,
              inr (if init_repo
                   then ResticException RESTIC_ERROR_REPO_NOT_FOUND
                          "Repository not found or invalid password"
                   else ResticException RESTIC_ERROR_INVALID_PASSWORD
                          "Invalid password"))
  end.
Proof.
  intros Hrange Hfresh. cbn zeta.
  assert (Hc : C_int (nextRepoID st) = nextRepoID st).
  { apply C_int_id. unfold is_C_int, INT_MIN, INT_MAX in *. lia. }
  assert (Hk : ResticRepo (nextRepoID st) = nextRepoID st).
  { unfold ResticRepo, wrap_unsigned. apply Z.mod_small.
    unfold INT_MAX in *. lia. }
  assert (Hk1 : ResticRepo (nextRepoID st + 1) = (nextRepoID st + 1)%Z).
  { unfold ResticRepo, wrap_unsigned. apply Z.mod_small.
    unfold INT_MAX in *. lia. }
  assert (Hregister : forall repo,
    exists st',
      (let '(st0, result) := register st repo in
       if (result <? 0)%Z
       then match throwResticException C_malloc heap result with
            | Some (heap0, e) => Some (st0, heap0, inr e)
            | None => None
            end
       else Some (st0, heap, inl result))
      = Some (st', heap, @inl Z cpp_exception (nextRepoID st))
      /\ repositories st' !! ResticRepo (nextRepoID st) = Some repo
      /\ Repository_delete st' (nextRepoID st)
         = {| repositories := repositories st;
              nextRepoID := (nextRepoID st + 1)%Z |}).
  { intros repo. unfold register. rewrite Hc, Hk1.
    destruct (Z.ltb_spec (nextRepoID st) 0) as [Hneg|_]; [lia|].
    eexists. split; [reflexivity|]. cbn [repositories].
    rewrite Hk. split; [apply lookup_insert_eq|].
    unfold Repository_delete.
    destruct (Z.leb_spec 0 (nextRepoID st)) as [_|Hneg]; [|lia].
    unfold restic_close. cbn [repositories nextRepoID]. rewrite Hk.
    rewrite lookup_insert_eq. cbn [fst]. f_equal.
    apply delete_insert_id. exact Hfresh. }
  unfold Repository_new. destruct init_repo.
  - unfold restic_init.
    destruct (Init createRepository _) as [repo|]; [apply Hregister|].
    cbn [Z.ltb Z.compare RESTIC_ERROR_REPO_NOT_FOUND].
    now rewrite (throwResticException_text heap RESTIC_ERROR_REPO_NOT_FOUND
                   "Repository not found or invalid password").
  - unfold restic_open.
    destruct (Open openRepository _) as [repo|]; [apply Hregister|].
    cbn [Z.ltb Z.compare RESTIC_ERROR_INVALID_PASSWORD].
    now rewrite (throwResticException_text heap RESTIC_ERROR_INVALID_PASSWORD
                   "Invalid password").
Qed.

End CppRepositoryFacts.

Lemma Repository_constructor_witness :
  exists st',
    Repository_new bumpAllocator
      (sample_open (sampleRepository tenSnapshots))
      (sample_open (sampleRepository tenSnapshots))
      Bridge_init busyHeap sampleCppConfig false
    = Some (st', busyHeap, inl 1%Z)
    /\ repositories st' !! ResticRepo 1 = Some (sampleRepository tenSnapshots)
    /\ Repository_delete st' 1
       = {| repositories := repositories Bridge_init; nextRepoID := 2 |}.
Proof.
  apply (Repository_constructor bumpAllocator
           (fun heap => proj1 (bumpAllocator_fresh heap))
           (fun heap => proj2 (bumpAllocator_fresh heap))
           (sample_open (sampleRepository tenSnapshots))
           (sample_open (sampleRepository tenSnapshots))
           Bridge_init busyHeap sampleCppConfig false).
  - cbn. unfold INT_MAX. lia.
  - reflexivity.
Defined.

(** A password with a NUL as its first byte reaches the library as the
    empty password, which [Open] refuses. *)
Example Repository_new_NUL_password :
  Repository_new bumpAllocator
    (sample_open (sampleRepository tenSnapshots))
    (sample_open (sampleRepository tenSnapshots))
    Bridge_init busyHeap nulPasswordConfig false
  = Some (Bridge_init, busyHeap,
          inr (ResticException RESTIC_ERROR_INVALID_PASSWORD
                 "Invalid password")).
Proof. vm_compute. reflexivity. Qed.
